(** * llm-instinct: the instinct-driven tree search, embedded in Rocq

    The development follows [src/core/Node.js] and [src/core/InstinctMCTS.js],
    then [src/api/openrouter.js] and [src/utils/treeUtils.js].

    - JavaScript numbers are modelled by [number]: an exact rational, or one
      of [NaN], [+Infinity], [-Infinity].  Rounding of binary64 arithmetic
      and the sign of zero are not modelled; every finite result is kept in
      lowest terms, so that equal numbers are equal terms.
    - The heap of [Node] objects is a list indexed by allocation order; a
      reference to a node is its index.  [parent] and [children] hold such
      references, so aliasing is the heap's.
    - The host library ([Math.sqrt], [Math.log], [Math.random]) and the LLM
      client injected into the engine are parameters of the development.
    - [async] functions are run sequentially; a rejected promise is an
      [Error] result.  Loops carry a fuel argument; [None] means that the
      fuel ran out.
    - A call of [this.simulate] goes through the method table of the
      class, whose body defines [simulate] twice.
    - [Date.now()] stamps ([createdAt], [updatedAt], [timestamp]) and
      [console] output are left out. *)

From Stdlib Require Import QArith Qround String Ascii List Lia Lqa.
From stdpp Require Import base list strings pretty.

Local Open Scope string_scope.
Local Open Scope list_scope.

(** ** Numbers *)

Inductive number : Type :=
  | Fin (q : Q)
  | NaN
  | PInf
  | NInf.

Definition fin (q : Q) : number := Fin (Qred q).

Definition of_nat (n : nat) : number := fin (inject_Z (Z.of_nat n)).

Definition Qltb (a b : Q) : bool := negb (Qle_bool b a).

Definition Qzerob (a : Q) : bool := Qeq_bool a 0.

Definition num_neg (x : number) : number :=
  match x with
  | Fin a => fin (- a)
  | NaN => NaN
  | PInf => NInf
  | NInf => PInf
  end.

Definition num_add (x y : number) : number :=
  match x, y with
  | NaN, _ | _, NaN => NaN
  | PInf, NInf | NInf, PInf => NaN
  | PInf, _ | _, PInf => PInf
  | NInf, _ | _, NInf => NInf
  | Fin a, Fin b => fin (a + b)
  end.

Definition num_sub (x y : number) : number := num_add x (num_neg y).

(** The product of an infinity and [q]: [NaN] at zero, else by sign. *)
Definition inf_times (positive : bool) (q : Q) : number :=
  if Qzerob q then NaN
  else if Bool.eqb positive (Qltb 0 q) then PInf else NInf.

Definition num_mul (x y : number) : number :=
  match x, y with
  | NaN, _ | _, NaN => NaN
  | PInf, PInf | NInf, NInf => PInf
  | PInf, NInf | NInf, PInf => NInf
  | PInf, Fin b | Fin b, PInf => inf_times true b
  | NInf, Fin b | Fin b, NInf => inf_times false b
  | Fin a, Fin b => fin (a * b)
  end.

Definition num_div (x y : number) : number :=
  match x, y with
  | NaN, _ | _, NaN => NaN
  | (PInf | NInf), (PInf | NInf) => NaN
  | Fin _, (PInf | NInf) => Fin 0
  | PInf, Fin b => if Qltb b 0 then NInf else PInf
  | NInf, Fin b => if Qltb b 0 then PInf else NInf
  | Fin a, Fin b =>
      if Qzerob b then inf_times true a else fin (a / b)
  end.

(** [x < y] of JavaScript: false as soon as one side is [NaN]. *)
Definition num_lt (x y : number) : bool :=
  match x, y with
  | NaN, _ | _, NaN => false
  | _, NInf => false
  | NInf, _ => true
  | PInf, _ => false
  | _, PInf => true
  | Fin a, Fin b => Qltb a b
  end.

Definition num_gt (x y : number) : bool := num_lt y x.

(** [x <= y] of JavaScript. *)
Definition num_le (x y : number) : bool :=
  match x, y with
  | NaN, _ | _, NaN => false
  | NInf, _ => true
  | _, PInf => true
  | _, NInf => false
  | PInf, _ => false
  | Fin a, Fin b => Qle_bool a b
  end.

Definition is_nan (x : number) : bool :=
  match x with NaN => true | _ => false end.

Definition Math_min (x y : number) : number :=
  if is_nan x || is_nan y then NaN else if num_lt y x then y else x.

Definition Math_max (x y : number) : number :=
  if is_nan x || is_nan y then NaN else if num_lt x y then y else x.

(** The closed interval [[0,1]] the instinct metrics are documented to
    live in. *)
Definition in_unit (x : number) : bool := num_le (Fin 0) x && num_le x (Fin 1).

(** ** Strings *)

Definition lower_ascii (c : ascii) : ascii :=
  let n := nat_of_ascii c in
  if (65 <=? n)%nat && (n <=? 90)%nat then ascii_of_nat (n + 32) else c.

(** [String.prototype.toLowerCase], on the ASCII letters. *)
Fixpoint toLowerCase (s : string) : string :=
  match s with
  | EmptyString => EmptyString
  | String c t => String (lower_ascii c) (toLowerCase t)
  end.

(** [String.prototype.includes]. *)
Fixpoint includes (s sub : string) : bool :=
  String.prefix sub s ||
  match s with
  | EmptyString => false
  | String _ t => includes t sub
  end.

Definition is_digit (c : ascii) : bool :=
  let n := nat_of_ascii c in (48 <=? n)%nat && (n <=? 57)%nat.

Fixpoint take_digits (s : string) : string :=
  match s with
  | EmptyString => EmptyString
  | String c t => if is_digit c then String c (take_digits t) else EmptyString
  end.

(** [s.match(/(\d+)/)]: the first maximal run of decimal digits, [None]
    when the text has no digit. *)
Fixpoint match_digits (s : string) : option string :=
  match s with
  | EmptyString => None
  | String c t => if is_digit c then Some (take_digits s) else match_digits t
  end.

Fixpoint digits_value (acc : N) (s : string) : N :=
  match s with
  | EmptyString => acc
  | String c t => digits_value (acc * 10 + N.of_nat (nat_of_ascii c - 48)) t
  end.

(** [parseInt(d, 10)] on a run of decimal digits. *)
Definition parseInt (d : string) : number :=
  fin (inject_Z (Z.of_N (digits_value 0 d))).

(** ** Values *)

Abbreviation addr := nat.

(** What a numeric field holds once [+=] may have been applied to it with
    an operand that is not a number: a number, or the text [+] built. *)
Inductive scalar : Type :=
  | SNum (x : number)
  | SStr (s : string).

Fixpoint frac_digits (fuel : nat) (r d : Z) : string :=
  match fuel with
  | O => EmptyString
  | S f =>
      if (r =? 0)%Z then EmptyString
      else pretty (r * 10 / d)%Z +:+ frac_digits f ((r * 10) mod d)%Z d
  end.

(** [Number.prototype.toString].  Exact on the integers and on the three
    special values; other rationals are printed with at most 17 decimals,
    which only approximates the shortest form JavaScript prints. *)
Definition number_to_string (x : number) : string :=
  match x with
  | NaN => "NaN"
  | PInf => "Infinity"
  | NInf => "-Infinity"
  | Fin q =>
      let n := Qnum q in
      let d := Zpos (Qden q) in
      let i := Z.quot n d in
      let r := Z.abs (Z.rem n d) in
      if (r =? 0)%Z then pretty i
      else (if (n <? 0)%Z then "-" else "") +:+ pretty (Z.abs i) +:+ "." +:+
           frac_digits 17 r d
  end.

Fixpoint all_digits (s : string) : bool :=
  match s with
  | EmptyString => true
  | String c t => is_digit c && all_digits t
  end.

(** [ToNumber] on a string: the empty text is 0, a run of decimal digits
    is its value, anything else is [NaN].  Signs, fractions, exponents
    and surrounding blanks are not parsed. *)
Definition string_to_number (s : string) : number :=
  if all_digits s then parseInt s else NaN.

Definition scalar_to_number (v : scalar) : number :=
  match v with
  | SNum x => x
  | SStr s => string_to_number s
  end.

Definition scalar_to_string (v : scalar) : string :=
  match v with
  | SNum x => number_to_string x
  | SStr s => s
  end.

(** The snapshot of a node made by [nodeToObject]. *)
#[warnings="-register-all"]
Inductive TreeObject : Type :=
  TreeNode (id content : string) (visits : nat) (value : scalar)
           (emotionalState instinctWeight confidence perseverance : number)
           (children : list TreeObject).

Record Snapshot : Type := {
  tree : TreeObject;
  selectedNodeId : option string
}.

(** The object the two-argument [simulate] returns; [V] is the type of
    the value left in [bestScore]. *)
Record SimResult (V : Type) : Type := {
  bestApproach : string;
  bestNode : addr;
  bestScore : V;
  treeHistory_of : list Snapshot;
  finalTree : Snapshot
}.
Arguments bestApproach {V} _.
Arguments bestNode {V} _.
Arguments bestScore {V} _.
Arguments treeHistory_of {V} _.
Arguments finalTree {V} _.

(** The JavaScript values that reach a parameter of the engine. *)
#[warnings="-register-all"]
Inductive jsval : Type :=
  | VUndefined
  | VNull
  | VNum (x : number)
  | VStr (s : string)
  | VNode (a : addr)
  | VResult (r : SimResult jsval).

Definition ToNumber (v : jsval) : number :=
  match v with
  | VUndefined => NaN
  | VNull => Fin 0
  | VNum x => x
  | VStr s => string_to_number s
  | VNode _ | VResult _ => NaN
  end.

Definition ToString (v : jsval) : string :=
  match v with
  | VUndefined => "undefined"
  | VNull => "null"
  | VNum x => number_to_string x
  | VStr s => s
  | VNode _ | VResult _ => "[object Object]"
  end.

(** [v += w] on a field that starts as a number: numeric addition while
    both sides convert to numbers, concatenation as soon as one side is a
    string or an object. *)
Definition js_plus (v : scalar) (w : jsval) : scalar :=
  match v, w with
  | SNum x, (VUndefined | VNull | VNum _) => SNum (num_add x (ToNumber w))
  | _, _ => SStr (scalar_to_string v +:+ ToString w)
  end.

(** [ToPrimitive]: an object becomes the text its [toString] gives. *)
Definition ToPrimitive (v : jsval) : jsval :=
  match v with
  | VNode _ | VResult _ => VStr "[object Object]"
  | _ => v
  end.

(** [v < w]: two strings are compared as strings, anything else as
    numbers. *)
Definition js_lt (v w : jsval) : bool :=
  match ToPrimitive v, ToPrimitive w with
  | VStr s1, VStr s2 => String.ltb s1 s2
  | pv, pw => num_lt (ToNumber pv) (ToNumber pw)
  end.

Definition js_gt (v w : jsval) : bool := js_lt w v.

(** A parameter with a default value: the default replaces [undefined]
    only. *)
Definition default_arg (d : jsval) (v : jsval) : jsval :=
  match v with VUndefined => d | _ => v end.

(** The outcome of a call that may throw, or of an awaited promise. *)
Inductive result (A : Type) : Type :=
  | Ok (a : A)
  | Error (msg : string).
Arguments Ok {A} a.
Arguments Error {A} msg.

Definition TypeError {A : Type} : result A := Error "TypeError".

(** ** The host library *)

Record Host : Type := {
  Math_sqrt : number -> number;
  Math_log : number -> number;
  (** [Math_random k] is the value of the [k]-th call of [Math.random()]. *)
  Math_random : nat -> Q
}.

(** ** src/core/Node.js *)

Module Node.

Record t : Type := mk {
  id : string;
  content : string;
  parent : option addr;
  children : list addr;
  visits : nat;
  value : scalar;
  explorationWeight : number;
  confidenceBias : number;
  perseveranceFactor : number;
  emotionalState : number;
  instinctWeight : number;
  confidence : number;
  perseverance : number;
  depth : nat;
  path : list string
}.

Abbreviation Heap := (list t).

(** The object literal passed to [updateParameters]; [None] is a key that
    is absent, [Some x] the number the value converts to. *)
Record Params : Type := {
  p_emotionalState : option number;
  p_instinctWeight : option number;
  p_confidence : option number;
  p_perseverance : option number;
  p_explorationWeight : option number;
  p_confidenceBias : option number;
  p_perseveranceFactor : option number
}.

Definition set_children (c : list addr) (n : t) : t :=
  mk (id n) (content n) (parent n) c (visits n) (value n)
     (explorationWeight n) (confidenceBias n) (perseveranceFactor n)
     (emotionalState n) (instinctWeight n) (confidence n) (perseverance n)
     (depth n) (path n).

Definition set_stats (v : nat) (w : scalar) (es : number) (n : t) : t :=
  mk (id n) (content n) (parent n) (children n) v w
     (explorationWeight n) (confidenceBias n) (perseveranceFactor n)
     es (instinctWeight n) (confidence n) (perseverance n)
     (depth n) (path n).

Definition set_metrics (es iw cf pv : number) (n : t) : t :=
  mk (id n) (content n) (parent n) (children n) (visits n) (value n)
     (explorationWeight n) (confidenceBias n) (perseveranceFactor n)
     es iw cf pv (depth n) (path n).

Definition set_coefficients (ew cb pf : number) (n : t) : t :=
  mk (id n) (content n) (parent n) (children n) (visits n) (value n)
     ew cb pf
     (emotionalState n) (instinctWeight n) (confidence n) (perseverance n)
     (depth n) (path n).

Definition chars : string := "abcdefghijklmnopqrstuvwxyz".

(** [chars[Math.floor(r * chars.length)]], the empty text when the index
    falls outside [chars]. *)
Definition id_char (r : Q) : string :=
  let i := Qfloor (r * 26) in
  if (i <? 0)%Z then ""
  else match String.get (Z.to_nat i) chars with
       | Some c => String c EmptyString
       | None => ""
       end.

Section WithHost.
Context (host : Host).

(** [_generateId]: six draws of [Math.random], the first of them being
    draw number [k]. *)
Definition _generateId (k : nat) : string :=
  String.concat "" (map (fun i => id_char (Math_random host (k + i))) (seq 0 6)).

(** The object [new Node({content, parent, ...})] builds when no [id] is
    given and [k] draws have been made. *)
Definition construct (h : Heap) (k : nat) (content : string) (parent : option addr)
    (ew cb pf : number) : t :=
  let p := parent ≫= (fun a => h !! a) in
  mk (_generateId k) content parent [] 0 (SNum (Fin 0)) ew cb pf
     (Fin (1#2)) (Fin (1#2)) (Fin (1#2)) (Fin (1#2))
     (match p with Some pn => depth pn + 1 | None => 0 end)
     (match p with Some pn => path pn ++ [id pn] | None => [] end).

(** [new Node(...)]: the node is allocated at the end of the heap.
    Returns the heap, the number of draws made so far, and the reference
    to the node. *)
Definition new (h : Heap) (k : nat) (content : string) (parent : option addr)
    (ew cb pf : number) : Heap * nat * addr :=
  (h ++ [construct h k content parent ew cb pf], k + 6, length h).

(** [this.addChild(content)]. *)
Definition addChild (h : Heap) (k : nat) (this : addr) (content : string)
    : option (Heap * nat * addr) :=
  n ← h !! this;
  let '(h1, k1, child) :=
    new h k content (Some this)
        (explorationWeight n) (confidenceBias n) (perseveranceFactor n) in
  Some (alter (fun n => set_children (children n ++ [child]) n) this h1, k1, child).

Definition epsilon : number := Fin (1 # 1000000).

(** [this.uctValue()]; [None] only for a reference that is not in the
    heap. *)
Definition uctValue (h : Heap) (this : addr) : option number :=
  n ← h !! this;
  match parent n with
  | None => Some (Fin 0)
  | Some p =>
      pn ← h !! p;
      let exploitation :=
        num_div (scalar_to_number (value n)) (num_add (of_nat (visits n)) epsilon) in
      let exploration :=
        num_mul (explorationWeight n)
          (Math_sqrt host
             (num_div (Math_log host (num_add (of_nat (visits pn)) epsilon))
                      (num_add (of_nat (visits n)) epsilon))) in
      let confidenceModifier := num_mul (confidenceBias n) (emotionalState n) in
      let perseveranceBoost := num_mul (perseverance n) (perseveranceFactor n) in
      Some (num_add
              (num_add exploitation
                 (num_mul exploration (num_add (Fin 1) confidenceModifier)))
              perseveranceBoost)
  end.
End WithHost.

Definition clamp01 (x : number) : number := Math_max (Fin 0) (Math_min (Fin 1) x).

Definition or_keep (o : option number) (f : number -> number) (old : number) : number :=
  match o with Some x => f x | None => old end.

(** [this.updateParameters(params)]. *)
Definition updateParameters (params : Params) (n : t) : t :=
  set_coefficients
    (or_keep (p_explorationWeight params) (fun x => x) (explorationWeight n))
    (or_keep (p_confidenceBias params) (fun x => x) (confidenceBias n))
    (or_keep (p_perseveranceFactor params) (fun x => x) (perseveranceFactor n))
    (set_metrics
       (or_keep (p_emotionalState params) clamp01 (emotionalState n))
       (or_keep (p_instinctWeight params) clamp01 (instinctWeight n))
       (or_keep (p_confidence params) clamp01 (confidence n))
       (or_keep (p_perseverance params) clamp01 (perseverance n))
       n).

End Node.

(** ** src/core/prompts.js *)

Module Prompts.

Definition nl : string := String (ascii_of_nat 10) EmptyString.
Definition quotes3 : string :=
  let q := ascii_of_nat 34 in String q (String q (String q EmptyString)).

(** A template literal, line by line. *)
Definition template (ls : list string) : string := String.concat nl ls.

Definition generateThoughtPrompt (problem context currentApproach : string) : string :=
  template [
    "";
    "Given the following problem and context:";
    "";
    "PROBLEM: " +:+ problem;
    "";
    "CONTEXT: " +:+ context;
    "";
    "And the current approach being considered:";
    quotes3;
    currentApproach;
    quotes3;
    "";
    "Generate a next step, consideration, or alternative approach. Balance logical thinking with intuitive insights.";
    "";
    "Your response should demonstrate one or more of these qualities:";
    "1. Perseverance through challenges rather than giving up";
    "2. Confidence when appropriate, even when facing uncertainty";
    "3. Recognition of patterns that might not be immediately obvious";
    "4. Ability to go against conventional wisdom when your instinct suggests it";
    "";
    "Your response should be a single comprehensive paragraph explaining your suggested next step or consideration.";
    "" ].

Definition generateEvaluationPrompt (problem context approach : string) : string :=
  template [
    "";
    "Evaluate the quality of the following approach to this problem:";
    "";
    "PROBLEM: " +:+ problem;
    "";
    "CONTEXT: " +:+ context;
    "";
    "APPROACH:";
    quotes3;
    approach;
    quotes3;
    "";
    "Rate this approach on a scale from 1 to 10, where 10 is best.";
    "";
    "Consider:";
    "1. How well does this approach balance analysis with intuition?";
    "2. Does it show perseverance in the face of uncertainty?";
    "3. Is it creative and potentially effective?";
    "4. Does it demonstrate conviction despite possible doubt?";
    "5. Does it recognize patterns or insights that aren't immediately obvious?";
    "";
    "Return only a single number from 1 to 10.";
    "" ].

End Prompts.

(** ** The LLM client the engine is given *)

Record Options : Type := {
  temperature : option number;
  maxTokens : option number
}.

Definition no_options : Options := {| temperature := None; maxTokens := None |}.

(** The object [analyzeContent] resolves to, each field already converted
    to a number ([NaN] for a field that is missing or not numeric). *)
Record Analysis : Type := {
  a_confidence : number;
  a_perseverance : number;
  a_instinctVsAnalysis : number;
  a_emotionalState : number
}.

(** The two methods the engine calls on [llmClient].  [Client] is the
    state of the service behind them. *)
Record LLM (Client : Type) : Type := {
  generateCompletion : Client -> string -> Options -> Client * result string;
  analyzeContent : Client -> string -> Client * result Analysis
}.
Arguments generateCompletion {Client} _ _ _ _.
Arguments analyzeContent {Client} _ _ _.

(** ** src/api/openrouter.js *)

Module OpenRouterClient.
Section Client.
(** The HTTP exchange of [generateCompletion] and the extraction
    [JSON.parse(result.match(/\{.*\}/s)[0])] are the parameters; [None]
    is a response with no braces or with text that does not parse. *)
Context {Net : Type}.
Context (fetch_completion : Net -> string -> Options -> Net * result string).
Context (parse_analysis : string -> option Analysis).

Definition generateCompletion (c : Net) (prompt : string) (o : Options)
    : Net * result string :=
  fetch_completion c prompt o.

Definition analysisPrompt (text : string) : string :=
  Prompts.template [
    "";
    "Analyze the following text and provide scores for these dimensions:";
    "1. Confidence (1-10): How confident does the author appear?";
    "2. Perseverance (1-10): How much determination to continue despite challenges?";
    "3. Instinct vs Analysis (1-10): Is this more instinct-driven (10) or analytical (1)?";
    "4. Emotional State (1-10): How positive is the emotional tone?";
    "";
    "Text to analyze:";
    Prompts.quotes3;
    text;
    Prompts.quotes3;
    "";
    "Provide your response in JSON format like this: {" +:+
      String.concat ", " (map (fun kv : string * string =>
         String (ascii_of_nat 34) (fst kv) +:+
         String (ascii_of_nat 34) (": " +:+ snd kv))
        [("confidence", "7"); ("perseverance", "8");
         ("instinctVsAnalysis", "6"); ("emotionalState", "5")]) +:+ "}";
    "" ].

Definition neutral : Analysis :=
  {| a_confidence := Fin 5; a_perseverance := Fin 5;
     a_instinctVsAnalysis := Fin 5; a_emotionalState := Fin 5 |}.

(** [analyzeContent]: the parsed object is returned as it is; every
    failure ends in the neutral default. *)
Definition analyzeContent (c : Net) (text : string) : Net * result Analysis :=
  let '(c1, r) :=
    generateCompletion c (analysisPrompt text)
      {| temperature := Some (Fin (3#10)); maxTokens := Some (Fin 100) |} in
  match r with
  | Ok text' =>
      match parse_analysis text' with
      | Some a => (c1, Ok a)
      | None => (c1, Ok neutral)
      end
  | Error _ => (c1, Ok neutral)
  end.

End Client.
End OpenRouterClient.

(** ** src/core/InstinctMCTS.js: the loops over the heap *)

Module Tree.
Import Node.

(** [l.reduce(f, acc)] for a callback that reads the heap. *)
Fixpoint reduce {A : Type} (f : A -> A -> option A) (l : list A) (acc : A) : option A :=
  match l with
  | [] => Some acc
  | x :: l' => acc' ← f acc x; reduce f l' acc'
  end.

(** The inverse-CDF [for] loop of [select]: [None] when the loop ends
    without a [break]. *)
Fixpoint pick (random cumulativeWeight : number) (normalizedWeights : list number)
    (children : list addr) : option addr :=
  match normalizedWeights, children with
  | w :: ws, c :: cs =>
      let cumulativeWeight := num_add cumulativeWeight w in
      if num_le random cumulativeWeight then Some c
      else pick random cumulativeWeight ws cs
  | _, _ => None
  end.

Definition floor_weight : number := Fin (1 # 1000).

Definition normalize (weights : list number) : list number :=
  let totalWeight := fold_left num_add weights floor_weight in
  map (fun w => num_div w totalWeight) weights.

(** [child.visits > best.visits ? child : best]. *)
Definition more_visited (h : Heap) (best child : addr) : option addr :=
  b ← h !! best; c ← h !! child;
  Some (if (visits b <? visits c)%nat then child else best).

Definition most_visited (h : Heap) (children : list addr) : option addr :=
  c0 ← head children; reduce (more_visited h) children c0.

(** The [while] loop of [getBestNode]. *)
Fixpoint getBestNode_loop (fuel : nat) (h : Heap) (current : addr) : option addr :=
  match fuel with
  | O => None
  | S f =>
      n ← h !! current;
      match children n with
      | [] => Some current
      | cs => c ← most_visited h cs; getBestNode_loop f h c
      end
  end.

(** One turn of the [while] loop of [backpropagate]. *)
Definition visit (score : jsval) (n : t) : t :=
  let emotionalImpact := num_sub (num_div (ToNumber score) (Fin 10)) (Fin (1#2)) in
  set_stats (visits n + 1) (js_plus (value n) score)
    (clamp01 (num_add (emotionalState n) (num_mul emotionalImpact (Fin (2#10)))))
    n.

Fixpoint backpropagate_loop (fuel : nat) (h : Heap) (current : option addr)
    (score : jsval) : option Heap :=
  match current with
  | None => Some h
  | Some a =>
      match fuel with
      | O => None
      | S f =>
          n ← h !! a;
          backpropagate_loop f (<[a := visit score n]> h) (parent n) score
      end
  end.

(** [nodeToObject] of [_getCurrentTreeState]. *)
Fixpoint nodeToObject (fuel : nat) (h : Heap) (a : addr) : option TreeObject :=
  match fuel with
  | O => None
  | S f =>
      n ← h !! a;
      cs ← mapM (nodeToObject f h) (children n);
      Some (TreeNode (id n) (content n) (visits n) (value n)
              (emotionalState n) (instinctWeight n) (confidence n) (perseverance n) cs)
  end.

Section WithHost.
Context (host : Host).

(** [child.uctValue() > best.uctValue() ? child : best]. *)
Definition better (h : Heap) (best child : addr) : option addr :=
  ub ← uctValue host h best; uc ← uctValue host h child;
  Some (if num_gt uc ub then child else best).

Definition best_uct (h : Heap) (children : list addr) : option addr :=
  c0 ← head children; reduce (better h) children c0.

(** The [while] loop of [select], from [node], when [k] draws of
    [Math.random] have been made.  Returns the leaf and the number of
    draws made. *)
Fixpoint select_loop (fuel : nat) (h : Heap) (instinctRatio : number) (k : nat)
    (node : addr) : option (addr * nat) :=
  match fuel with
  | O => None
  | S f =>
      n ← h !! node;
      match children n with
      | [] => Some (node, k)
      | cs =>
          if num_lt (Fin (Math_random host k)) instinctRatio then
            weights ← mapM (fun c => emotionalState <$> h !! c) cs;
            let random := Fin (Math_random host (k + 1)) in
            match pick random (Fin 0) (normalize weights) cs with
            | Some c => select_loop f h instinctRatio (k + 2) c
            | None => select_loop f h instinctRatio (k + 2) node
            end
          else
            c ← best_uct h cs;
            select_loop f h instinctRatio (k + 1) c
      end
  end.
End WithHost.

(** [_showsPerseverance]. *)
Definition perseveranceIndicators : list string :=
  [ "continue"; "persist"; "keep going"; "don't give up";
    "try again"; "despite"; "nevertheless"; "however";
    "still worth"; "potential"; "opportunity"; "challenge" ].

Definition doubtIndicators : list string :=
  [ "stop"; "quit"; "abandon"; "too difficult"; "impossible";
    "not worth"; "failure"; "unlikely"; "risky"; "doubt" ].

Definition count_indicators (words : list string) (content : string) : nat :=
  let contentLower := toLowerCase content in
  length (List.filter (fun word => includes contentLower (toLowerCase word)) words).

Definition _showsPerseverance (content : string) : bool :=
  (count_indicators doubtIndicators content <? count_indicators perseveranceIndicators content)%nat.

(** The score read off the evaluation text in the one-argument
    [simulate]. *)
Definition parse_score (evaluation : string) : number :=
  match match_digits evaluation with
  | Some d => Math_min (Fin 10) (Math_max (Fin 1) (parseInt d))
  | None => Fin 5
  end.

(** [childNodes.sort((a, b) => b.instinctWeight - a.instinctWeight)], as a
    stable insertion sort; a comparator value of [NaN] counts as 0. *)
Definition sorts_after (h : Heap) (a b : addr) : bool :=
  match h !! a, h !! b with
  | Some na, Some nb => num_gt (num_sub (instinctWeight nb) (instinctWeight na)) (Fin 0)
  | _, _ => false
  end.

Fixpoint sort_insert (h : Heap) (a : addr) (l : list addr) : list addr :=
  match l with
  | [] => [a]
  | b :: l' => if sorts_after h a b then b :: sort_insert h a l' else a :: l
  end.

Definition sort_by_instinct (h : Heap) (l : list addr) : list addr :=
  foldr (sort_insert h) [] l.

End Tree.

(** ** src/core/InstinctMCTS.js: the engine *)

Module InstinctMCTS.

(** The fields of an engine, together with the two pieces of the world
    its methods change: the heap of nodes and the count of draws made from
    [Math.random].  [updates] lists what [onUpdate] was called with. *)
Record t (Client : Type) : Type := mk {
  llmClient : Client;
  problem : string;
  context : string;
  explorationWeight : number;
  instinctRatio : number;
  confidenceBias : number;
  perseveranceFactor : number;
  root : option addr;
  selectedNode : option addr;
  treeHistory : list Snapshot;
  onUpdate : bool;
  updates : list Snapshot;
  heap : Node.Heap;
  draws : nat
}.
Arguments mk {Client}.
Arguments llmClient {Client} _.
Arguments problem {Client} _.
Arguments context {Client} _.
Arguments explorationWeight {Client} _.
Arguments instinctRatio {Client} _.
Arguments confidenceBias {Client} _.
Arguments perseveranceFactor {Client} _.
Arguments root {Client} _.
Arguments selectedNode {Client} _.
Arguments treeHistory {Client} _.
Arguments onUpdate {Client} _.
Arguments updates {Client} _.
Arguments heap {Client} _.
Arguments draws {Client} _.

(** The method definitions of [class InstinctMCTS], in the order of the
    class body; the number is the line of the definition. *)
Inductive body : Type :=
  | B_initialize_49
  | B_setUpdateCallback_92
  | B_select_100
  | B_expand_140
  | B_simulate_189
  | B_backpropagate_229
  | B_search_251
  | B_getBestNode_284
  | B_simulate_305
  | B_showsPerseverance_343
  | B_recordTreeState_373
  | B_getCurrentTreeState_382
  | B_generateMermaidDiagram_408.

Definition class_body : list (string * body) :=
  [ ("initialize", B_initialize_49);
    ("setUpdateCallback", B_setUpdateCallback_92);
    ("select", B_select_100);
    ("expand", B_expand_140);
    ("simulate", B_simulate_189);
    ("backpropagate", B_backpropagate_229);
    ("search", B_search_251);
    ("getBestNode", B_getBestNode_284);
    ("simulate", B_simulate_305);
    ("_showsPerseverance", B_showsPerseverance_343);
    ("_recordTreeState", B_recordTreeState_373);
    ("_getCurrentTreeState", B_getCurrentTreeState_382);
    ("generateMermaidDiagram", B_generateMermaidDiagram_408) ].

(** Evaluating a class body defines the methods on the prototype one
    after the other: a later definition of a name replaces an earlier
    one. *)
Definition define (proto : list (string * body)) (d : string * body)
    : list (string * body) :=
  d :: List.filter (fun p => negb (String.eqb (fst p) (fst d))) proto.

Definition prototype : list (string * body) := fold_left define class_body [].

(** [this[name]]. *)
Definition method (name : string) : option body :=
  snd <$> List.find (fun p => String.eqb (fst p) name) prototype.

Section Engine.
Context (host : Host) {Client : Type} (llm : LLM Client).

Abbreviation engine := (t Client).

Definition set_llmClient (c : Client) (e : engine) : engine :=
  mk c (problem e) (context e) (explorationWeight e) (instinctRatio e)
     (confidenceBias e) (perseveranceFactor e) (root e) (selectedNode e)
     (treeHistory e) (onUpdate e) (updates e) (heap e) (draws e).

Definition set_root (r : option addr) (e : engine) : engine :=
  mk (llmClient e) (problem e) (context e) (explorationWeight e) (instinctRatio e)
     (confidenceBias e) (perseveranceFactor e) r (selectedNode e)
     (treeHistory e) (onUpdate e) (updates e) (heap e) (draws e).

Definition set_selectedNode (a : option addr) (e : engine) : engine :=
  mk (llmClient e) (problem e) (context e) (explorationWeight e) (instinctRatio e)
     (confidenceBias e) (perseveranceFactor e) (root e) a
     (treeHistory e) (onUpdate e) (updates e) (heap e) (draws e).

Definition set_treeHistory (l : list Snapshot) (e : engine) : engine :=
  mk (llmClient e) (problem e) (context e) (explorationWeight e) (instinctRatio e)
     (confidenceBias e) (perseveranceFactor e) (root e) (selectedNode e)
     l (onUpdate e) (updates e) (heap e) (draws e).

Definition set_onUpdate (b : bool) (e : engine) : engine :=
  mk (llmClient e) (problem e) (context e) (explorationWeight e) (instinctRatio e)
     (confidenceBias e) (perseveranceFactor e) (root e) (selectedNode e)
     (treeHistory e) b (updates e) (heap e) (draws e).

Definition set_updates (l : list Snapshot) (e : engine) : engine :=
  mk (llmClient e) (problem e) (context e) (explorationWeight e) (instinctRatio e)
     (confidenceBias e) (perseveranceFactor e) (root e) (selectedNode e)
     (treeHistory e) (onUpdate e) l (heap e) (draws e).

Definition set_heap (h : Node.Heap) (e : engine) : engine :=
  mk (llmClient e) (problem e) (context e) (explorationWeight e) (instinctRatio e)
     (confidenceBias e) (perseveranceFactor e) (root e) (selectedNode e)
     (treeHistory e) (onUpdate e) (updates e) h (draws e).

Definition set_draws (k : nat) (e : engine) : engine :=
  mk (llmClient e) (problem e) (context e) (explorationWeight e) (instinctRatio e)
     (confidenceBias e) (perseveranceFactor e) (root e) (selectedNode e)
     (treeHistory e) (onUpdate e) (updates e) (heap e) k.

(** [new InstinctMCTS({llmClient, problem, context, ...})]. *)
Definition new (c : Client) (problem context : string)
    (explorationWeight instinctRatio confidenceBias perseveranceFactor : number)
    : engine :=
  mk c problem context explorationWeight instinctRatio confidenceBias
     perseveranceFactor None None [] false [] [] 0.

(** *** Methods as state transformers

    A method takes the engine to [None] when its fuel runs out, and
    else to the engine it leaves with what it returned or threw. *)
Definition M (A : Type) : Type := engine -> option (engine * result A).

Definition ret {A} (a : A) : M A := fun e => Some (e, Ok a).
Definition throw {A} (msg : string) : M A := fun e => Some (e, Error msg).
Definition out_of_fuel {A} : M A := fun _ => None.

Definition bind {A B} (m : M A) (k : A -> M B) : M B :=
  fun e =>
    match m e with
    | None => None
    | Some (e', Ok a) => k a e'
    | Some (e', Error msg) => Some (e', Error msg)
    end.

(** [try { m } catch (error) { handler(error) }]. *)
Definition catch {A} (m : M A) (handler : string -> M A) : M A :=
  fun e =>
    match m e with
    | Some (e', Error msg) => handler msg e'
    | r => r
    end.

Definition get : M engine := fun e => Some (e, Ok e).
Definition modify (f : engine -> engine) : M unit := fun e => Some (f e, Ok tt).

Notation "'let*' x := m 'in' k" := (bind m (fun x => k))
  (at level 10, x name, m at level 100, k at level 200).
Notation "m ;; k" := (bind m (fun _ => k))
  (at level 100, k at level 200, right associativity).

(** Reading a property of the node at [a]. *)
Definition deref (a : addr) : M Node.t :=
  fun e =>
    match heap e !! a with
    | Some n => Some (e, Ok n)
    | None => Some (e, TypeError)
    end.

Definition update_node (a : addr) (f : Node.t -> Node.t) : M unit :=
  modify (fun e => set_heap (alter f a (heap e)) e).

Definition call_generateCompletion (prompt : string) (o : Options) : M string :=
  fun e =>
    let '(c, r) := generateCompletion llm (llmClient e) prompt o in
    Some (set_llmClient c e, r).

Definition call_analyzeContent (text : string) : M Analysis :=
  fun e =>
    let '(c, r) := analyzeContent llm (llmClient e) text in
    Some (set_llmClient c e, r).

(** [Promise.all] over calls issued one after the other: every call is
    made; the promise rejects with the error of the first call, in the
    order of issue, that failed. *)
Fixpoint Promise_all {A} (ms : list (M A)) : M (list A) :=
  match ms with
  | [] => ret []
  | m :: ms' =>
      fun e =>
        match m e with
        | None => None
        | Some (e1, r) =>
            match Promise_all ms' e1 with
            | None => None
            | Some (e2, rs) =>
                Some (e2, match r, rs with
                          | Ok a, Ok l => Ok (a :: l)
                          | Error msg, _ => Error msg
                          | Ok _, Error msg => Error msg
                          end)
            end
        end
  end.

(** [_getCurrentTreeState]; a tree of [n] nodes is at most [n] deep. *)
Definition _getCurrentTreeState : M Snapshot :=
  fun e =>
    match root e with
    | None => Some (e, TypeError)
    | Some r =>
        match Tree.nodeToObject (length (heap e)) (heap e) r with
        | Some o =>
            Some (e, Ok {| tree := o;
                           selectedNodeId :=
                             selectedNode e ≫= (fun a => Node.id <$> heap e !! a) |})
        | None => Some (e, Error "RangeError")
        end
    end.

Definition _recordTreeState : M unit :=
  let* s := _getCurrentTreeState in
  modify (fun e => set_treeHistory (treeHistory e ++ [s]) e).

(** [if (this.onUpdate) this.onUpdate(this._getCurrentTreeState())]. *)
Definition notify : M unit :=
  let* e := get in
  if onUpdate e then
    let* s := _getCurrentTreeState in
    modify (fun e => set_updates (updates e ++ [s]) e)
  else ret tt.

Definition setUpdateCallback : M unit := modify (set_onUpdate true).

Definition initialPrompt (problem context : string) : string :=
  Prompts.template [
    "";
    "You are facing this problem: " +:+ problem;
    "";
    "Additional context: " +:+ context;
    "";
    "Provide an initial approach or solution to this problem. Think about both analytical reasoning and instinctual feelings about the best path forward.";
    "" ].

Definition alloc (content : string) (parent : option addr) (ew cb pf : number) : M addr :=
  fun e =>
    let '(h, k, a) := Node.new host (heap e) (draws e) content parent ew cb pf in
    Some (set_draws k (set_heap h e), Ok a).

(** [initialize()]; its [catch] rethrows what it caught. *)
Definition initialize : M addr :=
  let* e := get in
  let* initialResponse :=
    call_generateCompletion (initialPrompt (problem e) (context e))
      {| temperature := Some (Fin (7#10)); maxTokens := None |} in
  let* r := alloc initialResponse None
              (explorationWeight e) (confidenceBias e) (perseveranceFactor e) in
  modify (set_root (Some r)) ;;
  let* analysis := call_analyzeContent initialResponse in
  update_node r (fun n =>
    Node.set_metrics
      (num_div (a_emotionalState analysis) (Fin 10))
      (num_div (a_instinctVsAnalysis analysis) (Fin 10))
      (Node.confidence n) (Node.perseverance n) n) ;;
  _recordTreeState ;;
  ret r.

(** [select()]. *)
Definition select (fuel : nat) : M addr :=
  fun e =>
    match root e with
    | None => Some (e, TypeError)
    | Some r =>
        match Tree.select_loop host fuel (heap e) (instinctRatio e) (draws e) r with
        | None => None
        | Some (node, k) => Some (set_selectedNode (Some node) (set_draws k e), Ok node)
        end
    end.

Definition addChild (node : addr) (content : string) : M addr :=
  fun e =>
    match Node.addChild host (heap e) (draws e) node content with
    | Some (h, k, child) => Some (set_draws k (set_heap h e), Ok child)
    | None => Some (e, TypeError)
    end.

(** The [for (const thought of thoughts)] loop of [expand]. *)
Fixpoint attach (node : addr) (thoughts : list string) (childNodes : list addr)
    : M (list addr) :=
  match thoughts with
  | [] => ret childNodes
  | thought :: rest =>
      let* child := addChild node thought in
      let* analysis := call_analyzeContent thought in
      update_node child
        (Node.set_metrics
           (num_div (a_emotionalState analysis) (Fin 10))
           (num_div (a_instinctVsAnalysis analysis) (Fin 10))
           (num_div (a_confidence analysis) (Fin 10))
           (num_div (a_perseverance analysis) (Fin 10))) ;;
      attach node rest (childNodes ++ [child])
  end.

(** [expand(node, numChildren)]; its [catch] rethrows what it caught.
    The result is [childNodes[0]], [None] standing for [undefined]. *)
Definition expand (node : addr) (numChildren : nat) : M (option addr) :=
  let* e := get in
  let* n := deref node in
  let thoughtPrompts :=
    repeat (Prompts.generateThoughtPrompt (problem e) (context e) (Node.content n))
           numChildren in
  let* thoughts :=
    Promise_all (map (fun prompt => call_generateCompletion prompt no_options)
                     thoughtPrompts) in
  let* childNodes := attach node thoughts [] in
  let* e' := get in
  let sorted := Tree.sort_by_instinct (heap e') childNodes in
  notify ;;
  ret (head sorted).

(** The body of [simulate(node)] at line 189, inside its [try]. *)
Definition evaluate (content : string) (perseveranceFactor : number) : M number :=
  let* e := get in
  let evalPrompt := Prompts.generateEvaluationPrompt (problem e) (context e) content in
  let* evaluation :=
    call_generateCompletion evalPrompt
      {| temperature := Some (Fin (3#10)); maxTokens := Some (Fin 10) |} in
  let score := Tree.parse_score evaluation in
  ret (if Tree._showsPerseverance content
       then num_mul score (num_add (Fin 1) perseveranceFactor)
       else score).

(** [simulate(node)] as defined at line 189.  An argument that is not a
    node makes the body throw a [TypeError], before the request when
    [node.content] cannot be read, after it when [content] is
    [undefined]; the [catch] turns either into 5. *)
Definition simulate_189 (node : jsval) : M jsval :=
  catch
    (match node with
     | VNode a =>
         let* n := deref a in
         let* score := evaluate (Node.content n) (Node.perseveranceFactor n) in
         ret (VNum score)
     | VUndefined | VNull => throw "TypeError"
     | _ =>
         let* e := get in
         call_generateCompletion
           (Prompts.generateEvaluationPrompt (problem e) (context e) "undefined")
           {| temperature := Some (Fin (3#10)); maxTokens := Some (Fin 10) |} ;;
         throw "TypeError"
     end)
    (fun _ => ret (VNum (Fin 5))).

(** [backpropagate(node, score)]. *)
Definition backpropagate (fuel : nat) (node : option addr) (score : jsval) : M unit :=
  fun e =>
    match Tree.backpropagate_loop fuel (heap e) node score with
    | None => None
    | Some h => Some (set_heap h e, Ok tt)
    end.

(** [getBestNode()]; [None] in the result stands for [null]. *)
Definition getBestNode (fuel : nat) : M (option addr) :=
  fun e =>
    match root e with
    | None => Some (e, Ok None)
    | Some r =>
        match Tree.getBestNode_loop fuel (heap e) r with
        | None => None
        | Some a => Some (e, Ok (Some a))
        end
    end.

Definition node_or (v : jsval) (o : option addr) : jsval :=
  match o with Some a => VNode a | None => v end.

Section Methods.
(** [this.simulate], as the prototype resolves it. *)
Context (this_simulate : jsval -> jsval -> M jsval).

(** One turn of the [for] loop of [search]. *)
Definition search_step (fuel : nat) : M unit :=
  let* selected := select fuel in
  let* n := deref selected in
  let* leaf :=
    (if (length (Node.children n) <? 2)%nat then expand selected 2
     else ret (Some selected)) in
  let* score := this_simulate (node_or VUndefined leaf) VUndefined in
  backpropagate fuel leaf score ;;
  _recordTreeState ;;
  notify.

Fixpoint search_loop (fuel : nat) (i : nat) (numSimulations : jsval) : M unit :=
  match fuel with
  | O => out_of_fuel
  | S f =>
      if js_lt (VNum (of_nat i)) numSimulations then
        search_step f ;;
        search_loop f (S i) numSimulations
      else ret tt
  end.

(** [search(numSimulations = 10)]. *)
Definition search (fuel : nat) (numSimulations : jsval) : M (option addr) :=
  search_loop fuel 0 (default_arg (VNum (Fin 10)) numSimulations) ;;
  getBestNode fuel.

(** The [for] loop of the two-argument [simulate]. *)
Fixpoint simulate_loop (fuel : nat) (i : nat) (iterations simulationsPerIteration : jsval)
    (bestNode : option addr) (bestScore : jsval) : M (option addr * jsval) :=
  match fuel with
  | O => out_of_fuel
  | S f =>
      if js_lt (VNum (of_nat i)) iterations then
        search f simulationsPerIteration ;;
        let* currentBest := getBestNode f in
        let* score := this_simulate (node_or VNull currentBest) VUndefined in
        if js_gt score bestScore
        then simulate_loop f (S i) iterations simulationsPerIteration currentBest score
        else simulate_loop f (S i) iterations simulationsPerIteration bestNode bestScore
      else ret (bestNode, bestScore)
  end.

(** [simulate(iterations = 3, simulationsPerIteration = 5)] as defined
    at line 305. *)
Definition simulate_305 (fuel : nat) (iterations simulationsPerIteration : jsval)
    : M jsval :=
  let iterations := default_arg (VNum (Fin 3)) iterations in
  let simulationsPerIteration := default_arg (VNum (Fin 5)) simulationsPerIteration in
  let* e := get in
  (match root e with
   | None => initialize ;; ret tt
   | Some _ => ret tt
   end) ;;
  let* e := get in
  let* best :=
    simulate_loop fuel 0 iterations simulationsPerIteration (root e) (VNum NInf) in
  match fst best with
  | None => throw "TypeError"
  | Some b =>
      let* n := deref b in
      let* e := get in
      let* final := _getCurrentTreeState in
      ret (VResult {| bestApproach := Node.content n;
                      bestNode := b;
                      bestScore := snd best;
                      treeHistory_of := treeHistory e;
                      finalTree := final |})
  end.
End Methods.

(** [this.simulate(a1, a2)]: the call goes to the definition the
    prototype holds under the name [simulate]. *)
Fixpoint simulate (fuel : nat) (a1 a2 : jsval) : M jsval :=
  match fuel with
  | O => out_of_fuel
  | S f =>
      match method "simulate" with
      | Some B_simulate_189 => simulate_189 a1
      | Some B_simulate_305 => simulate_305 (simulate f) f a1 a2
      | _ => throw "TypeError"
      end
  end.

(** [this.search(numSimulations)]. *)
Definition run_search (fuel : nat) (numSimulations : jsval) : M (option addr) :=
  search (simulate fuel) fuel numSimulations.
End Engine.

End InstinctMCTS.

(** ** Notation for numbers *)

Declare Scope num_scope.
Delimit Scope num_scope with num.
Infix "+" := num_add : num_scope.
Infix "-" := num_sub : num_scope.
Infix "*" := num_mul : num_scope.
Infix "/" := num_div : num_scope.

(** ** The shape of the heaps the engine builds *)

Module Shape.

(** A node is allocated after its parent and before its children, and its
    children are in the heap. *)
Definition wf_node (len : nat) (a : addr) (n : Node.t) : Prop :=
  Forall (fun c => a < c < len) (Node.children n) /\
  (forall p, Node.parent n = Some p -> p < a).

Definition wf_heap (h : Node.Heap) : Prop :=
  forall a n, h !! a = Some n -> wf_node (length h) a n.



(** [c], at index [i] of [cs], has the greatest visit count of [cs] and
    is the first child to have it. *)
Definition first_most_visited (h : Node.Heap) (cs : list addr) (c : addr) : Prop :=
  exists i n,
    cs !! i = Some c /\ h !! c = Some n /\
    (forall j d m, cs !! j = Some d -> h !! d = Some m ->
       Node.visits m <= Node.visits n) /\
    (forall j d m, j < i -> cs !! j = Some d -> h !! d = Some m ->
       Node.visits m < Node.visits n).

(** A descent from [a] that takes the first most visited child at each
    node and ends at [leaf], which has no children. *)
Inductive follows_visits (h : Node.Heap) : addr -> addr -> Prop :=
  | fv_leaf a n :
      h !! a = Some n -> Node.children n = [] -> follows_visits h a a
  | fv_step a n c leaf :
      h !! a = Some n -> Node.children n <> [] ->
      first_most_visited h (Node.children n) c ->
      follows_visits h c leaf -> follows_visits h a leaf.


End Shape.

(** ** Trees and collaborators used in the examples *)

Module Examples.

(** A node with the coefficients of the engine's defaults and neutral
    metrics. *)
Definition node (id : string) (parent : option addr) (children : list addr)
    (visits : nat) (value : scalar) (depth : nat) (path : list string) : Node.t :=
  Node.mk id id parent children visits value
    (Fin (7#5)) (Fin (1#5)) (Fin (7#10))
    (Fin (1#2)) (Fin (1#2)) (Fin (1#2)) (Fin (1#2)) depth path.

(** A parent with the children A, B and C, visited 5, 2 and 9 times. *)
Definition siblings (vP vA vB vC : scalar) : Node.Heap :=
  [ node "P" None [1; 2; 3] 16 vP 0 [];
    node "A" (Some 0) [] 5 vA 1 ["P"];
    node "B" (Some 0) [] 2 vB 1 ["P"];
    node "C" (Some 0) [] 9 vC 1 ["P"] ].

(** An engine with the default coefficients whose root is the node at 0
    of [h]. *)
Definition engine_on {Client : Type} (c : Client) (instinctRatio : number)
    (h : Node.Heap) : InstinctMCTS.t Client :=
  InstinctMCTS.mk c "problem" "context" (Fin (7#5)) instinctRatio (Fin (1#5)) (Fin (7#10))
    (Some 0) None [] false [] h 0.

(** A collaborator that answers from a script: the next completion and
    the next analysis, and an error once its script is used up. *)
Record Script : Type := {
  completions : list (result string);
  analyses : list (result Analysis)
}.

Definition scripted : LLM Script :=
  Build_LLM Script
    (fun c _ _ =>
       match completions c with
       | r :: rs => ({| completions := rs; analyses := analyses c |}, r)
       | [] => (c, Error "script: no completion left")
       end)
    (fun c _ =>
       match analyses c with
       | r :: rs => ({| completions := completions c; analyses := rs |}, r)
       | [] => (c, Error "script: no analysis left")
       end).

Definition analysis (confidence perseverance instinctVsAnalysis emotionalState : Q)
    : Analysis :=
  {| a_confidence := Fin confidence; a_perseverance := Fin perseverance;
     a_instinctVsAnalysis := Fin instinctVsAnalysis;
     a_emotionalState := Fin emotionalState |}.

End Examples.

(** ** The better of two, and the best of a list *)

Section Choose.
Context {A S : Type} (score : A -> option S) (gt : S -> S -> bool) (ok : S -> Prop).

(** A [reduce] callback that keeps [child] when its score exceeds the
    score of [best]. *)
Definition choose (best child : A) : option A :=
  sb ← score best; sc ← score child; Some (if gt sc sb then child else best).

(** [r], at index [i] of [cs], is exceeded by no element of [cs] and
    exceeds every earlier element whose score is [ok]. *)
Definition champion (cs : list A) (r : A) : Prop :=
  exists i sr,
    cs !! i = Some r /\ score r = Some sr /\
    (forall j d sd, cs !! j = Some d -> score d = Some sd -> gt sd sr = false) /\
    (forall j d sd, j < i -> cs !! j = Some d -> score d = Some sd -> ok sd ->
       gt sr sd = true).
End Choose.

Definition visits_of (h : Node.Heap) (a : addr) : option nat := Node.visits <$> h !! a.
Definition nat_gt (x y : nat) : bool := (y <? x)%nat.

(** Well-formed heaps, by computation. *)
Definition wf_nodeb (len : nat) (a : addr) (n : Node.t) : bool :=
  forallb (fun c => (a <? c)%nat && (c <? len)%nat) (Node.children n) &&
  match Node.parent n with Some p => (p <? a)%nat | None => true end.

Definition wf_heapb (h : Node.Heap) : bool :=
  forallb (fun an => wf_nodeb (length h) (fst an) (snd an)) (zip (seq 0 (length h)) h).

(** ** A host for the examples

    Square roots and logarithms correct to about twelve decimals stand
    in for [Math.sqrt] and [Math.log]. *)

Module ExampleHost.

Definition round_to (digits : Z) (q : Q) : Q :=
  Qred (Qfloor (q * inject_Z (10 ^ digits)) # Z.to_pos (10 ^ digits)).

Definition sqrt12 (x : number) : number :=
  match x with
  | Fin q =>
      if Qltb q 0 then NaN
      else fin (Z.sqrt (Qfloor (q * inject_Z (10 ^ 24))) # Z.to_pos (10 ^ 12))
  | PInf => PInf
  | NaN | NInf => NaN
  end.

(** The sum of [y^k/k + y^(k+2)/(k+2) + ...], [n] terms of it. *)
Fixpoint atanh_sum (n : nat) (y y2 : Q) (k : Z) : Q :=
  match n with
  | O => 0
  | S n' => round_to 20 (y / inject_Z k) + atanh_sum n' (round_to 20 (y * y2)) y2 (k + 2)
  end.

(** [ln m] for [1 <= m < 2]. *)
Definition ln_unit (m : Q) : Q :=
  let y := round_to 20 ((m - 1) / (m + 1)) in
  2 * atanh_sum 20 y (y * y) 1.

(** [m * 2^k] is kept while [m] is brought into [[1,2)]. *)
Fixpoint reduce_range (fuel : nat) (m : Q) (k : Z) : Q * Z :=
  match fuel with
  | O => (m, k)
  | S f =>
      if Qle_bool 2 m then reduce_range f (Qred (m / 2)) (k + 1)%Z
      else if Qltb m 1 then reduce_range f (Qred (m * 2)) (k - 1)%Z
      else (m, k)
  end.

Definition ln12 (x : number) : number :=
  match x with
  | Fin q =>
      if Qltb q 0 then NaN
      else if Qzerob q then NInf
      else let '(m, k) := reduce_range 1100 (Qred q) 0 in
           Fin (round_to 12 (inject_Z k * ln_unit 2 + ln_unit m))
  | PInf => PInf
  | NaN | NInf => NaN
  end.

(** The host whose calls of [Math.random()] return the values of
    [draws]. *)
Definition host (draws : nat -> Q) : Host :=
  {| Math_sqrt := sqrt12; Math_log := ln12; Math_random := draws |}.

End ExampleHost.

(** ** Engines used in the examples *)

Module Runs.

(** Draws that cycle through 26 values of [[0,1)]. *)
Definition draws (k : nat) : Q := Z.of_nat ((7 * k + 3) mod 26) # 26.

Definition host : Host := ExampleHost.host draws.

Definition in_range : result Analysis := Ok (Examples.analysis 7 8 6 5).

(** A collaborator that holds two answers of 8 ready for evaluation
    requests. *)
Definition scoring : Examples.Script :=
  {| Examples.completions :=
       [Ok "root approach"; Ok "keep going"; Ok "stop now"; Ok "8"; Ok "8"];
     Examples.analyses := [in_range; in_range; in_range] |}.

Definition fresh (c : Examples.Script) (perseveranceFactor : number)
    : InstinctMCTS.t Examples.Script :=
  InstinctMCTS.new c "problem" "context" (Fin (7#5)) (Fin (3#5)) (Fin (1#5))
    perseveranceFactor.

(** A collaborator whose first text is the root's content and whose
    second text answers an evaluation request with 4. *)
Definition persisting : Examples.Script :=
  {| Examples.completions :=
       [Ok "I will persist and try again despite doubts"; Ok "4"];
     Examples.analyses := [in_range] |}.

(** A collaborator whose analysis of the first child rates the
    emotional state 15 on the scale of 1 to 10. *)
Definition overrating : Examples.Script :=
  {| Examples.completions := [Ok "root approach"; Ok "keep going"; Ok "stop now"];
     Examples.analyses := [in_range; Ok (Examples.analysis 7 8 6 15); in_range] |}.

(** A collaborator whose analysis of the second child fails. *)
Definition failing_analysis : Examples.Script :=
  {| Examples.completions := [Ok "root approach"; Ok "keep going"; Ok "stop now"];
     Examples.analyses := [in_range; in_range; Error "503 Service Unavailable"] |}.

(** A collaborator whose second thought fails. *)
Definition failing_generation : Examples.Script :=
  {| Examples.completions :=
       [Ok "root approach"; Ok "keep going"; Error "503 Service Unavailable"];
     Examples.analyses := [in_range; in_range; in_range] |}.

(** The engine [fresh c pf] after [initialize()]; the engine itself when
    [initialize] fails. *)
Definition initialized (c : Examples.Script) (perseveranceFactor : number)
    : InstinctMCTS.t Examples.Script :=
  match InstinctMCTS.initialize host Examples.scripted (fresh c perseveranceFactor) with
  | Some (e, _) => e
  | None => fresh c perseveranceFactor
  end.

End Runs.

(** ** The calls [expand] makes on the collaborator *)

Module Calls.
Section Calls.
Context {Client : Type} (llm : LLM Client).

(** The answers to [k] requests for a completion of [prompt] issued one
    after the other from the state [c], and the state they leave. *)
Fixpoint generations (c : Client) (prompt : string) (k : nat)
    : Client * list (result string) :=
  match k with
  | O => (c, [])
  | S k' =>
      let '(c1, r) := generateCompletion llm c prompt no_options in
      let '(c2, rs) := generations c1 prompt k' in
      (c2, r :: rs)
  end.

(** The answers to the analysis of each of [thoughts] in turn, from the
    state [c]. *)
Fixpoint analyses (c : Client) (thoughts : list string) : list (result Analysis) :=
  match thoughts with
  | [] => []
  | t :: ts => let '(c1, r) := analyzeContent llm c t in r :: analyses c1 ts
  end.
End Calls.

(** The index and the error of the first answer that is a failure. *)
Fixpoint first_failure {A : Type} (rs : list (result A)) : option (nat * string) :=
  match rs with
  | [] => None
  | Ok _ :: rs' => (fun jm : nat * string => (S (fst jm), snd jm)) <$> first_failure rs'
  | Error msg :: _ => Some (0, msg)
  end.

(** The values of the answers when none is a failure. *)
Fixpoint successes {A : Type} (rs : list (result A)) : option (list A) :=
  match rs with
  | [] => Some []
  | Ok a :: rs' => (fun l => a :: l) <$> successes rs'
  | Error _ :: _ => None
  end.

(** What [Promise.all] over the answers resolves or rejects to. *)
Definition settled {A : Type} (rs : list (result A)) : result (list A) :=
  match first_failure rs with
  | Some (_, err) => Error err
  | None => Ok (default [] (successes rs))
  end.

End Calls.

(** ** Selection scores along a descent *)




(** ** src/core/Node.js: what [updateParameters] leaves in a field *)

Module NodeLaws.

(** A metric after [updateParameters]: as it was when its key is absent,
    and else the clamped value, which lies in [[0,1]] unless the value
    given is [NaN], which is kept. *)
Definition clamped_update (given : option number) (old new : number) : Prop :=
  match given with
  | None => new = old
  | Some x =>
      new = Node.clamp01 x /\
      (is_nan x = false -> in_unit new = true) /\
      (is_nan x = true -> new = NaN)
  end.

(** A coefficient after [updateParameters]: the value given, as it is. *)
Definition plain_update (given : option number) (old new : number) : Prop :=
  new = default old given.

Definition is_lower_letter (c : ascii) : Prop :=
  97 <= nat_of_ascii c <= 122.

End NodeLaws.

(** ** src/api/openrouter.js: the other methods of the client *)

Module OpenRouterRest.



Section Client.
Context {Net : Type}.
Context (fetch_completion : Net -> string -> Options -> Net * result string).



Definition ratingPrompt (text criteria : string) : string :=
  Prompts.template [
    "";
    "Rate the following text on a scale from 1 to 10 based on this criteria: " +:+
      String (ascii_of_nat 34) criteria +:+ String (ascii_of_nat 34) "";
    "";
    "Text to evaluate:";
    Prompts.quotes3;
    text;
    Prompts.quotes3;
    "";
    "Provide only a single number from 1 to 10 as your response, where 1 is lowest and 10 is highest.";
    "" ].

(** The rating read off the answer in [evaluateText]: the first number of
    the text when it lies between 1 and 10, and else 5. *)
Definition rating_of (answer : string) : number :=
  match match_digits answer with
  | Some d =>
      let rating := parseInt d in
      if num_le (Fin 1) rating && num_le rating (Fin 10) then rating else Fin 5
  | None => Fin 5
  end.

(** [evaluateText(text, criteria, options)]; its [catch] answers 5. *)
Definition evaluateText (c : Net) (text criteria : string) (o : Options) : Net * number :=
  let '(c1, r) :=
    OpenRouterClient.generateCompletion fetch_completion c (ratingPrompt text criteria)
      {| temperature := Some (Fin (3#10)); maxTokens := Some (Fin 10) |} in
  match r with
  | Ok answer => (c1, rating_of answer)
  | Error _ => (c1, Fin 5)
  end.
End Client.

End OpenRouterRest.

(** ** Reaching a node through [children] *)

(** [x] is [a] or a descendant of [a]. *)
Inductive below (h : Node.Heap) (a : addr) : addr -> Prop :=
  | below_self : below h a a
  | below_child n c x :
      h !! a = Some n -> c ∈ Node.children n -> below h c x -> below h a x.

(** ** src/core/Node.js: [findNodeById] and [getAllNodes] *)

Module NodeTraversal.

(** The [for] loop of [findNodeById]: the first child in which the search
    finds a node. *)
Fixpoint first_found (search : addr -> option (option addr)) (children : list addr)
    : option (option addr) :=
  match children with
  | [] => Some None
  | child :: rest =>
      found ← search child;
      match found with
      | Some x => Some (Some x)
      | None => first_found search rest
      end
  end.

(** [this.findNodeById(id)]; the inner [None] stands for [null]. *)
Fixpoint findNodeById (fuel : nat) (h : Node.Heap) (this : addr) (id : string)
    : option (option addr) :=
  match fuel with
  | O => None
  | S f =>
      n ← h !! this;
      if String.eqb (Node.id n) id then Some (Some this)
      else first_found (fun child => findNodeById f h child id) (Node.children n)
  end.

(** [this.getAllNodes()]. *)
Fixpoint getAllNodes (fuel : nat) (h : Node.Heap) (this : addr) : option (list addr) :=
  match fuel with
  | O => None
  | S f =>
      n ← h !! this;
      ls ← mapM (getAllNodes f h) (Node.children n);
      Some (this :: concat ls)
  end.

(** The node at [x] has the identifier [id]. *)
Definition has_id (h : Node.Heap) (id : string) (x : addr) : bool :=
  match h !! x with
  | Some n => String.eqb (Node.id n) id
  | None => false
  end.

End NodeTraversal.

(** ** src/utils/treeUtils.js, on the snapshots of [_getCurrentTreeState] *)

Module TreeUtils.

Definition tree_id (t : TreeObject) : string :=
  match t with TreeNode id _ _ _ _ _ _ _ _ => id end.
Definition tree_children (t : TreeObject) : list TreeObject :=
  match t with TreeNode _ _ _ _ _ _ _ _ children => children end.

Section Loops.
Context {A B S : Type}.

(** A [for] loop that returns the first result that is not [null]. *)
Fixpoint first_some (f : A -> option B) (l : list A) : option B :=
  match l with
  | [] => None
  | a :: rest =>
      match f a with
      | Some found => Some found
      | None => first_some f rest
      end
  end.

(** A [for] loop that returns [true] at the first call that does, the
    state [s] being passed from call to call. *)
Fixpoint first_true (f : A -> S -> bool * S) (l : list A) (s : S) : bool * S :=
  match l with
  | [] => (false, s)
  | a :: rest =>
      let '(found, s') := f a s in
      if found then (true, s') else first_true f rest s'
  end.
End Loops.

(** [findNodeById(root, id)] for a root that is an object. *)
Fixpoint findNode (root : TreeObject) (id : string) : option TreeObject :=
  match root with
  | TreeNode rid _ _ _ _ _ _ _ children =>
      if String.eqb rid id then Some root
      else first_some (fun child => findNode child id) children
  end.

(** [findNodeById(root, id)]; [None] stands for [null]. *)
Definition findNodeById (root : option TreeObject) (id : string) : option TreeObject :=
  root ≫= (fun r => findNode r id).

(** [findPath(node, targetId, currentPath)]: whether the target was
    found, and [currentPath] as the call leaves it. *)
Fixpoint findPath (node : TreeObject) (targetId : string) (currentPath : list TreeObject)
    : bool * list TreeObject :=
  match node with
  | TreeNode nid _ _ _ _ _ _ _ children =>
      let pushed := currentPath ++ [node] in
      if String.eqb nid targetId then (true, pushed)
      else
        let '(found, path) :=
          first_true (fun child path => findPath child targetId path) children pushed in
        if found then (true, path) else (false, removelast path)
  end.

(** [getPathToNode(root, id)]. *)
Definition getPathToNode (root : option TreeObject) (id : string) : list TreeObject :=
  match root with
  | None => []
  | Some r => snd (findPath r id [])
  end.

(** The counters of [extractTreeStatistics]. *)
Record Counters : Type := {
  c_nodeCount : nat;
  c_maxDepth : nat;
  c_nonLeafNodes : nat;
  c_totalChildren : nat
}.

(** [traverse(node, depth)], the counters being passed along. *)
Fixpoint traverse (node : TreeObject) (depth : nat) (s : Counters) : Counters :=
  match node with
  | TreeNode _ _ _ _ _ _ _ _ children =>
      let s1 := {| c_nodeCount := c_nodeCount s + 1;
                   c_maxDepth := Nat.max (c_maxDepth s) depth;
                   c_nonLeafNodes := c_nonLeafNodes s;
                   c_totalChildren := c_totalChildren s |} in
      match children with
      | [] => s1
      | _ =>
          fold_left (fun s child => traverse child (depth + 1) s) children
            {| c_nodeCount := c_nodeCount s1;
               c_maxDepth := c_maxDepth s1;
               c_nonLeafNodes := c_nonLeafNodes s1 + 1;
               c_totalChildren := c_totalChildren s1 + length children |}
      end
  end.

(** [parseFloat(x.toFixed(2))] for [x >= 0]: the nearest multiple of
    1/100, the greater one on a tie.  As everywhere in this model the
    quotient is the exact rational; in floating point a quotient that
    falls on a tie may be rounded the other way. *)
Definition toFixed2 (x : Q) : number :=
  fin (Qfloor (x * 100 + (1 # 2)) # 100).

(** The object [extractTreeStatistics] returns; the two last keys are
    absent from the object returned for a root that is [null]. *)
Record Statistics : Type := {
  nodeCount : nat;
  maxDepth : nat;
  avgBranchingFactor : number;
  leafNodes : option nat;
  nonLeafNodes : option nat
}.

(** [extractTreeStatistics(root)]. *)
Definition extractTreeStatistics (root : option TreeObject) : Statistics :=
  match root with
  | None =>
      {| nodeCount := 0; maxDepth := 0; avgBranchingFactor := Fin 0;
         leafNodes := None; nonLeafNodes := None |}
  | Some r =>
      let s := traverse r 0 {| c_nodeCount := 0; c_maxDepth := 0;
                               c_nonLeafNodes := 0; c_totalChildren := 0 |} in
      {| nodeCount := c_nodeCount s;
         maxDepth := c_maxDepth s;
         avgBranchingFactor :=
           if (0 <? c_nonLeafNodes s)%nat
           then toFixed2 (inject_Z (Z.of_nat (c_totalChildren s))
                          / inject_Z (Z.of_nat (c_nonLeafNodes s)))
           else Fin 0;
         leafNodes := Some (c_nodeCount s - c_nonLeafNodes s);
         nonLeafNodes := Some (c_nonLeafNodes s) |}
  end.

(** The measures of a snapshot the statistics are compared with: the
    number of nodes, the number of levels below the root, and the number
    of nodes that have children. *)
Fixpoint size (t : TreeObject) : nat :=
  match t with
  | TreeNode _ _ _ _ _ _ _ _ children => 1 + list_sum (map size children)
  end.

Fixpoint height (t : TreeObject) : nat :=
  match t with
  | TreeNode _ _ _ _ _ _ _ _ children => list_max (map (fun c => 1 + height c) children)
  end.

Fixpoint internal (t : TreeObject) : nat :=
  match t with
  | TreeNode _ _ _ _ _ _ _ _ children =>
      match children with
      | [] => 0
      | _ => 1 + list_sum (map internal children)
      end
  end.

(** The nodes from [a] down to [x], each a child of the one before. *)
Inductive tree_path : TreeObject -> list TreeObject -> TreeObject -> Prop :=
  | path_here a : tree_path a [a] a
  | path_down a c p x :
      c ∈ tree_children a -> tree_path c p x -> tree_path a (a :: p) x.

End TreeUtils.

(** ** What the methods of the engine keep of its tree *)

Module Growth.

(** [n'] is the node [n] at a later time: what identifies the node and
    where it hangs are the same, children were added at the end, and the
    visits have not decreased. *)
Definition node_grows (n n' : Node.t) : Prop :=
  Node.id n' = Node.id n /\ Node.content n' = Node.content n /\
  Node.parent n' = Node.parent n /\
  Node.depth n' = Node.depth n /\ Node.path n' = Node.path n /\
  Node.explorationWeight n' = Node.explorationWeight n /\
  Node.confidenceBias n' = Node.confidenceBias n /\
  Node.perseveranceFactor n' = Node.perseveranceFactor n /\
  Node.children n `prefix_of` Node.children n' /\
  Node.visits n <= Node.visits n'.

(** Every node of [h] is in [h'], at the same place. *)
Definition heap_grows (h h' : Node.Heap) : Prop :=
  forall (a : addr) n, h !! a = Some n -> exists n', h' !! a = Some n' /\ node_grows n n'.

(** [h'] has the nodes of [h] and no other, with the same children. *)
Definition same_tree (h h' : Node.Heap) : Prop :=
  length h' = length h /\
  forall (a : addr) n, h !! a = Some n ->
    exists n', h' !! a = Some n' /\ node_grows n n' /\ Node.children n' = Node.children n.

(** The links of the tree agree: the children of a node name it as their
    parent, a node is among the children of its parent, one level below
    it, and its [path] is the parent's followed by the parent's
    identifier; a node without a parent is at depth 0 with an empty
    path. *)
Definition linked (h : Node.Heap) : Prop :=
  forall (a : addr) n, h !! a = Some n ->
    (forall c, c ∈ Node.children n ->
       exists m, h !! c = Some m /\ Node.parent m = Some a) /\
    match Node.parent n with
    | Some p =>
        exists pn, h !! p = Some pn /\ a ∈ Node.children pn /\
          Node.depth n = Node.depth pn + 1 /\
          Node.path n = Node.path pn ++ [Node.id pn]
    | None => Node.depth n = 0 /\ Node.path n = []
    end.

Section Engine.
Context {Client : Type}.

(** The tree of the engine is in order. *)
Definition consistent (e : InstinctMCTS.t Client) : Prop :=
  Shape.wf_heap (InstinctMCTS.heap e) /\ linked (InstinctMCTS.heap e) /\
  forall r, InstinctMCTS.root e = Some r -> r < length (InstinctMCTS.heap e).

(** [e'] is the engine [e] at a later time. *)
Definition evolves (e e' : InstinctMCTS.t Client) : Prop :=
  heap_grows (InstinctMCTS.heap e) (InstinctMCTS.heap e') /\
  InstinctMCTS.treeHistory e `prefix_of` InstinctMCTS.treeHistory e' /\
  InstinctMCTS.updates e `prefix_of` InstinctMCTS.updates e' /\
  InstinctMCTS.draws e <= InstinctMCTS.draws e' /\
  InstinctMCTS.problem e' = InstinctMCTS.problem e /\
  InstinctMCTS.context e' = InstinctMCTS.context e /\
  InstinctMCTS.explorationWeight e' = InstinctMCTS.explorationWeight e /\
  InstinctMCTS.instinctRatio e' = InstinctMCTS.instinctRatio e /\
  InstinctMCTS.confidenceBias e' = InstinctMCTS.confidenceBias e /\
  InstinctMCTS.perseveranceFactor e' = InstinctMCTS.perseveranceFactor e /\
  InstinctMCTS.onUpdate e' = InstinctMCTS.onUpdate e /\
  (forall r, InstinctMCTS.root e = Some r -> InstinctMCTS.root e' = Some r) /\
  (consistent e -> consistent e').

(** Whatever [m] returns or throws, it leaves a later engine. *)
Definition keeps {A : Type} (m : InstinctMCTS.M A) : Prop :=
  forall e e' r, m e = Some (e', r) -> evolves e e'.

(** Whatever [m] returns or throws, it leaves the history and the root
    as they were. *)
Definition quiet {A : Type} (m : InstinctMCTS.M A) : Prop :=
  forall (e e' : InstinctMCTS.t Client) r, m e = Some (e', r) ->
    InstinctMCTS.treeHistory e' = InstinctMCTS.treeHistory e /\
    InstinctMCTS.root e' = InstinctMCTS.root e.
End Engine.

End Growth.

(** * Properties *)

(** ** The order of numbers *)

Lemma Qltb_lt a b : Qltb a b = true <-> (a < b)%Q.
Proof.
  unfold Qltb. rewrite negb_true_iff.
  destruct (Qle_bool b a) eqn:E.
  - apply Qle_bool_iff in E. split; [discriminate | intros; lra].
  - split; [intros _ | reflexivity].
    destruct (Qlt_le_dec a b) as [|L]; [assumption |].
    apply Qle_bool_iff in L. congruence.
Qed.

Lemma Qltb_ge a b : Qltb a b = false <-> (b <= a)%Q.
Proof.
  unfold Qltb. rewrite negb_false_iff. apply Qle_bool_iff.
Qed.

Ltac num_order :=
  repeat match goal with
  | H : Qltb _ _ = true |- _ => apply Qltb_lt in H
  | H : Qltb _ _ = false |- _ => apply Qltb_ge in H
  | H : Qle_bool _ _ = true |- _ => apply Qle_bool_iff in H
  | |- Qltb _ _ = true => apply Qltb_lt
  | |- Qltb _ _ = false => apply Qltb_ge
  | |- Qle_bool _ _ = true => apply Qle_bool_iff
  end; try lra.

Lemma num_lt_irrefl x : num_lt x x = false.
Proof. destruct x; simpl; try reflexivity. num_order. Qed.

(** What does not exceed [b] does not exceed what exceeds [b]. *)
Lemma num_gt_transfer j b c :
  num_gt j b = false -> num_gt c b = true -> num_gt j c = false.
Proof.
  unfold num_gt. destruct j, b, c; simpl; intros; try congruence; num_order.
Qed.

Lemma num_gt_strict j b c :
  is_nan j = false -> num_gt j b = false -> num_gt c b = true -> num_gt c j = true.
Proof.
  unfold num_gt. destruct j, b, c; simpl; intros; try congruence; num_order.
Qed.

(** ** [reduce] with a callback that keeps the better of two *)

Section Champion.
Context {A S : Type} (score : A -> option S) (gt : S -> S -> bool) (ok : S -> Prop).
Hypothesis gt_irrefl : forall x, gt x x = false.
Hypothesis gt_transfer : forall j b c, gt j b = false -> gt c b = true -> gt j c = false.
Hypothesis gt_strict :
  forall j b c, ok j -> gt j b = false -> gt c b = true -> gt c j = true.

Local Abbreviation choose := (choose score gt).
Local Abbreviation champion := (champion score gt ok).

Lemma reduce_cons (f : A -> A -> option A) x l acc :
  Tree.reduce f (x :: l) acc = f acc x ≫= (fun acc' => Tree.reduce f l acc').
Proof. reflexivity. Qed.

Lemma choose_scored best child sb sc :
  score best = Some sb -> score child = Some sc ->
  choose best child = Some (if gt sc sb then child else best).
Proof. intros Hb Hc. unfold choose. rewrite Hb, Hc. reflexivity. Qed.

Lemma reduce_choose_inv l : forall pre acc i sa r,
  (pre ++ l) !! i = Some acc -> score acc = Some sa ->
  (forall j d sd, j < length pre -> (pre ++ l) !! j = Some d ->
     score d = Some sd -> gt sd sa = false) ->
  (forall j d sd, j < i -> (pre ++ l) !! j = Some d ->
     score d = Some sd -> ok sd -> gt sa sd = true) ->
  Tree.reduce choose l acc = Some r ->
  champion (pre ++ l) r.
Proof.
  induction l as [|x l IH]; intros pre acc i sa r Hi Hsa Hdone Hfirst Hred.
  - simpl in Hred. injection Hred as <-. exists i, sa.
    repeat split; [assumption | assumption | | assumption].
    intros j d sd Hj Hd. apply (Hdone j d sd); [| assumption | assumption].
    apply lookup_lt_Some in Hj. rewrite app_nil_r in Hj. assumption.
  - rewrite reduce_cons in Hred.
    destruct (score x) as [sx|] eqn:Hsx;
      [| unfold choose in Hred; rewrite Hsa, Hsx in Hred; discriminate].
    rewrite (choose_scored _ _ _ _ Hsa Hsx) in Hred. simpl in Hred.
    assert (Hx : (pre ++ x :: l) !! length pre = Some x).
    { rewrite lookup_app_r by lia. by rewrite Nat.sub_diag. }
    replace (pre ++ x :: l) with ((pre ++ [x]) ++ l) in *
      by (rewrite <- app_assoc; reflexivity).
    destruct (gt sx sa) eqn:Hgt.
    + apply (IH (pre ++ [x]) x (length pre) sx r); try assumption.
      * intros j d sd Hj Hd Hsd. rewrite length_app in Hj. simpl in Hj.
        destruct (decide (j = length pre)) as [->|Hne].
        -- rewrite Hx in Hd. injection Hd as <-.
           rewrite Hsx in Hsd. injection Hsd as <-. apply gt_irrefl.
        -- apply gt_transfer with sa; [| assumption].
           apply (Hdone j d sd); [lia | assumption | assumption].
      * intros j d sd Hj Hd Hsd Hok.
        apply gt_strict with sa; [assumption | | assumption].
        apply (Hdone j d sd); assumption.
    + apply (IH (pre ++ [x]) acc i sa r); try assumption.
      intros j d sd Hj Hd Hsd. rewrite length_app in Hj. simpl in Hj.
      destruct (decide (j = length pre)) as [->|Hne].
      * rewrite Hx in Hd. injection Hd as <-.
        rewrite Hsx in Hsd. injection Hsd as <-. assumption.
      * apply (Hdone j d sd); [lia | assumption | assumption].
Qed.

(** [cs.reduce(choose, cs[0])] returns a champion of [cs]. *)
Lemma reduce_choose_champion c0 cs r :
  Tree.reduce choose (c0 :: cs) c0 = Some r -> champion (c0 :: cs) r.
Proof.
  intros Hred.
  destruct (score c0) as [s0|] eqn:Hs0.
  - apply (reduce_choose_inv (c0 :: cs) [] c0 0 s0 r); try assumption.
    + reflexivity.
    + simpl. intros; lia.
    + intros; lia.
  - rewrite reduce_cons in Hred. unfold choose in Hred.
    rewrite Hs0 in Hred. discriminate.
Qed.

Lemma reduce_choose_total l : forall acc,
  is_Some (score acc) -> Forall (fun x => is_Some (score x)) l ->
  exists r, Tree.reduce choose l acc = Some r /\ is_Some (score r).
Proof.
  induction l as [|x l IH]; intros acc Hacc Hl.
  - exists acc. split; [reflexivity | assumption].
  - inversion Hl as [|? ? Hx Hl']; subst.
    destruct Hacc as [sa Hsa]. destruct Hx as [sx Hsx].
    rewrite reduce_cons, (choose_scored _ _ _ _ Hsa Hsx). simpl.
    destruct (gt sx sa); apply IH; eauto.
Qed.
End Champion.

Lemma reduce_ext {A : Type} (f g : A -> A -> option A) l :
  (forall a b, f a b = g a b) -> forall acc, Tree.reduce f l acc = Tree.reduce g l acc.
Proof.
  intros Hfg. induction l as [|x l IH]; intros acc; [reflexivity |].
  simpl. rewrite Hfg. destruct (g acc x); simpl; [apply IH | reflexivity].
Qed.

(** ** [getBestNode] *)

Section BestNode.
Import Shape.

Lemma more_visited_choose h best child :
  Tree.more_visited h best child = choose (visits_of h) nat_gt best child.
Proof.
  unfold Tree.more_visited, choose, visits_of, nat_gt.
  destruct (h !! best); simpl; [| reflexivity].
  destruct (h !! child); reflexivity.
Qed.

Lemma most_visited_cons h c0 cs :
  Tree.most_visited h (c0 :: cs) = Tree.reduce (Tree.more_visited h) (c0 :: cs) c0.
Proof. reflexivity. Qed.

Lemma most_visited_spec h cs b :
  Tree.most_visited h cs = Some b -> first_most_visited h cs b.
Proof.
  destruct cs as [|c0 cs]; [discriminate |].
  rewrite most_visited_cons, (reduce_ext _ _ _ (more_visited_choose h)). intros Hred.
  apply (reduce_choose_champion (visits_of h) nat_gt (fun _ => True)) in Hred.
  - destruct Hred as (i & s & Hi & Hs & Hall & Hfirst).
    unfold visits_of in Hs. destruct (h !! b) as [n|] eqn:Hb; [| discriminate].
    injection Hs as <-. exists i, n. repeat split; try assumption.
    + intros j d m Hj Hd.
      specialize (Hall j d (Node.visits m) Hj). unfold visits_of, nat_gt in Hall.
      rewrite Hd in Hall. specialize (Hall eq_refl).
      apply Nat.ltb_ge in Hall. assumption.
    + intros j d m Hlt Hj Hd.
      specialize (Hfirst j d (Node.visits m) Hlt Hj). unfold visits_of, nat_gt in Hfirst.
      rewrite Hd in Hfirst. specialize (Hfirst eq_refl I).
      apply Nat.ltb_lt in Hfirst. assumption.
  - intros x. apply Nat.ltb_irrefl.
  - unfold nat_gt. intros j b0 c H1 H2.
    apply Nat.ltb_ge in H1. apply Nat.ltb_lt in H2. apply Nat.ltb_ge. lia.
  - unfold nat_gt. intros j b0 c _ H1 H2.
    apply Nat.ltb_ge in H1. apply Nat.ltb_lt in H2. apply Nat.ltb_lt. lia.
Qed.

Lemma most_visited_total h cs :
  cs <> [] -> Forall (fun c => c < length h) cs ->
  exists b, Tree.most_visited h cs = Some b.
Proof.
  intros Hne Hall.
  destruct cs as [|c0 cs]; [congruence |]. rewrite most_visited_cons.
  assert (Hsc : Forall (fun x => is_Some (visits_of h x)) (c0 :: cs)).
  { eapply Forall_impl; [exact Hall |]. intros x Hx. unfold visits_of.
    apply lookup_lt_is_Some in Hx. destruct Hx as [n ->]. eauto. }
  destruct (reduce_choose_total (visits_of h) nat_gt (c0 :: cs) c0) as (r & Hr & _).
  - inversion Hsc; assumption.
  - assumption.
  - exists r. rewrite (reduce_ext _ _ _ (more_visited_choose h)). assumption.
Qed.

Lemma first_most_visited_elem h cs b : first_most_visited h cs b -> b ∈ cs.
Proof.
  intros (i & n & Hi & _). apply list_elem_of_lookup. eauto.
Qed.

(** On a well-formed heap the descent ends, with fuel for the nodes
    allocated after its start. *)
Lemma getBestNode_loop_spec h :
  wf_heap h ->
  forall fuel a, a < length h -> length h - a <= fuel ->
  exists leaf, Tree.getBestNode_loop fuel h a = Some leaf /\ follows_visits h a leaf.
Proof.
  intros Hwf. induction fuel as [|f IH]; intros a Ha Hfuel; [lia |].
  destruct (lookup_lt_is_Some_2 h a Ha) as [n Hn].
  simpl. rewrite Hn. simpl.
  destruct (Node.children n) as [|c cs] eqn:Hcs.
  - exists a. split; [reflexivity | eapply fv_leaf; eassumption].
  - destruct (Hwf a n Hn) as [Hch _]. rewrite Hcs in Hch.
    destruct (most_visited_total h (c :: cs)) as [b Hb]; [congruence | |].
    { eapply Forall_impl; [exact Hch |]. simpl. intros; lia. }
    rewrite Hb. simpl.
    pose proof (most_visited_spec _ _ _ Hb) as Hspec.
    pose proof (first_most_visited_elem _ _ _ Hspec) as Hin.
    rewrite Forall_forall in Hch. specialize (Hch b Hin).
    destruct (IH b) as (leaf & Hleaf & Hfv); [lia | lia |].
    exists leaf. split; [assumption |].
    eapply fv_step; try eassumption; rewrite Hcs; [congruence | assumption].
Qed.

Lemma getBestNode_loop_mono h leaf :
  forall f a, Tree.getBestNode_loop f h a = Some leaf ->
  forall f', f <= f' -> Tree.getBestNode_loop f' h a = Some leaf.
Proof.
  induction f as [|f IH]; intros a Hrun f' Hle; [discriminate |].
  destruct f' as [|f']; [lia |]. simpl in *.
  destruct (h !! a) as [n|]; [| discriminate]. simpl in *.
  destruct (Node.children n) as [|c cs]; [assumption |].
  destruct (Tree.most_visited h (c :: cs)) as [b|]; [| discriminate]. simpl in *.
  apply IH; [assumption | lia].
Qed.
End BestNode.

(** ** Well-formed heaps, by computation *)

Lemma wf_nodeb_correct len a n : wf_nodeb len a n = true -> Shape.wf_node len a n.
Proof.
  unfold wf_nodeb, Shape.wf_node. rewrite andb_true_iff, forallb_forall.
  intros [Hc Hp]. split.
  - apply Forall_forall. intros c Hin. apply list_elem_of_In in Hin.
    specialize (Hc c Hin). apply andb_true_iff in Hc as [H1 H2].
    apply Nat.ltb_lt in H1. apply Nat.ltb_lt in H2. lia.
  - intros p Hpar. rewrite Hpar in Hp. apply Nat.ltb_lt in Hp. assumption.
Defined.

Lemma lookup_zip_seq {A : Type} (l : list A) : forall k a x,
  l !! a = Some x -> zip (seq k (length l)) l !! a = Some (k + a, x).
Proof.
  induction l as [|y l IH]; intros k a x Hl; [discriminate |].
  destruct a as [|a]; simpl in *.
  - injection Hl as ->. by rewrite Nat.add_0_r.
  - rewrite (IH (S k) a x Hl). f_equal. f_equal. lia.
Defined.

Lemma wf_heapb_correct h : wf_heapb h = true -> Shape.wf_heap h.
Proof.
  unfold wf_heapb. rewrite forallb_forall. intros Hall a n Hn.
  apply wf_nodeb_correct.
  apply (Hall (a, n)). apply list_elem_of_In, list_elem_of_lookup.
  exists a. apply (lookup_zip_seq h 0 a n Hn).
Defined.

(** C7: for an engine with a root, on a heap shaped as the engine builds
    it, [getBestNode] returns the end of the descent that takes, at each
    node, the child with the greatest visit count, the first of them on
    a tie, and that stops at a node without children; with siblings
    visited A:5, B:2, C:9 it returns C whatever values they hold. *)
Theorem getBestNode_follows_most_visited :
  (forall (Client : Type) (e : InstinctMCTS.t Client) (r : addr),
     Shape.wf_heap (InstinctMCTS.heap e) ->
     InstinctMCTS.root e = Some r -> r < length (InstinctMCTS.heap e) ->
     exists leaf,
       Shape.follows_visits (InstinctMCTS.heap e) r leaf /\
       forall fuel, length (InstinctMCTS.heap e) <= fuel ->
         InstinctMCTS.getBestNode fuel e = Some (e, Ok (Some leaf))) /\
  (forall vP vA vB vC : scalar,
     InstinctMCTS.getBestNode 4 (Examples.engine_on tt (Fin (3#5)) (Examples.siblings vP vA vB vC))
     = Some (Examples.engine_on tt (Fin (3#5)) (Examples.siblings vP vA vB vC), Ok (Some 3))).
Proof.
  split.
  - intros Client e r Hwf Hroot Hr.
    destruct (getBestNode_loop_spec _ Hwf (length (InstinctMCTS.heap e)) r Hr)
      as (leaf & Hrun & Hfv); [lia |].
    exists leaf. split; [assumption |].
    intros fuel Hfuel. unfold InstinctMCTS.getBestNode. rewrite Hroot.
    rewrite (getBestNode_loop_mono _ _ _ _ Hrun fuel Hfuel). reflexivity.
  - intros. reflexivity.
Qed.

Lemma getBestNode_follows_most_visited_witness :
  exists leaf,
    Shape.follows_visits (Examples.siblings (SNum (Fin 0)) (SNum (Fin 90)) (SNum (Fin 1)) (SNum (Fin 2))) 0 leaf /\
    forall fuel, 4 <= fuel ->
      InstinctMCTS.getBestNode fuel
        (Examples.engine_on tt (Fin (3#5))
           (Examples.siblings (SNum (Fin 0)) (SNum (Fin 90)) (SNum (Fin 1)) (SNum (Fin 2))))
      = Some (Examples.engine_on tt (Fin (3#5))
                (Examples.siblings (SNum (Fin 0)) (SNum (Fin 90)) (SNum (Fin 1)) (SNum (Fin 2))),
              Ok (Some leaf)).
Proof.
  apply (proj1 getBestNode_follows_most_visited unit
           (Examples.engine_on tt (Fin (3#5))
              (Examples.siblings (SNum (Fin 0)) (SNum (Fin 90)) (SNum (Fin 1)) (SNum (Fin 2)))) 0).
  - apply wf_heapb_correct. reflexivity.
  - reflexivity.
  - simpl. lia.
Defined.

(** C10: an engine without a root answers [getBestNode()] with [null],
    whatever else it holds; and on every engine whose heap is shaped as
    the engine builds it, [getBestNode] returns: [null] or a node, with
    fuel for the size of the heap. *)
Theorem getBestNode_null_without_root :
  forall (Client : Type) (e : InstinctMCTS.t Client),
    (InstinctMCTS.root e = None ->
       forall fuel, InstinctMCTS.getBestNode fuel e = Some (e, Ok None)) /\
    (Shape.wf_heap (InstinctMCTS.heap e) ->
     (forall r, InstinctMCTS.root e = Some r -> r < length (InstinctMCTS.heap e)) ->
     exists answer : option addr,
       forall fuel, length (InstinctMCTS.heap e) <= fuel ->
         InstinctMCTS.getBestNode fuel e = Some (e, Ok answer)).
Proof.
  intros Client e. split.
  - intros Hroot fuel. unfold InstinctMCTS.getBestNode. rewrite Hroot. reflexivity.
  - intros Hwf Hin. destruct (InstinctMCTS.root e) as [r|] eqn:Hroot.
    + destruct (getBestNode_loop_spec _ Hwf (length (InstinctMCTS.heap e)) r (Hin r eq_refl))
        as (leaf & Hrun & _); [lia |].
      exists (Some leaf). intros fuel Hfuel.
      unfold InstinctMCTS.getBestNode. rewrite Hroot.
      rewrite (getBestNode_loop_mono _ _ _ _ Hrun fuel Hfuel). reflexivity.
    + exists None. intros fuel _. unfold InstinctMCTS.getBestNode.
      rewrite Hroot. reflexivity.
Qed.

Lemma getBestNode_null_without_root_witness :
  (forall fuel,
     InstinctMCTS.getBestNode fuel
       (InstinctMCTS.new tt "problem" "context" (Fin (7#5)) (Fin (3#5)) (Fin (1#5)) (Fin (7#10)))
     = Some (InstinctMCTS.new tt "problem" "context" (Fin (7#5)) (Fin (3#5)) (Fin (1#5)) (Fin (7#10)),
             Ok None)) /\
  (exists answer : option addr,
     forall fuel, 4 <= fuel ->
       InstinctMCTS.getBestNode fuel
         (Examples.engine_on tt (Fin (3#5))
            (Examples.siblings (SNum (Fin 0)) (SNum (Fin 1)) (SNum (Fin 2)) (SNum (Fin 3))))
       = Some (Examples.engine_on tt (Fin (3#5))
                 (Examples.siblings (SNum (Fin 0)) (SNum (Fin 1)) (SNum (Fin 2)) (SNum (Fin 3))),
               Ok answer)).
Proof.
  split.
  - apply (proj1 (getBestNode_null_without_root unit
             (InstinctMCTS.new tt "problem" "context" (Fin (7#5)) (Fin (3#5)) (Fin (1#5)) (Fin (7#10))))).
    reflexivity.
  - apply (proj2 (getBestNode_null_without_root unit
             (Examples.engine_on tt (Fin (3#5))
                (Examples.siblings (SNum (Fin 0)) (SNum (Fin 1)) (SNum (Fin 2)) (SNum (Fin 3)))))).
    + apply wf_heapb_correct. reflexivity.
    + intros r Hr. injection Hr as <-. simpl. lia.
Defined.

(** ** [uctValue] *)

(** C6: the selection score of a node without a parent is 0, whatever
    its counts and metrics; the score of a node with a parent is
    [value/(visits + eps) + explorationWeight *
     sqrt(ln(parent.visits + eps)/(visits + eps)) *
     (1 + confidenceBias * emotionalState) + perseverance * perseveranceFactor]
    with [eps = 1e-6]. *)
Theorem uctValue_formula :
  forall (host : Host) (h : Node.Heap) (a : addr) (n : Node.t),
    h !! a = Some n ->
    (Node.parent n = None -> Node.uctValue host h a = Some (Fin 0)) /\
    (forall p pn, Node.parent n = Some p -> h !! p = Some pn ->
       let eps := Fin (1 # 1000000) in
       let value := scalar_to_number (Node.value n) in
       let visits := of_nat (Node.visits n) in
       let parent_visits := of_nat (Node.visits pn) in
       Node.uctValue host h a =
       Some (value / (visits + eps)
             + Node.explorationWeight n
               * Math_sqrt host (Math_log host (parent_visits + eps) / (visits + eps))
               * (Fin 1 + Node.confidenceBias n * Node.emotionalState n)
             + Node.perseverance n * Node.perseveranceFactor n)%num).
Proof.
  intros host h a n Hn. unfold Node.uctValue. rewrite Hn. simpl. split.
  - intros ->. reflexivity.
  - intros p pn -> Hp. rewrite Hp. reflexivity.
Qed.

Lemma uctValue_formula_witness :
  let host := ExampleHost.host (fun _ => 1 # 2) in
  let h := Examples.siblings (SNum (Fin 112)) (SNum (Fin 35)) (SNum (Fin 8)) (SNum (Fin 69)) in
  Node.uctValue host h 0 = Some (Fin 0) /\
  Node.uctValue host h 1 =
    Some (Fin 35 / (of_nat 5 + Fin (1 # 1000000))
          + Fin (7#5)
            * Math_sqrt host (Math_log host (of_nat 16 + Fin (1 # 1000000))
                              / (of_nat 5 + Fin (1 # 1000000)))
            * (Fin 1 + Fin (1#5) * Fin (1#2))
          + Fin (1#2) * Fin (7#10))%num.
Proof.
  intros host h. split.
  - apply (proj1 (uctValue_formula host h 0
                    (Examples.node "P" None [1; 2; 3] 16 (SNum (Fin 112)) 0 []) eq_refl)).
    reflexivity.
  - apply (proj2 (uctValue_formula host h 1
                    (Examples.node "A" (Some 0) [] 5 (SNum (Fin 35)) 1 ["P"]) eq_refl)
             0 (Examples.node "P" None [1; 2; 3] 16 (SNum (Fin 112)) 0 [])); reflexivity.
Defined.

(** ** [backpropagate] *)

Section Backpropagate.
Import Shape.





Lemma visit_parent score n : Node.parent (Tree.visit score n) = Node.parent n.
Proof. reflexivity. Qed.



End Backpropagate.



(** ** [select] *)

Lemma best_uct_spec host h cs c :
  Tree.best_uct host h cs = Some c ->
  champion (Node.uctValue host h) num_gt (fun s => is_nan s = false) cs c.
Proof.
  destruct cs as [|c0 cs]; [discriminate |].
  change (Tree.best_uct host h (c0 :: cs))
    with (Tree.reduce (choose (Node.uctValue host h) num_gt) (c0 :: cs) c0).
  apply reduce_choose_champion.
  - apply num_lt_irrefl.
  - apply num_gt_transfer.
  - apply num_gt_strict.
Qed.





Lemma select_loop_leaf host f h ratio k node n :
  h !! node = Some n -> Node.children n = [] ->
  Tree.select_loop host (S f) h ratio k node = Some (node, k).
Proof. intros Hn Hc. simpl. rewrite Hn. simpl. rewrite Hc. reflexivity. Qed.

Lemma select_loop_dangling host f (h : Node.Heap) ratio k node :
  h !! node = None -> Tree.select_loop host (S f) h ratio k node = None.
Proof. intros Hn. simpl. rewrite Hn. reflexivity. Qed.

Lemma select_loop_inner host f h ratio k node n c cs :
  h !! node = Some n -> Node.children n = c :: cs ->
  Tree.select_loop host (S f) h ratio k node =
  if num_lt (Fin (Math_random host k)) ratio then
    mapM (fun c => Node.emotionalState <$> h !! c) (c :: cs) ≫= (fun weights =>
      match Tree.pick (Fin (Math_random host (k + 1))) (Fin 0)
                      (Tree.normalize weights) (c :: cs) with
      | Some c' => Tree.select_loop host f h ratio (k + 2) c'
      | None => Tree.select_loop host f h ratio (k + 2) node
      end)
  else
    Tree.best_uct host h (c :: cs) ≫= (fun c' => Tree.select_loop host f h ratio (k + 1) c').
Proof. intros Hn Hc. simpl. rewrite Hn. simpl. rewrite Hc. reflexivity. Qed.





(** C4: a tree and a sequence of draws in [[0,1)] on which [select()]
    does not return.  The floor 0.001 is the initial value of the sum the
    weights are divided by, so the three normalized weights sum to
    1500/1501; each draw for the choice is 0.9999, above that sum, the
    [for] loop ends without a [break], and the [while] loop turns again
    at the root. *)
Theorem select_spins_when_draw_exceeds_weights :
  let host := ExampleHost.host (fun _ => 9999 # 10000) in
  let h := Examples.siblings (SNum (Fin 112)) (SNum (Fin 35)) (SNum (Fin 8)) (SNum (Fin 69)) in
  fold_left num_add (Tree.normalize [Fin (1#2); Fin (1#2); Fin (1#2)]) (Fin 0)
    = Fin (1500 # 1501) /\
  forall fuel, InstinctMCTS.select host fuel (Examples.engine_on tt (Fin 1) h) = None.
Proof.
  intros host h. split; [reflexivity |].
  assert (Hspin : forall fuel k, Tree.select_loop host fuel h (Fin 1) k 0 = None).
  { induction fuel as [|f IH]; intros k; [reflexivity |].
    change (Tree.select_loop host (S f) h (Fin 1) k 0)
      with (Tree.select_loop host f h (Fin 1) (k + 2) 0).
    apply IH. }
  intros fuel. unfold InstinctMCTS.select.
  cbn [InstinctMCTS.root InstinctMCTS.heap InstinctMCTS.instinctRatio
       InstinctMCTS.draws Examples.engine_on].
  rewrite Hspin. reflexivity.
Qed.

(** ** The two definitions of [simulate] *)

Section Simulate.
Context (host : Host) {Client : Type} (llm : LLM Client).

Lemma bind_ok_inv {A B : Type} (m : InstinctMCTS.M A) (k : A -> InstinctMCTS.M B)
    (e e' : InstinctMCTS.t Client) (b : B) :
  InstinctMCTS.bind m k e = Some (e', Ok b) ->
  exists e1 a, m e = Some (e1, Ok a) /\ k a e1 = Some (e', Ok b).
Proof.
  unfold InstinctMCTS.bind. destruct (m e) as [[e1 [a|msg]]|]; intros H.
  - exists e1, a. split; [reflexivity | assumption].
  - discriminate.
  - discriminate.
Qed.

(** The name [simulate] is bound to the definition at line 305. *)
Lemma method_simulate : InstinctMCTS.method "simulate" = Some InstinctMCTS.B_simulate_305.
Proof. reflexivity. Qed.

Lemma simulate_S fuel a1 a2 :
  InstinctMCTS.simulate host llm (S fuel) a1 a2 =
  InstinctMCTS.simulate_305 host llm (InstinctMCTS.simulate host llm fuel) fuel a1 a2.
Proof. reflexivity. Qed.

(** An object compared with a number by [>] compares as [NaN]. *)
Lemma result_never_greater r x : js_gt (VResult r) (VNum x) = false.
Proof. unfold js_gt, js_lt. simpl. destruct x; reflexivity. Qed.

Lemma simulate_loop_keeps_minus_infinity
    (this_simulate : jsval -> jsval -> InstinctMCTS.M jsval) :
  (forall a1 a2 e e' v, this_simulate a1 a2 e = Some (e', Ok v) -> exists r, v = VResult r) ->
  forall fuel i iterations sims bestNode e e' best,
    InstinctMCTS.simulate_loop host llm this_simulate fuel i iterations sims
      bestNode (VNum NInf) e = Some (e', Ok best) ->
    best = (bestNode, VNum NInf).
Proof.
  intros Hthis. induction fuel as [|f IH]; intros i iterations sims bestNode e e' best Hrun;
    [discriminate |].
  simpl in Hrun. destruct (js_lt (VNum (of_nat i)) iterations).
  - apply bind_ok_inv in Hrun as (e1 & ? & _ & Hrun).
    apply bind_ok_inv in Hrun as (e2 & currentBest & _ & Hrun).
    apply bind_ok_inv in Hrun as (e3 & score & Hscore & Hrun).
    destruct (Hthis _ _ _ _ _ Hscore) as [r ->].
    rewrite result_never_greater in Hrun.
    apply (IH _ _ _ _ _ _ _ Hrun).
  - injection Hrun as _ <-. reflexivity.
Qed.

(** Whatever it is called with, [this.simulate] returns the object of the
    two-argument definition, with [-Infinity] for [bestScore]. *)
Lemma simulate_returns_no_score :
  forall fuel a1 a2 e e' v,
    InstinctMCTS.simulate host llm fuel a1 a2 e = Some (e', Ok v) ->
    exists r, v = VResult r /\ bestScore r = VNum NInf.
Proof.
  induction fuel as [|f IH]; intros a1 a2 e e' v Hrun; [discriminate |].
  rewrite simulate_S in Hrun. unfold InstinctMCTS.simulate_305 in Hrun.
  apply bind_ok_inv in Hrun as (e1 & ? & _ & Hrun).
  apply bind_ok_inv in Hrun as (e2 & ? & _ & Hrun).
  apply bind_ok_inv in Hrun as (e3 & ? & _ & Hrun).
  apply bind_ok_inv in Hrun as (e4 & best & Hloop & Hrun).
  apply simulate_loop_keeps_minus_infinity in Hloop.
  - subst best. simpl in Hrun.
    destruct (InstinctMCTS.root _) as [b|]; [| discriminate].
    apply bind_ok_inv in Hrun as (e5 & n & _ & Hrun).
    apply bind_ok_inv in Hrun as (e6 & ? & _ & Hrun).
    apply bind_ok_inv in Hrun as (e7 & final & _ & Hrun).
    injection Hrun as _ <-. eexists. split; reflexivity.
  - intros b1 b2 y y' w Hw. destruct (IH _ _ _ _ _ Hw) as (r & -> & _). eauto.
Qed.

End Simulate.

(** C1: a full search of one round of one simulation, with a
    collaborator all of whose calls succeed and which holds 8 ready for
    the evaluation requests.  The call does return.  The node
    [getBestNode] finds is the child at 1, and the definition of
    [simulate] at line 189 would score it 8 * 1.7 = 13.6; but the call
    [this.simulate(currentBest)] runs the two-argument definition, makes
    no request (both answers of 8 are left), and returns an object, which
    is not greater than [-Infinity]: the result is the root, with
    [bestScore = -Infinity]. *)
Theorem full_search_returns_root_unscored :
  exists e' r,
    InstinctMCTS.simulate Runs.host Examples.scripted 10 (VNum (Fin 1)) (VNum (Fin 1))
      (Runs.fresh Runs.scoring (Fin (7#10)))
    = Some (e', Ok (VResult r)) /\
    InstinctMCTS.root e' = Some 0 /\
    bestNode r = 0 /\
    bestApproach r = "root approach" /\
    bestScore r = VNum NInf /\
    InstinctMCTS.getBestNode 10 e' = Some (e', Ok (Some 1)) /\
    Examples.completions (InstinctMCTS.llmClient e') = [Ok "8"; Ok "8"] /\
    exists e'',
      InstinctMCTS.simulate_189 Examples.scripted (VNode 1) e'
      = Some (e'', Ok (VNum (Fin (68#5)))).
Proof.
  do 2 eexists. split; [vm_compute; reflexivity |].
  repeat (split; [vm_compute; reflexivity |]).
  eexists. vm_compute. reflexivity.
Qed.

(** C2: the engine made with [perseveranceFactor = 0.5] and initialized
    with the root "I will persist and try again despite doubts", whose
    collaborator answers the next request with 4.  The content shows
    perseverance, and the definition at line 189 does return 4 * 1.5 = 6
    on the root; but the call [simulate(root)] runs the definition at
    line 305, which makes no request, leaves the engine as it is and
    returns an object whose [bestScore] is [-Infinity]. *)
Theorem simulate_of_a_node_returns_an_object :
  let e := Runs.initialized Runs.persisting (Fin (1#2)) in
  Node.content <$> InstinctMCTS.heap e !! 0
    = Some "I will persist and try again despite doubts" /\
  Node.perseveranceFactor <$> InstinctMCTS.heap e !! 0 = Some (Fin (1#2)) /\
  Tree.count_indicators Tree.perseveranceIndicators
    "I will persist and try again despite doubts" = 3 /\
  Tree.count_indicators Tree.doubtIndicators
    "I will persist and try again despite doubts" = 1 /\
  (exists r,
     InstinctMCTS.simulate Runs.host Examples.scripted 5 (VNode 0) VUndefined e
     = Some (e, Ok (VResult r)) /\
     bestScore r = VNum NInf) /\
  (exists e',
     InstinctMCTS.simulate_189 Examples.scripted (VNode 0) e
     = Some (e', Ok (VNum (Fin 6))) /\
     Examples.completions (InstinctMCTS.llmClient e') = []).
Proof.
  intros e. repeat (split; [vm_compute; reflexivity |]). split.
  - eexists. split; vm_compute; reflexivity.
  - eexists. split; vm_compute; reflexivity.
Qed.

Lemma clamp01_in_unit x : is_nan x = false -> in_unit (Node.clamp01 x) = true.
Proof.
  unfold Node.clamp01, Math_max, Math_min, in_unit.
  destruct x as [q| | |]; simpl; intros Hx; try discriminate; try reflexivity.
  destruct (Qltb q 1) eqn:E1; simpl.
  - destruct (Qltb 0 q) eqn:E0; simpl.
    + apply andb_true_iff. split; num_order.
    + reflexivity.
  - reflexivity.
Qed.

(** C3: the engine initialized and asked to expand its root, when the
    analysis of the first child rates the emotional state 15.  [expand]
    stores 15/10 = 1.5 in the child's [emotionalState] as it is: the
    metric leaves [[0,1]]. *)
Theorem expand_stores_metric_outside_unit_interval :
  let e := Runs.initialized Runs.overrating (Fin (7#10)) in
  exists e' child n,
    InstinctMCTS.expand Runs.host Examples.scripted 0 2 e = Some (e', Ok (Some child)) /\
    InstinctMCTS.heap e' !! 1 = Some n /\
    Node.parent n = Some 0 /\
    Node.emotionalState n = Fin (3#2) /\
    in_unit (Node.emotionalState n) = false.
Proof.
  intros e. do 3 eexists. split; [vm_compute; reflexivity |].
  split; [vm_compute; reflexivity |].
  repeat split.
Qed.

(** The same metric after one step of [search] with a collaborator whose
    analyses are all in range: the score handed to [backpropagate] is the
    object [this.simulate] returned, and the root's [emotionalState] is
    [NaN]. *)
Lemma search_step_leaves_NaN :
  exists e' r,
    InstinctMCTS.simulate Runs.host Examples.scripted 10 (VNum (Fin 1)) (VNum (Fin 1))
      (Runs.fresh Runs.scoring (Fin (7#10)))
    = Some (e', Ok (VResult r)) /\
    Node.emotionalState <$> InstinctMCTS.heap e' !! 0 = Some NaN /\
    Node.value <$> InstinctMCTS.heap e' !! 0 = Some (SStr "0[object Object]").
Proof.
  do 2 eexists. split; [vm_compute; reflexivity |].
  split; vm_compute; reflexivity.
Qed.

(** ** [expand] *)

Section Expand.
Context (host : Host) {Client : Type} (llm : LLM Client).

Lemma set_llmClient_same (e : InstinctMCTS.t Client) :
  InstinctMCTS.set_llmClient (InstinctMCTS.llmClient e) e = e.
Proof. destruct e; reflexivity. Qed.

Lemma first_failure_successes {A : Type} (rs : list (result A)) :
  Calls.first_failure rs = None -> exists l, Calls.successes rs = Some l.
Proof.
  induction rs as [|[a|msg] rs IH]; simpl; intros H.
  - eauto.
  - destruct (Calls.first_failure rs); [discriminate |].
    destruct (IH eq_refl) as [l ->]. simpl. eauto.
  - discriminate.
Qed.

Lemma Promise_all_generations prompt k :
  forall (e : InstinctMCTS.t Client) c1 gens,
    Calls.generations llm (InstinctMCTS.llmClient e) prompt k = (c1, gens) ->
    InstinctMCTS.Promise_all
      (map (fun p => InstinctMCTS.call_generateCompletion llm p no_options)
           (repeat prompt k)) e
    = Some (InstinctMCTS.set_llmClient c1 e, Calls.settled gens).
Proof.
  induction k as [|k IH]; intros e c1 gens Hgen.
  - injection Hgen as <- <-. simpl. unfold InstinctMCTS.ret.
    rewrite set_llmClient_same. reflexivity.
  - simpl in Hgen.
    destruct (generateCompletion llm (InstinctMCTS.llmClient e) prompt no_options)
      as [c' r] eqn:Hcall.
    destruct (Calls.generations llm c' prompt k) as [c2 rs] eqn:Hrest.
    injection Hgen as <- <-.
    simpl. unfold InstinctMCTS.call_generateCompletion at 1. rewrite Hcall.
    rewrite (IH (InstinctMCTS.set_llmClient c' e) c2 rs Hrest).
    f_equal. f_equal. unfold Calls.settled. simpl.
    destruct r as [a|msg]; [| reflexivity].
    destruct (Calls.first_failure rs) as [[j err]|] eqn:Hf; simpl; [reflexivity |].
    destruct (first_failure_successes rs Hf) as [l ->]. reflexivity.
Qed.
(** The engine after [node.addChild(thought)]. *)
Lemma addChild_attaches node thought (e : InstinctMCTS.t Client) n :
  InstinctMCTS.heap e !! node = Some n ->
  InstinctMCTS.addChild host node thought e =
  Some (InstinctMCTS.set_draws (InstinctMCTS.draws e + 6)
          (InstinctMCTS.set_heap
             (alter (fun m => Node.set_children
                                (Node.children m ++ [length (InstinctMCTS.heap e)]) m)
                    node
                    (InstinctMCTS.heap e ++
                     [Node.construct host (InstinctMCTS.heap e) (InstinctMCTS.draws e)
                        thought (Some node) (Node.explorationWeight n)
                        (Node.confidenceBias n) (Node.perseveranceFactor n)]))
             e),
        Ok (length (InstinctMCTS.heap e))).
Proof.
  intros Hn. unfold InstinctMCTS.addChild, Node.addChild. rewrite Hn. reflexivity.
Qed.

Lemma seq_snoc_start (start m : nat) (l : list nat) :
  (l ++ [start]) ++ seq (S start) m = l ++ seq start (S m).
Proof. rewrite <- app_assoc. reflexivity. Qed.

(** When the analysis of the thought at index [j] is the first to fail,
    the loop of [expand] stops there with that error; the children made
    for the thoughts up to [j] are in the heap and attached to [node]
    after its earlier children, and no other node has changed. *)
Lemma attach_failure node :
  forall thoughts (e : InstinctMCTS.t Client) acc n j err,
    InstinctMCTS.heap e !! node = Some n ->
    Calls.first_failure (Calls.analyses llm (InstinctMCTS.llmClient e) thoughts)
      = Some (j, err) ->
    exists e',
      InstinctMCTS.attach host llm node thoughts acc e = Some (e', Error err) /\
      length (InstinctMCTS.heap e') = length (InstinctMCTS.heap e) + S j /\
      Node.children <$> InstinctMCTS.heap e' !! node
        = Some (Node.children n ++ seq (length (InstinctMCTS.heap e)) (S j)) /\
      (forall i, i <= j ->
         exists c t, thoughts !! i = Some t /\
           InstinctMCTS.heap e' !! (length (InstinctMCTS.heap e) + i) = Some c /\
           Node.parent c = Some node /\ Node.content c = t) /\
      (forall a, a < length (InstinctMCTS.heap e) -> a <> node ->
         InstinctMCTS.heap e' !! a = InstinctMCTS.heap e !! a).
Proof.
  induction thoughts as [|t rest IH]; intros e acc n j err Hn Hfail; [discriminate |].
  pose proof (lookup_lt_Some _ _ _ Hn) as Hlt.
  simpl in Hfail. simpl InstinctMCTS.attach. unfold InstinctMCTS.bind at 1.
  rewrite (addChild_attaches node t e n Hn).
  set (len := length (InstinctMCTS.heap e)) in *.
  set (fresh := Node.construct host (InstinctMCTS.heap e) (InstinctMCTS.draws e) t (Some node)
                  (Node.explorationWeight n) (Node.confidenceBias n)
                  (Node.perseveranceFactor n)).
  set (h1 := alter (fun m => Node.set_children (Node.children m ++ [len]) m) node
                   (InstinctMCTS.heap e ++ [fresh])).
  assert (Hlen1 : length h1 = len + 1).
  { unfold h1. rewrite length_alter, length_app. reflexivity. }
  assert (Hnode1 : h1 !! node = Some (Node.set_children (Node.children n ++ [len]) n)).
  { unfold h1. rewrite list_lookup_alter_eq, lookup_app_l by assumption.
    rewrite Hn. reflexivity. }
  assert (Hnew1 : h1 !! len = Some fresh).
  { unfold h1. rewrite list_lookup_alter_ne by lia.
    rewrite lookup_app_r by (unfold len; lia).
    replace (len - length (InstinctMCTS.heap e)) with 0 by (unfold len; lia). reflexivity. }
  assert (Hold1 : forall a, a < len -> a <> node -> h1 !! a = InstinctMCTS.heap e !! a).
  { intros a Ha Hne. unfold h1. rewrite list_lookup_alter_ne by congruence.
    apply lookup_app_l. assumption. }
  unfold InstinctMCTS.bind at 1, InstinctMCTS.call_analyzeContent at 1.
  cbn [InstinctMCTS.llmClient InstinctMCTS.set_draws InstinctMCTS.set_heap].
  destruct (analyzeContent llm (InstinctMCTS.llmClient e) t) as [c1 [an|msg]] eqn:Hcall.
  - simpl in Hfail.
    destruct (Calls.first_failure (Calls.analyses llm c1 rest)) as [[j' err']|] eqn:Hrest;
      [| discriminate].
    simpl in Hfail. injection Hfail as <- <-.
    unfold InstinctMCTS.bind at 1, InstinctMCTS.update_node at 1, InstinctMCTS.modify at 1.
    match goal with
    | |- exists e', InstinctMCTS.attach _ _ _ _ _ ?e3 = _ /\ _ =>
        set (E3 := e3);
        destruct (IH E3 (acc ++ [len])
                    (Node.set_children (Node.children n ++ [len]) n) j' err')
          as (e' & Hrun & Hlen' & Hch' & Hnew' & Hold')
    end.
    + simpl. rewrite list_lookup_alter_ne by lia. assumption.
    + exact Hrest.
    + assert (HlenE3 : length (InstinctMCTS.heap E3) = len + 1).
      { simpl. rewrite length_alter. assumption. }
      exists e'. split; [exact Hrun |]. rewrite HlenE3 in *.
      split; [lia |]. split.
      * rewrite Hch'. simpl Node.children.
        replace (len + 1) with (S len) by lia. rewrite seq_snoc_start. reflexivity.
      * split.
        -- intros [|i] Hi.
           ++ exists (Node.set_metrics
                        (num_div (a_emotionalState an) (Fin 10))
                        (num_div (a_instinctVsAnalysis an) (Fin 10))
                        (num_div (a_confidence an) (Fin 10))
                        (num_div (a_perseverance an) (Fin 10)) fresh), t.
              split; [reflexivity |]. split; [| split; reflexivity].
              rewrite Nat.add_0_r, Hold' by lia.
              simpl. rewrite list_lookup_alter_eq, Hnew1. reflexivity.
           ++ destruct (Hnew' i) as (c & t' & Ht' & Hc & Hp & Hcont); [lia |].
              exists c, t'. split; [exact Ht' |].
              replace (len + S i) with (len + 1 + i) by lia. auto.
        -- intros a Ha Hne. rewrite Hold' by lia.
           simpl. rewrite list_lookup_alter_ne by lia. apply Hold1; assumption.
  - simpl in Hfail. injection Hfail as <- <-.
    eexists. split; [reflexivity |]. simpl InstinctMCTS.heap.
    split; [lia |]. split; [rewrite Hnode1; reflexivity |]. split.
    + intros i Hi. assert (i = 0) as -> by lia.
      exists fresh, t. rewrite Nat.add_0_r.
      split; [reflexivity |]. split; [assumption |]. split; reflexivity.
    + assumption.
Qed.
End Expand.

Lemma successes_first_failure {A : Type} (rs : list (result A)) l :
  Calls.successes rs = Some l -> Calls.first_failure rs = None.
Proof.
  revert l. induction rs as [|[a|msg] rs IH]; simpl; intros l H.
  - reflexivity.
  - destruct (Calls.successes rs) as [l'|]; [| discriminate].
    rewrite (IH l' eq_refl). reflexivity.
  - discriminate.
Qed.

Lemma successes_no_failure {A : Type} (rs : list (result A)) l :
  Calls.successes rs = Some l -> Calls.settled rs = Ok l.
Proof.
  intros H. unfold Calls.settled.
  rewrite (successes_first_failure rs l H), H. reflexivity.
Qed.

(** C8: [expand(node, numChildren)] on a node of the heap, the answers of
    the collaborator being [gens] for the generation requests and
    [analyses] for the analyses.  If a generation request fails, [expand]
    fails with the error of the first of them, and the heap is as it
    was.  If the generations succeed and the analysis of the thought at
    index [j] is the first to fail, [expand] fails with that error; the
    children made for the thoughts 0 to [j] are in the heap, attached to
    [node] after its earlier children, and no other node has changed. *)
Theorem expand_propagates_failure :
  forall (host : Host) (Client : Type) (llm : LLM Client)
         (e : InstinctMCTS.t Client) (node : addr) (n : Node.t) (k : nat)
         (c1 : Client) (gens : list (result string)),
    InstinctMCTS.heap e !! node = Some n ->
    Calls.generations llm (InstinctMCTS.llmClient e)
      (Prompts.generateThoughtPrompt (InstinctMCTS.problem e) (InstinctMCTS.context e)
         (Node.content n)) k = (c1, gens) ->
    (forall j err,
       Calls.first_failure gens = Some (j, err) ->
       exists e',
         InstinctMCTS.expand host llm node k e = Some (e', Error err) /\
         InstinctMCTS.heap e' = InstinctMCTS.heap e) /\
    (forall thoughts j err,
       Calls.successes gens = Some thoughts ->
       Calls.first_failure (Calls.analyses llm c1 thoughts) = Some (j, err) ->
       exists e',
         InstinctMCTS.expand host llm node k e = Some (e', Error err) /\
         length (InstinctMCTS.heap e') = length (InstinctMCTS.heap e) + S j /\
         Node.children <$> InstinctMCTS.heap e' !! node
           = Some (Node.children n ++ seq (length (InstinctMCTS.heap e)) (S j)) /\
         (forall i, i <= j ->
            exists c t, thoughts !! i = Some t /\
              InstinctMCTS.heap e' !! (length (InstinctMCTS.heap e) + i) = Some c /\
              Node.parent c = Some node /\ Node.content c = t) /\
         (forall a, a < length (InstinctMCTS.heap e) -> a <> node ->
            InstinctMCTS.heap e' !! a = InstinctMCTS.heap e !! a)).
Proof.
  intros host Client llm e node n k c1 gens Hn Hgens.
  assert (Hstart : forall rest,
            InstinctMCTS.expand host llm node k e =
            InstinctMCTS.bind
              (InstinctMCTS.Promise_all
                 (map (fun p => InstinctMCTS.call_generateCompletion llm p no_options)
                      (repeat (Prompts.generateThoughtPrompt (InstinctMCTS.problem e)
                                 (InstinctMCTS.context e) (Node.content n)) k)))
              rest e ->
            InstinctMCTS.expand host llm node k e =
            match Calls.settled gens with
            | Ok thoughts => rest thoughts (InstinctMCTS.set_llmClient c1 e)
            | Error err => Some (InstinctMCTS.set_llmClient c1 e, Error err)
            end).
  { intros rest ->. unfold InstinctMCTS.bind.
    rewrite (Promise_all_generations llm _ k e c1 gens Hgens).
    destruct (Calls.settled gens); reflexivity. }
  match type of Hstart with
  | forall rest, _ = InstinctMCTS.bind ?m rest e -> _ =>
      assert (Hunfold : exists rest,
                InstinctMCTS.expand host llm node k e = InstinctMCTS.bind m rest e /\
                forall thoughts e1,
                  rest thoughts e1 =
                  InstinctMCTS.bind (InstinctMCTS.attach host llm node thoughts [])
                    (fun childNodes =>
                       InstinctMCTS.bind InstinctMCTS.get (fun e' =>
                         InstinctMCTS.bind (InstinctMCTS.notify)
                           (fun _ => InstinctMCTS.ret
                              (head (Tree.sort_by_instinct (InstinctMCTS.heap e') childNodes)))))
                    e1)
  end.
  { eexists. split.
    - unfold InstinctMCTS.expand. unfold InstinctMCTS.bind at 1, InstinctMCTS.get at 1.
      unfold InstinctMCTS.bind at 1, InstinctMCTS.deref at 1. rewrite Hn. reflexivity.
    - intros. reflexivity. }
  destruct Hunfold as (rest & Hexp & Hrest).
  specialize (Hstart rest Hexp). split.
  - intros j err Hfail. exists (InstinctMCTS.set_llmClient c1 e).
    rewrite Hstart. unfold Calls.settled. rewrite Hfail. split; reflexivity.
  - intros thoughts j err Hok Hfail.
    rewrite Hstart, (successes_no_failure _ _ Hok), Hrest.
    destruct (attach_failure host llm node thoughts (InstinctMCTS.set_llmClient c1 e) [] n j err)
      as (e' & Hrun & Hspec); [exact Hn | exact Hfail |].
    exists e'. split; [| exact Hspec].
    unfold InstinctMCTS.bind at 1. rewrite Hrun. reflexivity.
Qed.

Lemma expand_propagates_failure_witness :
  (exists e',
     InstinctMCTS.expand Runs.host Examples.scripted 0 2
       (Runs.initialized Runs.failing_generation (Fin (7#10)))
     = Some (e', Error "503 Service Unavailable") /\
     InstinctMCTS.heap e'
     = InstinctMCTS.heap (Runs.initialized Runs.failing_generation (Fin (7#10)))) /\
  (exists e',
     InstinctMCTS.expand Runs.host Examples.scripted 0 2
       (Runs.initialized Runs.failing_analysis (Fin (7#10)))
     = Some (e', Error "503 Service Unavailable") /\
     length (InstinctMCTS.heap e') = 3 /\
     Node.children <$> InstinctMCTS.heap e' !! 0 = Some [1; 2]).
Proof.
  split.
  - destruct (expand_propagates_failure Runs.host Examples.Script Examples.scripted
                (Runs.initialized Runs.failing_generation (Fin (7#10))) 0
                (Node.mk "dkryfm" "root approach" None [] 0 (SNum (Fin 0))
                   (Fin (7#5)) (Fin (1#5)) (Fin (7#10))
                   (Fin (1#2)) (Fin (3#5)) (Fin (1#2)) (Fin (1#2)) 0 [])
                2
                {| Examples.completions := []; Examples.analyses := [Runs.in_range; Runs.in_range] |}
                [Ok "keep going"; Error "503 Service Unavailable"])
      as [Hgen _].
    + vm_compute. reflexivity.
    + vm_compute. reflexivity.
    + apply (Hgen 1). vm_compute. reflexivity.
  - destruct (expand_propagates_failure Runs.host Examples.Script Examples.scripted
                (Runs.initialized Runs.failing_analysis (Fin (7#10))) 0
                (Node.mk "dkryfm" "root approach" None [] 0 (SNum (Fin 0))
                   (Fin (7#5)) (Fin (1#5)) (Fin (7#10))
                   (Fin (1#2)) (Fin (3#5)) (Fin (1#2)) (Fin (1#2)) 0 [])
                2
                {| Examples.completions := [];
                   Examples.analyses := [Runs.in_range; Error "503 Service Unavailable"] |}
                [Ok "keep going"; Ok "stop now"])
      as [_ Han].
    + vm_compute. reflexivity.
    + vm_compute. reflexivity.
    + destruct (Han ["keep going"; "stop now"] 1 "503 Service Unavailable")
        as (e' & Hrun & Hlen & Hch & _).
      * vm_compute. reflexivity.
      * vm_compute. reflexivity.
      * exists e'. split; [exact Hrun |]. split; [exact Hlen | exact Hch].
Defined.

(** ** [updateParameters] *)

(** The clamping of [updateParameters]: a metric given as a number that
    is not [NaN] is stored inside [[0,1]], wherever the number lies. *)
Lemma updateParameters_clamps params n x :
  is_nan x = false ->
  (Node.p_emotionalState params = Some x ->
     in_unit (Node.emotionalState (Node.updateParameters params n)) = true) /\
  (Node.p_instinctWeight params = Some x ->
     in_unit (Node.instinctWeight (Node.updateParameters params n)) = true) /\
  (Node.p_confidence params = Some x ->
     in_unit (Node.confidence (Node.updateParameters params n)) = true) /\
  (Node.p_perseverance params = Some x ->
     in_unit (Node.perseverance (Node.updateParameters params n)) = true).
Proof.
  intros Hx. repeat split; intros Hp; simpl; rewrite Hp; simpl;
    apply clamp01_in_unit; assumption.
Qed.

(** [backpropagate] keeps an emotional state inside [[0,1]] when the
    score is a number. *)
Lemma visit_keeps_unit score n :
  in_unit (Node.emotionalState n) = true -> is_nan score = false ->
  in_unit (Node.emotionalState (Tree.visit (VNum score) n)) = true.
Proof.
  intros Hes Hs. unfold Tree.visit. cbn [Node.emotionalState Node.set_stats ToNumber].
  destruct (Node.emotionalState n) as [a| | |]; try discriminate.
  destruct score as [b| | |]; try discriminate;
    apply clamp01_in_unit; reflexivity.
Qed.

(** ** src/api/openrouter.js: [analyzeContent] *)

(** [analyzeContent] hands over what the model's answer parses to, in or
    out of the range 1 to 10. *)
Lemma analyzeContent_returns_parsed_answer
    {Net : Type} (fetch : Net -> string -> Options -> Net * result string)
    (parse : string -> option Analysis) (c c' : Net) (text answer : string) (a : Analysis) :
  fetch c (OpenRouterClient.analysisPrompt text)
    {| temperature := Some (Fin (3#10)); maxTokens := Some (Fin 100) |} = (c', Ok answer) ->
  parse answer = Some a ->
  OpenRouterClient.analyzeContent fetch parse c text = (c', Ok a).
Proof.
  intros Hfetch Hparse.
  unfold OpenRouterClient.analyzeContent, OpenRouterClient.generateCompletion.
  rewrite Hfetch, Hparse. reflexivity.
Qed.


(** ** The shape of the heap is kept *)

Lemma wf_heap_nil : Shape.wf_heap [].
Proof. intros a n H. discriminate. Qed.

Lemma wf_node_longer len len' a n :
  len <= len' -> Shape.wf_node len a n -> Shape.wf_node len' a n.
Proof.
  intros Hle [Hc Hp]. split; [| assumption].
  eapply Forall_impl; [exact Hc |]. simpl. intros; lia.
Qed.

(** [addChild] keeps the shape. *)
Lemma addChild_keeps_shape host h k this content h' k' child :
  Shape.wf_heap h ->
  Node.addChild host h k this content = Some (h', k', child) ->
  Shape.wf_heap h' /\ child = length h /\ length h' = length h + 1.
Proof.
  intros Hwf Hadd. unfold Node.addChild in Hadd.
  destruct (h !! this) as [n|] eqn:Hn; [| discriminate]. simpl in Hadd.
  unfold Node.new in Hadd. injection Hadd as <- <- <-.
  pose proof (lookup_lt_Some _ _ _ Hn) as Hlt.
  split; [| split; [reflexivity | rewrite length_alter, length_app; reflexivity]].
  intros a m Ha. rewrite length_alter, length_app. simpl length.
  destruct (decide (a = this)) as [->|Hne].
  - rewrite list_lookup_alter_eq, lookup_app_l, Hn in Ha by assumption.
    injection Ha as <-. destruct (Hwf this n Hn) as [Hc Hp].
    split; [| exact Hp]. simpl. apply Forall_app. split.
    + eapply Forall_impl; [exact Hc |]. simpl. intros; lia.
    + repeat constructor; lia.
  - rewrite list_lookup_alter_ne in Ha by congruence.
    destruct (decide (a < length h)) as [Hin|Hout].
    + rewrite lookup_app_l in Ha by assumption.
      apply (wf_node_longer (length h)); [lia | apply Hwf; assumption].
    + apply lookup_lt_Some in Ha as Hbound. rewrite length_app in Hbound.
      simpl in Hbound. assert (a = length h) as -> by lia.
      rewrite lookup_app_r, Nat.sub_diag in Ha by lia.
      injection Ha as <-. split; [constructor |].
      simpl. intros p Hp. injection Hp as <-. assumption.
Qed.

(** An update that leaves [parent] and [children] alone keeps the
    shape. *)
Lemma alter_keeps_shape (f : Node.t -> Node.t) h a :
  (forall n, Node.parent (f n) = Node.parent n /\ Node.children (f n) = Node.children n) ->
  Shape.wf_heap h -> Shape.wf_heap (alter f a h).
Proof.
  intros Hf Hwf x m Hx. rewrite length_alter.
  destruct (decide (a = x)) as [->|Hne].
  - rewrite list_lookup_alter_eq in Hx.
    destruct (h !! x) as [n|] eqn:Hn; [| discriminate].
    injection Hx as <-. destruct (Hwf x n Hn) as [Hc Hp].
    destruct (Hf n) as [Hfp Hfc]. split; [rewrite Hfc | rewrite Hfp]; assumption.
  - rewrite list_lookup_alter_ne in Hx by assumption. apply Hwf. assumption.
Qed.

(** [backpropagate] keeps the shape. *)
Lemma backpropagate_keeps_shape score :
  forall fuel h current h',
    Shape.wf_heap h ->
    Tree.backpropagate_loop fuel h current score = Some h' ->
    Shape.wf_heap h'.
Proof.
  induction fuel as [|f IH]; intros h current h' Hwf Hrun.
  - destruct current; [discriminate |]. injection Hrun as <-. assumption.
  - destruct current as [a|]; [| injection Hrun as <-; assumption].
    simpl in Hrun. destruct (h !! a) as [n|] eqn:Hn; [| discriminate].
    simpl in Hrun. apply (IH _ _ _) in Hrun; [assumption |].
    intros x m Hx. rewrite length_insert.
    destruct (decide (a = x)) as [->|Hne].
    + rewrite list_lookup_insert_eq in Hx by (eapply lookup_lt_Some; eassumption).
      injection Hx as <-. apply (Hwf x n Hn).
    + rewrite list_lookup_insert_ne in Hx by assumption. apply Hwf. assumption.
Qed.

(** * Further properties *)

(** ** [Node.updateParameters] *)

Lemma clamp01_idempotent x : Node.clamp01 (Node.clamp01 x) = Node.clamp01 x.
Proof.
  unfold Node.clamp01, Math_max, Math_min.
  destruct x as [q| | |]; simpl; try reflexivity.
  destruct (Qltb q 1) eqn:E1; simpl.
  - destruct (Qltb 0 q) eqn:E0; simpl.
    + rewrite E1. simpl. rewrite E0. reflexivity.
    + reflexivity.
  - reflexivity.
Qed.

Lemma clamp01_NaN x : is_nan x = true -> Node.clamp01 x = NaN.
Proof. destruct x; try discriminate. reflexivity. Qed.

Lemma clamped_update_or_keep given old :
  NodeLaws.clamped_update given old (Node.or_keep given Node.clamp01 old).
Proof.
  destruct given as [x|]; simpl; [| reflexivity].
  split; [reflexivity |]. split; [apply clamp01_in_unit | apply clamp01_NaN].
Qed.

(** X1: [updateParameters(params)] stores each metric that is given
    clamped to [[0,1]] ([NaN] is kept as [NaN]), leaves a metric whose
    key is absent as it was, stores the three coefficients as given,
    touches nothing else of the node, and applying it twice with the same
    [params] is the same as applying it once. *)
Theorem updateParameters_clamps_and_settles :
  forall (params : Node.Params) (n : Node.t),
    let n' := Node.updateParameters params n in
    NodeLaws.clamped_update (Node.p_emotionalState params)
      (Node.emotionalState n) (Node.emotionalState n') /\
    NodeLaws.clamped_update (Node.p_instinctWeight params)
      (Node.instinctWeight n) (Node.instinctWeight n') /\
    NodeLaws.clamped_update (Node.p_confidence params)
      (Node.confidence n) (Node.confidence n') /\
    NodeLaws.clamped_update (Node.p_perseverance params)
      (Node.perseverance n) (Node.perseverance n') /\
    NodeLaws.plain_update (Node.p_explorationWeight params)
      (Node.explorationWeight n) (Node.explorationWeight n') /\
    NodeLaws.plain_update (Node.p_confidenceBias params)
      (Node.confidenceBias n) (Node.confidenceBias n') /\
    NodeLaws.plain_update (Node.p_perseveranceFactor params)
      (Node.perseveranceFactor n) (Node.perseveranceFactor n') /\
    (Node.id n', Node.content n', Node.parent n', Node.children n',
     Node.visits n', Node.value n', Node.depth n', Node.path n')
    = (Node.id n, Node.content n, Node.parent n, Node.children n,
       Node.visits n, Node.value n, Node.depth n, Node.path n) /\
    Node.updateParameters params n' = n'.
Proof.
  intros params n n'. subst n'.
  repeat (split; [apply clamped_update_or_keep |]).
  repeat (split; [unfold NodeLaws.plain_update; simpl;
                  match goal with |- context [Node.or_keep ?g _ _] => destruct g end;
                  reflexivity |]).
  split; [reflexivity |].
  destruct params as [es iw cf pv ew cb pf]. unfold Node.updateParameters. simpl.
  destruct es, iw, cf, pv, ew, cb, pf; simpl; rewrite ?clamp01_idempotent; reflexivity.
Qed.

(** ** [Node._generateId] *)

Lemma chars_get j :
  j < 26 -> exists c, String.get j Node.chars = Some c /\ NodeLaws.is_lower_letter c.
Proof.
  intros Hj. unfold NodeLaws.is_lower_letter.
  do 26 (destruct j as [|j];
         [eexists; split; [reflexivity | split; apply Nat.leb_le; reflexivity] |]).
  lia.
Qed.

Lemma id_char_letter r :
  (0 <= r < 1)%Q ->
  exists c, Node.id_char r = String c EmptyString /\ NodeLaws.is_lower_letter c.
Proof.
  intros [H0 H1]. unfold Node.id_char.
  pose proof (Qfloor_le (r * 26)) as Hle. pose proof (Qlt_floor (r * 26)) as Hlt.
  assert (Hlo : (0 <= Qfloor (r * 26))%Z).
  { assert (H : (0 < inject_Z (Qfloor (r * 26) + 1))%Q).
    { eapply Qle_lt_trans; [| exact Hlt]. lra. }
    rewrite <- (Zlt_Qlt 0) in H. lia. }
  assert (Hhi : (Qfloor (r * 26) < 26)%Z).
  { assert (H : (inject_Z (Qfloor (r * 26)) < inject_Z 26)%Q).
    { eapply Qle_lt_trans; [exact Hle |]. change (inject_Z 26) with 26%Q. lra. }
    rewrite <- Zlt_Qlt in H. exact H. }
  replace (Qfloor (r * 26) <? 0)%Z with false by (symmetry; apply Z.ltb_ge; lia).
  destruct (chars_get (Z.to_nat (Qfloor (r * 26)))) as (c & -> & Hc); [lia |].
  exists c. split; [reflexivity | assumption].
Qed.

(** X2: when [Math.random] returns values of [[0,1)], the identifier
    [_generateId] makes is a text of six lowercase letters. *)
Theorem generateId_six_letters :
  forall (host : Host) (k : nat),
    (forall i, (0 <= Math_random host i < 1)%Q) ->
    String.length (Node._generateId host k) = 6 /\
    Forall NodeLaws.is_lower_letter (list_ascii_of_string (Node._generateId host k)).
Proof.
  intros host k Hdraws. unfold Node._generateId. simpl map.
  destruct (id_char_letter _ (Hdraws (k + 0))) as (c0 & -> & H0).
  destruct (id_char_letter _ (Hdraws (k + 1))) as (c1 & -> & H1).
  destruct (id_char_letter _ (Hdraws (k + 2))) as (c2 & -> & H2).
  destruct (id_char_letter _ (Hdraws (k + 3))) as (c3 & -> & H3).
  destruct (id_char_letter _ (Hdraws (k + 4))) as (c4 & -> & H4).
  destruct (id_char_letter _ (Hdraws (k + 5))) as (c5 & -> & H5).
  split; [reflexivity |]. simpl.
  repeat (constructor; [assumption |]). constructor.
Qed.

Lemma generateId_six_letters_witness :
  String.length (Node._generateId Runs.host 0) = 6 /\
  Forall NodeLaws.is_lower_letter (list_ascii_of_string (Node._generateId Runs.host 0)).
Proof.
  apply (generateId_six_letters Runs.host 0).
  intros i. unfold Runs.host, ExampleHost.host, Runs.draws. simpl Math_random.
  pose proof (Nat.mod_upper_bound (7 * i + 3) 26).
  unfold Qle, Qlt. simpl Qnum. simpl Qden. lia.
Defined.

(** ** src/api/openrouter.js: ratings, analyses and diversified requests *)

Lemma fin_le a b : (a <= b)%Q -> num_le (fin a) (fin b) = true.
Proof.
  intros H. unfold fin. simpl. apply Qle_bool_iff. rewrite !Qred_correct. exact H.
Qed.

Lemma parseInt_fin d : exists p, parseInt d = Fin p /\ (0 <= p)%Q.
Proof.
  unfold parseInt, fin. eexists. split; [reflexivity |].
  rewrite Qred_correct. change 0%Q with (inject_Z 0). rewrite <- Zle_Qle. lia.
Qed.

Lemma rating_of_range answer :
  exists q, OpenRouterRest.rating_of answer = Fin q /\ (1 <= q <= 10)%Q.
Proof.
  unfold OpenRouterRest.rating_of.
  destruct (match_digits answer) as [d|]; [| exists 5%Q; split; [reflexivity | lra]].
  destruct (parseInt_fin d) as (p & -> & _). simpl.
  destruct (Qle_bool 1 p) eqn:E1; simpl; [| exists 5%Q; split; [reflexivity | lra]].
  destruct (Qle_bool p 10) eqn:E2; [| exists 5%Q; split; [reflexivity | lra]].
  exists p. split; [reflexivity |]. split; num_order.
Qed.

(** X3: [evaluateText] does not fail and its rating lies between 1 and 10
    whatever the exchange does and whatever the answer says; a first
    number above 10 is answered by the default 5, where the engine's own
    reading of an evaluation ([parse_score]) takes 10. *)
Theorem evaluateText_rating_in_range :
  forall (Net : Type) (fetch : Net -> string -> Options -> Net * result string)
         (c : Net) (text criteria : string) (o : Options),
    (exists q, snd (OpenRouterRest.evaluateText fetch c text criteria o) = Fin q /\
               (1 <= q <= 10)%Q) /\
    (forall msg c', fetch c (OpenRouterRest.ratingPrompt text criteria)
                      {| temperature := Some (Fin (3#10)); maxTokens := Some (Fin 10) |}
                    = (c', Error msg) ->
       OpenRouterRest.evaluateText fetch c text criteria o = (c', Fin 5)) /\
    (forall answer d p, match_digits answer = Some d -> parseInt d = Fin p -> (10 < p)%Q ->
       OpenRouterRest.rating_of answer = Fin 5 /\ Tree.parse_score answer = Fin 10).
Proof.
  intros Net fetch c text criteria o. split; [| split].
  - unfold OpenRouterRest.evaluateText, OpenRouterClient.generateCompletion.
    destruct (fetch c _ _) as [c1 [answer|msg]]; simpl.
    + apply rating_of_range.
    + exists 5%Q. split; [reflexivity | lra].
  - intros msg c' Hfetch.
    unfold OpenRouterRest.evaluateText, OpenRouterClient.generateCompletion.
    rewrite Hfetch. reflexivity.
  - intros answer d p Hd Hp Hlt.
    unfold OpenRouterRest.rating_of, Tree.parse_score. rewrite Hd, Hp. simpl.
    assert (E2 : Qle_bool p 10 = false).
    { destruct (Qle_bool p 10) eqn:E; [| reflexivity]. num_order. }
    rewrite E2, andb_false_r. split; [reflexivity |].
    unfold Math_max, Math_min. simpl.
    assert (E1 : Qltb 1 p = true) by (apply Qltb_lt; lra).
    rewrite E1. simpl.
    assert (E3 : Qltb p 10 = false) by (apply Qltb_ge; lra).
    rewrite E3. reflexivity.
Qed.

Lemma evaluateText_rating_in_range_witness :
  OpenRouterRest.rating_of "I would say 12 out of 10" = Fin 5 /\
  Tree.parse_score "I would say 12 out of 10" = Fin 10.
Proof.
  apply (proj2 (proj2 (evaluateText_rating_in_range unit
                         (fun c _ _ => (c, Ok "I would say 12 out of 10")) tt "" "" no_options))
           "I would say 12 out of 10" "12" 12%Q); [reflexivity | reflexivity | reflexivity].
Defined.

(** [analyzeContent] does not fail, whatever the exchange does: it
    resolves to the object the answer parses to, as it is, and to the
    neutral analysis (5, 5, 5, 5) when the request fails or the answer
    does not parse. *)
Lemma analyzeContent_resolves :
  forall (Net : Type) (fetch : Net -> string -> Options -> Net * result string)
         (parse : string -> option Analysis) (c : Net) (text : string),
    let request :=
      fetch c (OpenRouterClient.analysisPrompt text)
        {| temperature := Some (Fin (3#10)); maxTokens := Some (Fin 100) |} in
    OpenRouterClient.analyzeContent fetch parse c text =
    (fst request,
     Ok (match snd request with
         | Ok answer => default OpenRouterClient.neutral (parse answer)
         | Error _ => OpenRouterClient.neutral
         end)).
Proof.
  intros Net fetch parse c text request. subst request.
  unfold OpenRouterClient.analyzeContent, OpenRouterClient.generateCompletion.
  destruct (fetch c _ _) as [c' [answer|msg]]; simpl; [| reflexivity].
  destruct (parse answer); reflexivity.
Qed.









(** ** [select], when it returns *)

Lemma champion_elem {A S : Type} (score : A -> option S) gt ok cs r :
  champion score gt ok cs r -> r ∈ cs.
Proof. intros (i & sr & Hi & _). apply list_elem_of_lookup. eauto. Qed.

Lemma pick_elem random : forall ws cs cumulative c,
  Tree.pick random cumulative ws cs = Some c -> c ∈ cs.
Proof.
  induction ws as [|w ws IH]; intros cs cumulative c H; [discriminate |].
  destruct cs as [|c0 cs]; [discriminate |]. simpl in H.
  destruct (num_le random (num_add cumulative w)).
  - injection H as <-. apply list_elem_of_here.
  - apply list_elem_of_further. eapply IH. eassumption.
Qed.

Lemma select_loop_returns_leaf host ratio :
  forall fuel h k node leaf k',
    Tree.select_loop host fuel h ratio k node = Some (leaf, k') ->
    below h node leaf /\ k <= k' /\
    exists n, h !! leaf = Some n /\ Node.children n = [].
Proof.
  induction fuel as [|f IH]; intros h k node leaf k' Hrun; [discriminate |].
  destruct (h !! node) as [n|] eqn:Hn;
    [| rewrite select_loop_dangling in Hrun by assumption; discriminate].
  destruct (Node.children n) as [|c cs] eqn:Hcs.
  - rewrite (select_loop_leaf host f h ratio k node n Hn Hcs) in Hrun.
    injection Hrun as <- <-. split; [constructor |]. split; [lia | eauto].
  - rewrite (select_loop_inner host f h ratio k node n c cs Hn Hcs) in Hrun.
    destruct (num_lt (Fin (Math_random host k)) ratio).
    + destruct (mapM _ (c :: cs)) as [ws|]; [| discriminate]. simpl in Hrun.
      destruct (Tree.pick _ _ _ _) as [c'|] eqn:Hpick.
      * destruct (IH _ _ _ _ _ Hrun) as (Hb & Hk & Hleaf).
        split; [| split; [lia | exact Hleaf]].
        apply (below_child h node n c' leaf Hn); [| exact Hb].
        rewrite Hcs. eapply pick_elem. eassumption.
      * destruct (IH _ _ _ _ _ Hrun) as (Hb & Hk & Hleaf).
        split; [exact Hb | split; [lia | exact Hleaf]].
    + destruct (Tree.best_uct host h (c :: cs)) as [c'|] eqn:Hbest; [| discriminate].
      simpl in Hrun. destruct (IH _ _ _ _ _ Hrun) as (Hb & Hk & Hleaf).
      split; [| split; [lia | exact Hleaf]].
      apply (below_child h node n c' leaf Hn); [| exact Hb].
      rewrite Hcs. eapply champion_elem. apply best_uct_spec. eassumption.
Qed.

(** X5: whatever it returns, [select()] leaves the tree as it is.  When
    it returns a node, that node has no children, is the root or a
    descendant of the root, and is the engine's [selectedNode]; the
    count of draws has not decreased and nothing else of the engine has
    changed.  On an engine without a root it throws a [TypeError] and
    changes nothing. *)
Theorem select_returns_a_leaf_below_the_root :
  forall (host : Host) (Client : Type) (fuel : nat) (e e' : InstinctMCTS.t Client)
         (r : result addr),
    InstinctMCTS.select host fuel e = Some (e', r) ->
    match r with
    | Ok leaf =>
        exists root n,
          InstinctMCTS.root e = Some root /\ below (InstinctMCTS.heap e) root leaf /\
          InstinctMCTS.heap e !! leaf = Some n /\ Node.children n = [] /\
          InstinctMCTS.draws e <= InstinctMCTS.draws e' /\
          e' = InstinctMCTS.set_selectedNode (Some leaf)
                 (InstinctMCTS.set_draws (InstinctMCTS.draws e') e)
    | Error msg =>
        InstinctMCTS.root e = None /\ e' = e /\ msg = "TypeError"
    end.
Proof.
  intros host Client fuel e e' r Hsel. unfold InstinctMCTS.select in Hsel.
  destruct (InstinctMCTS.root e) as [root|] eqn:Hroot.
  - destruct (Tree.select_loop host fuel (InstinctMCTS.heap e) (InstinctMCTS.instinctRatio e)
                (InstinctMCTS.draws e) root) as [[leaf k']|] eqn:Hloop; [| discriminate].
    injection Hsel as <- <-.
    destruct (select_loop_returns_leaf _ _ _ _ _ _ _ _ Hloop) as (Hb & Hk & n & Hn & Hc).
    exists root, n. repeat split; try assumption.
  - injection Hsel as <- <-. repeat split.
Qed.

Lemma select_returns_a_leaf_below_the_root_witness :
  let e := Examples.engine_on tt (Fin 0)
             (Examples.siblings (SNum (Fin 112)) (SNum (Fin 35)) (SNum (Fin 8)) (SNum (Fin 69))) in
  exists root n,
    InstinctMCTS.root e = Some root /\ below (InstinctMCTS.heap e) root 3 /\
    InstinctMCTS.heap e !! 3 = Some n /\ Node.children n = [].
Proof.
  intros e.
  destruct (select_returns_a_leaf_below_the_root (ExampleHost.host (fun _ => 1 # 2)) unit 5 e
              (InstinctMCTS.set_selectedNode (Some 3) (InstinctMCTS.set_draws 1 e)) (Ok 3))
    as (root & n & Hroot & Hb & Hn & Hc & _).
  - vm_compute. reflexivity.
  - exists root, n. repeat split; assumption.
Defined.

Lemma uctValue_total host h c :
  Shape.wf_heap h -> c < length h -> is_Some (Node.uctValue host h c).
Proof.
  intros Hwf Hc. destruct (lookup_lt_is_Some_2 h c Hc) as [n Hn].
  unfold Node.uctValue. rewrite Hn. simpl.
  destruct (Node.parent n) as [p|] eqn:Hp; [| eauto].
  destruct (Hwf c n Hn) as [_ Hpar]. specialize (Hpar p Hp).
  destruct (lookup_lt_is_Some_2 h p) as [pn Hpn]; [lia |].
  rewrite Hpn. simpl. eauto.
Qed.

Lemma best_uct_total host h cs :
  Shape.wf_heap h -> cs <> [] -> Forall (fun c => c < length h) cs ->
  exists b, Tree.best_uct host h cs = Some b.
Proof.
  intros Hwf Hne Hall. destruct cs as [|c0 cs]; [congruence |].
  change (Tree.best_uct host h (c0 :: cs))
    with (Tree.reduce (choose (Node.uctValue host h) num_gt) (c0 :: cs) c0).
  assert (Hsc : Forall (fun x => is_Some (Node.uctValue host h x)) (c0 :: cs)).
  { eapply Forall_impl; [exact Hall |]. intros x Hx. apply uctValue_total; assumption. }
  destruct (reduce_choose_total (Node.uctValue host h) num_gt (c0 :: cs) c0) as (r & Hr & _).
  - inversion Hsc; assumption.
  - assumption.
  - eauto.
Qed.

Lemma select_loop_analytical_total host ratio h :
  Shape.wf_heap h ->
  (forall i, num_lt (Fin (Math_random host i)) ratio = false) ->
  forall n node k, node < length h -> length h - node <= n ->
  exists leaf k', forall fuel, n <= fuel ->
    Tree.select_loop host fuel h ratio k node = Some (leaf, k').
Proof.
  intros Hwf Hdraws. induction n as [|n IH]; intros node k Hnode Hn; [lia |].
  destruct (lookup_lt_is_Some_2 h node Hnode) as [nd Hnd].
  destruct (Node.children nd) as [|c cs] eqn:Hcs.
  - exists node, k. intros [|f] Hf; [lia |]. apply (select_loop_leaf host f h ratio k node nd Hnd Hcs).
  - destruct (Hwf node nd Hnd) as [Hch _]. rewrite Hcs in Hch.
    destruct (best_uct_total host h (c :: cs) Hwf) as [b Hb]; [congruence | |].
    { eapply Forall_impl; [exact Hch |]. simpl. intros; lia. }
    assert (Hin : b ∈ c :: cs) by (eapply champion_elem; apply best_uct_spec; eassumption).
    rewrite Forall_forall in Hch. specialize (Hch b Hin).
    destruct (IH b (k + 1)) as (leaf & k' & Hrun); [lia | lia |].
    exists leaf, k'. intros [|f] Hf; [lia |].
    rewrite (select_loop_inner host f h ratio k node nd c cs Hnd Hcs), Hdraws, Hb.
    simpl. apply Hrun. lia.
Qed.

(** X6: on a heap shaped as the engine builds it, [select()] returns
    whenever every draw it compares with [instinctRatio] is not below it,
    as is the case with [instinctRatio = 0]: the analytical branch is
    taken at each node and the descent ends at a leaf, with fuel for the
    size of the heap. *)
Theorem select_analytical_terminates :
  forall (host : Host) (Client : Type) (e : InstinctMCTS.t Client) (root : addr),
    Shape.wf_heap (InstinctMCTS.heap e) ->
    InstinctMCTS.root e = Some root -> root < length (InstinctMCTS.heap e) ->
    (forall i, num_lt (Fin (Math_random host i)) (InstinctMCTS.instinctRatio e) = false) ->
    exists leaf k',
      forall fuel, length (InstinctMCTS.heap e) <= fuel ->
        InstinctMCTS.select host fuel e
        = Some (InstinctMCTS.set_selectedNode (Some leaf) (InstinctMCTS.set_draws k' e),
                Ok leaf).
Proof.
  intros host Client e root Hwf Hroot Hlt Hdraws.
  destruct (select_loop_analytical_total host _ _ Hwf Hdraws
              (length (InstinctMCTS.heap e)) root (InstinctMCTS.draws e) Hlt)
    as (leaf & k' & Hrun); [lia |].
  exists leaf, k'. intros fuel Hfuel. unfold InstinctMCTS.select.
  rewrite Hroot, (Hrun fuel Hfuel). reflexivity.
Qed.

Lemma select_analytical_terminates_witness :
  let e := Examples.engine_on tt (Fin 0)
             (Examples.siblings (SNum (Fin 112)) (SNum (Fin 35)) (SNum (Fin 8)) (SNum (Fin 69))) in
  exists leaf k',
    forall fuel, 4 <= fuel ->
      InstinctMCTS.select (ExampleHost.host (fun _ => 1 # 2)) fuel e
      = Some (InstinctMCTS.set_selectedNode (Some leaf) (InstinctMCTS.set_draws k' e), Ok leaf).
Proof.
  intros e.
  apply (select_analytical_terminates (ExampleHost.host (fun _ => 1 # 2)) unit e 0).
  - apply wf_heapb_correct. reflexivity.
  - reflexivity.
  - simpl. lia.
  - intros i. reflexivity.
Defined.

(** ** [Node.findNodeById] and [Node.getAllNodes] *)

Lemma find_app_first {A : Type} (p : A -> bool) (l1 l2 : list A) :
  List.find p (l1 ++ l2) =
  match List.find p l1 with Some x => Some x | None => List.find p l2 end.
Proof.
  induction l1 as [|a l1 IH]; [reflexivity |]. simpl. destruct (p a); [reflexivity | exact IH].
Qed.

Lemma mapM_cons_some {A B : Type} (f : A -> option B) a l y ys :
  f a = Some y -> mapM f l = Some ys -> mapM f (a :: l) = Some (y :: ys).
Proof. intros Ha Hl. simpl. rewrite Ha. simpl. rewrite Hl. reflexivity. Qed.

Lemma below_inv h a x :
  below h a x ->
  x = a \/ exists n c, h !! a = Some n /\ c ∈ Node.children n /\ below h c x.
Proof. intros H. destruct H; [left; reflexivity | right; eauto]. Qed.

Section Traversal.
Context (h : Node.Heap) (Hwf : Shape.wf_heap h).

(** What the two traversals give on the children [cs] of a node, once
    they are known to return on each child. *)
Lemma traversal_children n this cs :
  (forall c, this < c -> c < length h ->
     exists nodes,
       head nodes = Some c /\ (forall x, x ∈ nodes <-> below h c x) /\
       forall fuel, n <= fuel ->
         NodeTraversal.getAllNodes fuel h c = Some nodes /\
         forall id, NodeTraversal.findNodeById fuel h c id
                    = Some (List.find (NodeTraversal.has_id h id) nodes)) ->
  Forall (fun c => this < c < length h) cs ->
  exists ls,
    (forall x, x ∈ concat ls <-> exists c, c ∈ cs /\ below h c x) /\
    forall fuel, n <= fuel ->
      mapM (NodeTraversal.getAllNodes fuel h) cs = Some ls /\
      forall id,
        NodeTraversal.first_found (fun c => NodeTraversal.findNodeById fuel h c id) cs
        = Some (List.find (NodeTraversal.has_id h id) (concat ls)).
Proof.
  intros IH Hall. induction Hall as [|c cs [Hlo Hhi] _ IHcs].
  - exists []. split.
    + intros x. split; [intros Hx; inversion Hx | intros (c & Hc & _); inversion Hc].
    + intros fuel _. split; reflexivity.
  - destruct (IH c Hlo Hhi) as (nodes & _ & Hmem & Hrun).
    destruct IHcs as (ls & Hmems & Hruns).
    exists (nodes :: ls). split.
    + intros x. simpl. rewrite elem_of_app, Hmem, Hmems. split.
      * intros [Hb|(c' & Hc' & Hb)].
        -- exists c. split; [apply list_elem_of_here | exact Hb].
        -- exists c'. split; [apply list_elem_of_further; exact Hc' | exact Hb].
      * intros (c' & Hc' & Hb). apply elem_of_cons in Hc' as [->|Hc'];
          [left; exact Hb | right; eauto].
    + intros fuel Hfuel. destruct (Hrun fuel Hfuel) as [Hall_c Hfind_c].
      destruct (Hruns fuel Hfuel) as [Hall_cs Hfind_cs].
      split; [apply mapM_cons_some; assumption |].
      intros id. simpl. rewrite Hfind_c. simpl. rewrite find_app_first.
      destruct (List.find (NodeTraversal.has_id h id) nodes); [reflexivity | apply Hfind_cs].
Qed.

Lemma traversal_spec :
  forall n this, this < length h -> length h - this <= n ->
  exists nodes,
    head nodes = Some this /\ (forall x, x ∈ nodes <-> below h this x) /\
    forall fuel, n <= fuel ->
      NodeTraversal.getAllNodes fuel h this = Some nodes /\
      forall id, NodeTraversal.findNodeById fuel h this id
                 = Some (List.find (NodeTraversal.has_id h id) nodes).
Proof.
  induction n as [|n IH]; intros this Hthis Hn; [lia |].
  destruct (lookup_lt_is_Some_2 h this Hthis) as [nd Hnd].
  destruct (Hwf this nd Hnd) as [Hch _].
  destruct (traversal_children n this (Node.children nd)) as (ls & Hmems & Hruns).
  - intros c Hlo Hhi. apply IH; lia.
  - exact Hch.
  - exists (this :: concat ls). split; [reflexivity |]. split.
    + intros x. rewrite elem_of_cons, Hmems. split.
      * intros [->|(c & Hc & Hb)]; [constructor |].
        apply (below_child h this nd c x Hnd Hc Hb).
      * intros Hb. destruct (below_inv _ _ _ Hb) as [->|(n0 & c & Hn0 & Hc & Hbc)];
          [left; reflexivity |].
        right. rewrite Hnd in Hn0. injection Hn0 as <-. eauto.
    + intros [|f] Hf; [lia |]. destruct (Hruns f) as [Hall Hfind]; [lia |].
      split.
      * simpl. rewrite Hnd. simpl. rewrite Hall. reflexivity.
      * intros id. simpl. rewrite Hnd. simpl.
        unfold NodeTraversal.has_id at 1. rewrite Hnd.
        destruct (String.eqb (Node.id nd) id); [reflexivity | apply Hfind].
Qed.
End Traversal.

(** X7: on a heap shaped as the engine builds it, [getAllNodes] returns
    the node and its descendants, each of them and nothing else, the
    node first; and [findNodeById(id)] returns the first node of that
    list whose identifier is [id], [null] when there is none. *)
Theorem findNodeById_first_of_getAllNodes :
  forall (h : Node.Heap) (this : addr),
    Shape.wf_heap h -> this < length h ->
    exists nodes,
      head nodes = Some this /\
      (forall x, x ∈ nodes <-> below h this x) /\
      forall fuel, length h <= fuel ->
        NodeTraversal.getAllNodes fuel h this = Some nodes /\
        forall id, NodeTraversal.findNodeById fuel h this id
                   = Some (List.find (NodeTraversal.has_id h id) nodes).
Proof.
  intros h this Hwf Hthis.
  destruct (traversal_spec h Hwf (length h) this Hthis) as (nodes & Hhead & Hmem & Hrun);
    [lia |].
  exists nodes. split; [exact Hhead |]. split; [exact Hmem | exact Hrun].
Qed.

Lemma findNodeById_first_of_getAllNodes_witness :
  let h := Examples.siblings (SNum (Fin 112)) (SNum (Fin 35)) (SNum (Fin 8)) (SNum (Fin 69)) in
  exists nodes,
    head nodes = Some 0 /\
    forall fuel, 4 <= fuel ->
      NodeTraversal.getAllNodes fuel h 0 = Some nodes /\
      forall id, NodeTraversal.findNodeById fuel h 0 id
                 = Some (List.find (NodeTraversal.has_id h id) nodes).
Proof.
  intros h.
  destruct (findNodeById_first_of_getAllNodes h 0) as (nodes & Hhead & _ & Hrun).
  - apply wf_heapb_correct. reflexivity.
  - simpl. lia.
  - exists nodes. split; assumption.
Defined.

(** ** src/utils/treeUtils.js *)

(** Induction on a snapshot, the property being known of its children. *)
Lemma TreeObject_children_ind (P : TreeObject -> Prop) :
  (forall t, Forall P (TreeUtils.tree_children t) -> P t) -> forall t, P t.
Proof.
  intros step. fix IH 1. intros t. apply step.
  destruct t as [? ? ? ? ? ? ? ? children]. simpl.
  induction children as [| c cs IHcs]; constructor; [apply IH | exact IHcs].
Qed.

Lemma first_some_spec {A B : Type} (f : A -> option B) l :
  match TreeUtils.first_some f l with
  | Some b => exists c, c ∈ l /\ f c = Some b
  | None => Forall (fun c => f c = None) l
  end.
Proof.
  induction l as [| a l IH]; simpl; [constructor |].
  destruct (f a) as [b |] eqn:E.
  - exists a. split; [left | exact E].
  - destruct (TreeUtils.first_some f l) as [b |].
    + destruct IH as (c & Hc & Hf). exists c. split; [right; exact Hc | exact Hf].
    + constructor; assumption.
Qed.

(** What [findPath] does to the path it is given: it appends the chain
    down to the node [findNodeById] finds, or leaves the path as it was. *)
Lemma findPath_children id cs :
  Forall (fun c => forall path,
    match TreeUtils.findNode c id with
    | Some x =>
        exists p, TreeUtils.findPath c id path = (true, path ++ p)
                  /\ TreeUtils.tree_path c p x /\ TreeUtils.tree_id x = id
    | None => TreeUtils.findPath c id path = (false, path)
    end) cs ->
  forall path,
    match TreeUtils.first_some (fun c => TreeUtils.findNode c id) cs with
    | Some x =>
        exists c p, c ∈ cs
          /\ TreeUtils.first_true (fun c path => TreeUtils.findPath c id path) cs path
             = (true, path ++ p)
          /\ TreeUtils.tree_path c p x /\ TreeUtils.tree_id x = id
    | None =>
        TreeUtils.first_true (fun c path => TreeUtils.findPath c id path) cs path
        = (false, path)
    end.
Proof.
  induction 1 as [| a l Ha _ IH]; intros path; simpl; [reflexivity |].
  specialize (Ha path).
  destruct (TreeUtils.findNode a id) as [x |].
  - destruct Ha as (p & -> & Hp & Hid).
    exists a, p. split; [left | auto].
  - rewrite Ha. specialize (IH path).
    destruct (TreeUtils.first_some _ l) as [x |]; [| exact IH].
    destruct IH as (c & p & Hc & Hrun & Hp & Hid).
    exists c, p. split; [right; exact Hc | auto].
Qed.

Lemma findPath_spec id : forall node path,
  match TreeUtils.findNode node id with
  | Some x =>
      exists p, TreeUtils.findPath node id path = (true, path ++ p)
                /\ TreeUtils.tree_path node p x /\ TreeUtils.tree_id x = id
  | None => TreeUtils.findPath node id path = (false, path)
  end.
Proof.
  induction node as [node IH] using TreeObject_children_ind. intros path.
  pose proof (findPath_children id _ IH (path ++ [node])) as Hcs.
  destruct node as [nid ? ? ? ? ? ? ? children]. simpl in *.
  destruct (String.eqb nid id) eqn:E.
  - eexists. split; [reflexivity |]. split; [constructor |].
    apply String.eqb_eq. exact E.
  - destruct (TreeUtils.first_some _ children) as [x |].
    + destruct Hcs as (c & p & Hc & -> & Hp & Hid).
      eexists (_ :: p). rewrite <- app_assoc. split; [reflexivity |].
      split; [| exact Hid]. apply (TreeUtils.path_down _ c); [exact Hc | exact Hp].
    + rewrite Hcs. rewrite removelast_last. reflexivity.
Qed.

(** X8: [getPathToNode(root, id)] is empty exactly when
    [findNodeById(root, id)] is [null]; otherwise it is the chain of nodes
    that starts at the root and ends at the node [findNodeById] returns,
    each the child of the one before, and that node has the identifier
    [id]. *)
Theorem getPathToNode_leads_to_found_node (root : TreeObject) (id : string) :
  match TreeUtils.findNodeById (Some root) id with
  | Some x =>
      TreeUtils.tree_id x = id
      /\ TreeUtils.tree_path root (TreeUtils.getPathToNode (Some root) id) x
  | None => TreeUtils.getPathToNode (Some root) id = []
  end.
Proof.
  unfold TreeUtils.getPathToNode. simpl.
  pose proof (findPath_spec id root []) as H.
  destruct (TreeUtils.findNode root id) as [x |].
  - destruct H as (p & -> & Hp & Hid). split; [exact Hid | exact Hp].
  - rewrite H. reflexivity.
Qed.

(** ** [extractTreeStatistics] *)

Lemma traverse_children d cs :
  Forall (fun c => forall depth s,
    TreeUtils.traverse c depth s
    = {| TreeUtils.c_nodeCount := TreeUtils.c_nodeCount s + TreeUtils.size c;
         TreeUtils.c_maxDepth :=
           Nat.max (TreeUtils.c_maxDepth s) (depth + TreeUtils.height c);
         TreeUtils.c_nonLeafNodes := TreeUtils.c_nonLeafNodes s + TreeUtils.internal c;
         TreeUtils.c_totalChildren :=
           TreeUtils.c_totalChildren s + (TreeUtils.size c - 1) |}) cs ->
  forall s,
    fold_left (fun s child => TreeUtils.traverse child (d + 1) s) cs s
    = {| TreeUtils.c_nodeCount :=
           TreeUtils.c_nodeCount s + list_sum (map TreeUtils.size cs);
         TreeUtils.c_maxDepth :=
           Nat.max (TreeUtils.c_maxDepth s)
             (list_max (map (fun c => d + 1 + TreeUtils.height c) cs));
         TreeUtils.c_nonLeafNodes :=
           TreeUtils.c_nonLeafNodes s + list_sum (map TreeUtils.internal cs);
         TreeUtils.c_totalChildren :=
           TreeUtils.c_totalChildren s
           + (list_sum (map TreeUtils.size cs) - length cs) |}.
Proof.
  induction 1 as [| a l Ha _ IH]; intros s; simpl.
  - destruct s; simpl. f_equal; lia.
  - rewrite IH, Ha. simpl.
    assert (1 <= TreeUtils.size a) by (destruct a; simpl; lia).
    assert (length l <= list_sum (map TreeUtils.size l)).
    { clear. induction l as [| b l IHl]; simpl; [lia |].
      assert (1 <= TreeUtils.size b) by (destruct b; simpl; lia). lia. }
    f_equal; lia.
Qed.

Lemma list_max_shift {A : Type} (f : A -> nat) d l :
  Nat.max d (list_max (map (fun c => d + f c) l)) = d + list_max (map f l).
Proof. induction l as [| a l IH]; simpl; lia. Qed.

Lemma traverse_spec : forall node depth s,
  TreeUtils.traverse node depth s
  = {| TreeUtils.c_nodeCount := TreeUtils.c_nodeCount s + TreeUtils.size node;
       TreeUtils.c_maxDepth :=
         Nat.max (TreeUtils.c_maxDepth s) (depth + TreeUtils.height node);
       TreeUtils.c_nonLeafNodes := TreeUtils.c_nonLeafNodes s + TreeUtils.internal node;
       TreeUtils.c_totalChildren :=
         TreeUtils.c_totalChildren s + (TreeUtils.size node - 1) |}.
Proof.
  induction node as [node IH] using TreeObject_children_ind. intros depth s.
  destruct node as [? ? ? ? ? ? ? ? children]. simpl in IH.
  destruct children as [| c cs].
  - simpl. f_equal; lia.
  - unfold TreeUtils.traverse; fold TreeUtils.traverse.
    rewrite (traverse_children depth _ IH).
    unfold TreeUtils.size, TreeUtils.height, TreeUtils.internal;
      fold TreeUtils.size; fold TreeUtils.height; fold TreeUtils.internal.
    assert (length (c :: cs) <= list_sum (map TreeUtils.size (c :: cs))).
    { clear. induction (c :: cs) as [| b l IHl]; simpl; [lia |].
      assert (1 <= TreeUtils.size b) by (destruct b; simpl; lia). lia. }
    cbn [TreeUtils.c_nodeCount TreeUtils.c_maxDepth TreeUtils.c_nonLeafNodes
         TreeUtils.c_totalChildren].
    pose proof (list_max_shift (fun c => 1 + TreeUtils.height c) depth (c :: cs)) as Hmax.
    rewrite (map_ext (fun c => depth + 1 + TreeUtils.height c)
               (fun c => depth + (1 + TreeUtils.height c)))
      by (intros; lia).
    f_equal; lia.
Qed.




(** ** Snapshots of the live tree *)

Lemma nodeToObject_unfold h f a :
  Tree.nodeToObject (S f) h a
  = (n ← h !! a; cs ← mapM (Tree.nodeToObject f h) (Node.children n);
     Some (TreeNode (Node.id n) (Node.content n) (Node.visits n) (Node.value n)
             (Node.emotionalState n) (Node.instinctWeight n) (Node.confidence n)
             (Node.perseverance n) cs)).
Proof. reflexivity. Qed.

Lemma nodeToObject_S h : forall fuel a t,
  Tree.nodeToObject fuel h a = Some t -> Tree.nodeToObject (S fuel) h a = Some t.
Proof.
  induction fuel as [| f IH]; intros a t H; [discriminate |].
  rewrite nodeToObject_unfold in H. rewrite nodeToObject_unfold.
  destruct (h !! a) as [n |]; [| discriminate]. cbn [mbind option_bind] in *.
  destruct (mapM (Tree.nodeToObject f h) (Node.children n)) as [cs |] eqn:E;
    [| discriminate].
  apply mapM_Some in E.
  assert (mapM (Tree.nodeToObject (S f) h) (Node.children n) = Some cs) as ->.
  { apply mapM_Some. eapply Forall2_impl; [exact E |]. intros c tc. apply IH. }
  exact H.
Qed.

Lemma findNodeById_unfold h f this id :
  NodeTraversal.findNodeById (S f) h this id
  = (n ← h !! this;
     if String.eqb (Node.id n) id then Some (Some this)
     else NodeTraversal.first_found
            (fun child => NodeTraversal.findNodeById f h child id) (Node.children n)).
Proof. reflexivity. Qed.

Lemma getAllNodes_unfold h f this :
  NodeTraversal.getAllNodes (S f) h this
  = (n ← h !! this; ls ← mapM (NodeTraversal.getAllNodes f h) (Node.children n);
     Some (this :: concat ls)).
Proof. reflexivity. Qed.

Lemma snapshot_lookup_children h f id cs ts :
  Forall2 (fun c tc =>
    Tree.nodeToObject f h c = Some tc /\
    exists r, NodeTraversal.findNodeById f h c id = Some r /\
      match r with
      | Some x => exists tx, Tree.nodeToObject f h x = Some tx
                             /\ TreeUtils.findNode tc id = Some tx
      | None => TreeUtils.findNode tc id = None
      end) cs ts ->
  exists r,
    NodeTraversal.first_found (fun c => NodeTraversal.findNodeById f h c id) cs = Some r /\
    match r with
    | Some x => exists tx, Tree.nodeToObject f h x = Some tx
                  /\ TreeUtils.first_some (fun c => TreeUtils.findNode c id) ts = Some tx
    | None => TreeUtils.first_some (fun c => TreeUtils.findNode c id) ts = None
    end.
Proof.
  induction 1 as [| c tc cs ts (_ & r & Hlive & Hsnap) _ IH]; simpl.
  - exists None. split; reflexivity.
  - rewrite Hlive. simpl. destruct r as [x |].
    + exists (Some x). split; [reflexivity |].
      destruct Hsnap as (tx & Hx & ->). exists tx. split; [exact Hx | reflexivity].
    + rewrite Hsnap. exact IH.
Qed.

Lemma snapshot_lookup h id : forall fuel a t,
  Tree.nodeToObject fuel h a = Some t ->
  exists r, NodeTraversal.findNodeById fuel h a id = Some r /\
    match r with
    | Some x => exists tx, Tree.nodeToObject fuel h x = Some tx
                           /\ TreeUtils.findNode t id = Some tx
    | None => TreeUtils.findNode t id = None
    end.
Proof.
  induction fuel as [| f IH]; intros a t H; [discriminate |].
  pose proof H as Ht.
  rewrite nodeToObject_unfold in H. rewrite findNodeById_unfold.
  destruct (h !! a) as [n |]; [| discriminate]. cbn [mbind option_bind] in H |- *.
  destruct (mapM (Tree.nodeToObject f h) (Node.children n)) as [ts |] eqn:E;
    [| discriminate].
  injection H as Heq. rewrite <- Heq.
  unfold TreeUtils.findNode; fold TreeUtils.findNode.
  destruct (String.eqb (Node.id n) id).
  - exists (Some a). split; [reflexivity |].
    exists t. split; [exact Ht | rewrite Heq; reflexivity].
  - apply mapM_Some in E.
    destruct (snapshot_lookup_children h f id (Node.children n) ts) as (r & Hlive & Hsnap).
    { eapply Forall2_impl; [exact E |]. intros c tc Hc. split; [exact Hc | exact (IH c tc Hc)]. }
    exists r. split; [exact Hlive |].
    destruct r as [x |]; [| exact Hsnap].
    destruct Hsnap as (tx & Hx & Hfound). exists tx.
    split; [apply nodeToObject_S; exact Hx | exact Hfound].
Qed.

(** X10: the snapshot [nodeToObject] makes of a node answers
    [findNodeById] of treeUtils.js as the node itself answers its own
    [findNodeById]: both find nothing, or the snapshot's answer is the
    snapshot of the node found in the tree. *)
Theorem snapshot_findNodeById_agrees :
  forall (fuel : nat) (h : Node.Heap) (a : addr) (t : TreeObject) (id : string),
    Tree.nodeToObject fuel h a = Some t ->
    exists r, NodeTraversal.findNodeById fuel h a id = Some r /\
      TreeUtils.findNodeById (Some t) id = r ≫= Tree.nodeToObject fuel h /\
      (is_Some r <-> is_Some (TreeUtils.findNodeById (Some t) id)).
Proof.
  intros fuel h a t id H.
  destruct (snapshot_lookup h id fuel a t H) as (r & Hlive & Hsnap).
  exists r. split; [exact Hlive |]. simpl.
  destruct r as [x |]; simpl.
  - destruct Hsnap as (tx & -> & ->). split; [reflexivity |]. split; eauto.
  - rewrite Hsnap. split; [reflexivity |]. split; intros [? Hx]; discriminate.
Qed.

Lemma snapshot_findNodeById_agrees_witness :
  let h := Examples.siblings (SNum (Fin 112)) (SNum (Fin 35)) (SNum (Fin 8)) (SNum (Fin 69)) in
  exists t,
    Tree.nodeToObject 4 h 0 = Some t /\
    NodeTraversal.findNodeById 4 h 0 "B" = Some (Some 2) /\
    TreeUtils.findNodeById (Some t) "B"
    = Some (TreeNode "B" "B" 2 (SNum (Fin 8)) (Fin (1 # 2)) (Fin (1 # 2))
              (Fin (1 # 2)) (Fin (1 # 2)) []).
Proof.
  intros h.
  destruct (Tree.nodeToObject 4 h 0) as [t |] eqn:E; [| vm_compute in E; discriminate].
  destruct (snapshot_findNodeById_agrees 4 h 0 t "B" E) as (r & Hlive & Hsnap & _).
  vm_compute in Hlive. injection Hlive as <-.
  exists t. split; [reflexivity |]. split; [reflexivity | exact Hsnap].
Defined.

Lemma snapshot_size h : forall fuel a t,
  Tree.nodeToObject fuel h a = Some t ->
  exists nodes, NodeTraversal.getAllNodes fuel h a = Some nodes
                /\ length nodes = TreeUtils.size t.
Proof.
  induction fuel as [| f IH]; intros a t H; [discriminate |].
  rewrite nodeToObject_unfold in H. rewrite getAllNodes_unfold.
  destruct (h !! a) as [n |]; [| discriminate]. simpl in *.
  destruct (mapM (Tree.nodeToObject f h) (Node.children n)) as [ts |] eqn:E;
    [| discriminate].
  simpl in H. injection H as <-.
  apply mapM_Some in E.
  assert (exists ls, mapM (NodeTraversal.getAllNodes f h) (Node.children n) = Some ls
                     /\ length (concat ls) = list_sum (map TreeUtils.size ts))
    as (ls & -> & Hlen).
  { clear -E IH. induction E as [| c tc cs ts Hc _ IHcs].
    - exists []. split; reflexivity.
    - destruct (IH c tc Hc) as (nodes & Hnodes & Hn).
      destruct IHcs as (ls & Hls & Hl).
      exists (nodes :: ls). split; [apply mapM_cons_some; assumption |].
      simpl. rewrite length_app. lia. }
  eexists. split; [reflexivity |]. simpl. rewrite Hlen. reflexivity.
Qed.

Lemma getAllNodes_snapshot h : forall fuel a nodes,
  NodeTraversal.getAllNodes fuel h a = Some nodes ->
  exists t, Tree.nodeToObject fuel h a = Some t.
Proof.
  induction fuel as [| f IH]; intros a nodes H; [discriminate |].
  rewrite getAllNodes_unfold in H. rewrite nodeToObject_unfold.
  destruct (h !! a) as [n |]; [| discriminate]. simpl in *.
  destruct (mapM (NodeTraversal.getAllNodes f h) (Node.children n)) as [ls |] eqn:E;
    [| discriminate].
  apply mapM_Some in E.
  assert (exists ts, mapM (Tree.nodeToObject f h) (Node.children n) = Some ts)
    as (ts & ->).
  { clear -E IH. induction E as [| c l cs ls Hc _ IHcs].
    - exists []. reflexivity.
    - destruct (IH c l Hc) as (tc & Htc). destruct IHcs as (ts & Hts).
      exists (tc :: ts). apply mapM_cons_some; assumption. }
  eexists. reflexivity.
Qed.

(** X11: on a heap shaped as the engine builds it and with a root,
    [_getCurrentTreeState] returns a snapshot and leaves the engine as it
    is; the snapshot's root carries the root's identifier, and
    [extractTreeStatistics] counts in it as many nodes as
    [root.getAllNodes()] lists, the root and its descendants. *)
Theorem getCurrentTreeState_snapshot_of_tree :
  forall {Client : Type} (e : InstinctMCTS.t Client) (r : addr) (n : Node.t),
    Shape.wf_heap (InstinctMCTS.heap e) ->
    InstinctMCTS.root e = Some r ->
    InstinctMCTS.heap e !! r = Some n ->
    exists s nodes,
      InstinctMCTS._getCurrentTreeState e = Some (e, Ok s)
      /\ TreeUtils.tree_id (tree s) = Node.id n
      /\ NodeTraversal.getAllNodes (length (InstinctMCTS.heap e)) (InstinctMCTS.heap e) r
         = Some nodes
      /\ (forall x, x ∈ nodes <-> below (InstinctMCTS.heap e) r x)
      /\ TreeUtils.nodeCount (TreeUtils.extractTreeStatistics (Some (tree s)))
         = length nodes.
Proof.
  intros Client e r n Hwf Hroot Hn.
  pose proof (lookup_lt_Some _ _ _ Hn) as Hr.
  destruct (traversal_spec _ Hwf (length (InstinctMCTS.heap e)) r Hr)
    as (nodes & _ & Hmem & Hrun); [lia |].
  destruct (Hrun (length (InstinctMCTS.heap e))) as [Hall _]; [lia |].
  destruct (getAllNodes_snapshot _ _ _ _ Hall) as (t & Ht).
  destruct (snapshot_size _ _ _ _ Ht) as (nodes' & Hall' & Hlen).
  rewrite Hall in Hall'. injection Hall' as <-.
  exists {| tree := t;
            selectedNodeId :=
              InstinctMCTS.selectedNode e
              ≫= (fun a => Node.id <$> InstinctMCTS.heap e !! a) |}, nodes.
  split; [unfold InstinctMCTS._getCurrentTreeState; rewrite Hroot, Ht; reflexivity |].
  split.
  { destruct (length (InstinctMCTS.heap e)) as [| f]; [discriminate |].
    rewrite nodeToObject_unfold, Hn in Ht. simpl in Ht.
    destruct (mapM _ _); [| discriminate]. injection Ht as <-. reflexivity. }
  split; [exact Hall |]. split; [exact Hmem |].
  unfold TreeUtils.extractTreeStatistics. rewrite traverse_spec. simpl. lia.
Qed.

Lemma getCurrentTreeState_snapshot_of_tree_witness :
  let e := Examples.engine_on tt (Fin 0)
             (Examples.siblings (SNum (Fin 112)) (SNum (Fin 35)) (SNum (Fin 8)) (SNum (Fin 69))) in
  exists s nodes,
    InstinctMCTS._getCurrentTreeState e = Some (e, Ok s)
    /\ TreeUtils.tree_id (tree s) = "P"
    /\ NodeTraversal.getAllNodes 4 (InstinctMCTS.heap e) 0 = Some nodes
    /\ TreeUtils.nodeCount (TreeUtils.extractTreeStatistics (Some (tree s))) = length nodes.
Proof.
  intros e.
  destruct (getCurrentTreeState_snapshot_of_tree e 0
              (Examples.node "P" None [1; 2; 3] 16 (SNum (Fin 112)) 0 []))
    as (s & nodes & Hs & Hid & Hall & _ & Hcount).
  - apply wf_heapb_correct. reflexivity.
  - reflexivity.
  - reflexivity.
  - exists s, nodes. split; [exact Hs |]. split; [exact Hid |].
    split; [exact Hall | exact Hcount].
Defined.

(** ** The engine keeps its tree in order *)

Lemma node_grows_refl n : Growth.node_grows n n.
Proof. unfold Growth.node_grows. repeat split; reflexivity. Qed.

Lemma node_grows_trans n1 n2 n3 :
  Growth.node_grows n1 n2 -> Growth.node_grows n2 n3 -> Growth.node_grows n1 n3.
Proof.
  unfold Growth.node_grows.
  intros (? & ? & ? & ? & ? & ? & ? & ? & Hp1 & ?) (? & ? & ? & ? & ? & ? & ? & ? & Hp2 & ?).
  repeat split; try congruence; [etrans; eassumption | lia].
Qed.

Lemma heap_grows_refl h : Growth.heap_grows h h.
Proof. intros a n Hn. exists n. split; [exact Hn | apply node_grows_refl]. Qed.

Lemma heap_grows_trans h1 h2 h3 :
  Growth.heap_grows h1 h2 -> Growth.heap_grows h2 h3 -> Growth.heap_grows h1 h3.
Proof.
  intros H12 H23 a n Hn.
  destruct (H12 a n Hn) as (n2 & Hn2 & Hg2).
  destruct (H23 a n2 Hn2) as (n3 & Hn3 & Hg3).
  exists n3. split; [exact Hn3 | exact (node_grows_trans _ _ _ Hg2 Hg3)].
Qed.

Lemma heap_grows_length h h' : Growth.heap_grows h h' -> length h <= length h'.
Proof.
  intros Hg. destruct (decide (length h = 0)) as [-> | Hne]; [lia |].
  destruct (lookup_lt_is_Some_2 h (length h - 1)) as [n Hn]; [lia |].
  destruct (Hg _ _ Hn) as (n' & Hn' & _). apply lookup_lt_Some in Hn'. lia.
Qed.

Lemma same_tree_grows h h' : Growth.same_tree h h' -> Growth.heap_grows h h'.
Proof.
  intros [_ H] a n Hn. destruct (H a n Hn) as (n' & Hn' & Hg & _). eauto.
Qed.

Lemma same_tree_refl h : Growth.same_tree h h.
Proof.
  split; [reflexivity |]. intros a n Hn. exists n.
  split; [exact Hn |]. split; [apply node_grows_refl | reflexivity].
Qed.

Lemma same_tree_trans h1 h2 h3 :
  Growth.same_tree h1 h2 -> Growth.same_tree h2 h3 -> Growth.same_tree h1 h3.
Proof.
  intros [L12 H12] [L23 H23]. split; [congruence |]. intros a n Hn.
  destruct (H12 a n Hn) as (n2 & Hn2 & Hg2 & Hc2).
  destruct (H23 a n2 Hn2) as (n3 & Hn3 & Hg3 & Hc3).
  exists n3. split; [exact Hn3 |].
  split; [exact (node_grows_trans _ _ _ Hg2 Hg3) | congruence].
Qed.

(** A node of the later heap comes from a node of the earlier one. *)
Lemma same_tree_back h h' (a : addr) n' :
  Growth.same_tree h h' -> h' !! a = Some n' ->
  exists n, h !! a = Some n /\ Growth.node_grows n n' /\ Node.children n' = Node.children n.
Proof.
  intros [Hlen H] Hn'. pose proof (lookup_lt_Some _ _ _ Hn') as Hlt.
  rewrite Hlen in Hlt. destruct (lookup_lt_is_Some_2 h a Hlt) as [n Hn].
  destruct (H a n Hn) as (n2 & Hn2 & Hg & Hc).
  rewrite Hn' in Hn2. injection Hn2 as <-. eauto.
Qed.

Lemma same_tree_wf h h' : Growth.same_tree h h' -> Shape.wf_heap h -> Shape.wf_heap h'.
Proof.
  intros Hs Hwf a n' Hn'.
  destruct (same_tree_back _ _ _ _ Hs Hn') as (n & Hn & Hg & Hc).
  destruct Hs as [Hlen _]. destruct (Hwf a n Hn) as [Hch Hp].
  destruct Hg as (_ & _ & Hpar & _).
  split; [rewrite Hc, Hlen; exact Hch | rewrite Hpar; exact Hp].
Qed.

Lemma same_tree_linked h h' : Growth.same_tree h h' -> Growth.linked h -> Growth.linked h'.
Proof.
  intros Hs Hl a n' Hn'.
  destruct (same_tree_back _ _ _ _ Hs Hn') as (n & Hn & Hg & Hc).
  destruct (Hl a n Hn) as [Hch Hp].
  destruct Hg as (_ & _ & Hpar & Hdepth & Hpath & _).
  destruct Hs as [_ Hs]. split.
  - intros c Hin. rewrite Hc in Hin. destruct (Hch c Hin) as (m & Hm & Hmp).
    destruct (Hs c m Hm) as (m' & Hm' & (_ & _ & Hpar' & _) & _).
    exists m'. split; [exact Hm' | congruence].
  - rewrite Hpar. destruct (Node.parent n) as [p |].
    + destruct Hp as (pn & Hpn & Hin & Hd & Hpa).
      destruct (Hs p pn Hpn) as (pn' & Hpn' & (Hid & _ & _ & Hd' & Hpa' & _) & Hc').
      exists pn'. split; [exact Hpn' |]. split; [rewrite Hc'; exact Hin |].
      split; congruence.
    + destruct Hp. split; congruence.
Qed.

(** An update of one node that touches neither its identity nor its
    links. *)
Lemma alter_same_tree (f : Node.t -> Node.t) h (a : addr) :
  (forall n, Growth.node_grows n (f n) /\ Node.children (f n) = Node.children n) ->
  Growth.same_tree h (alter f a h).
Proof.
  intros Hf. split; [apply length_alter |]. intros x n Hn.
  destruct (decide (a = x)) as [-> | Hne].
  - exists (f n). rewrite list_lookup_alter_eq, Hn. split; [reflexivity | apply Hf].
  - exists n. rewrite list_lookup_alter_ne by assumption.
    split; [exact Hn |]. split; [apply node_grows_refl | reflexivity].
Qed.

Lemma insert_same_tree (f : Node.t -> Node.t) h (a : addr) n :
  (forall n, Growth.node_grows n (f n) /\ Node.children (f n) = Node.children n) ->
  h !! a = Some n ->
  Growth.same_tree h (<[a := f n]> h).
Proof.
  intros Hf Ha. split; [apply length_insert |]. intros x m Hm.
  destruct (decide (a = x)) as [-> | Hne].
  - exists (f n). rewrite list_lookup_insert_eq by (eapply lookup_lt_Some; eassumption).
    rewrite Ha in Hm. injection Hm as <-. split; [reflexivity | apply Hf].
  - exists m. rewrite list_lookup_insert_ne by assumption.
    split; [exact Hm |]. split; [apply node_grows_refl | reflexivity].
Qed.

Lemma set_metrics_grows es iw cf pv n :
  Growth.node_grows n (Node.set_metrics es iw cf pv n)
  /\ Node.children (Node.set_metrics es iw cf pv n) = Node.children n.
Proof. split; [| reflexivity]. unfold Growth.node_grows. simpl. repeat split; reflexivity || lia. Qed.

Lemma visit_grows score n :
  Growth.node_grows n (Tree.visit score n)
  /\ Node.children (Tree.visit score n) = Node.children n.
Proof. split; [| reflexivity]. unfold Growth.node_grows. simpl. repeat split; reflexivity || lia. Qed.

Lemma backpropagate_loop_same_tree score :
  forall fuel h current h',
    Tree.backpropagate_loop fuel h current score = Some h' -> Growth.same_tree h h'.
Proof.
  induction fuel as [| f IH]; intros h current h' Hrun.
  - destruct current; [discriminate |]. injection Hrun as <-. apply same_tree_refl.
  - destruct current as [a |]; [| injection Hrun as <-; apply same_tree_refl].
    simpl in Hrun. destruct (h !! a) as [n |] eqn:Hn; [| discriminate].
    simpl in Hrun. apply IH in Hrun.
    eapply same_tree_trans; [| exact Hrun].
    apply (insert_same_tree (Tree.visit score)); [apply visit_grows | exact Hn].
Qed.

(** The heap after [this.addChild(content)]. *)
Lemma addChild_heap host h k (this : addr) content n :
  h !! this = Some n ->
  Node.addChild host h k this content
  = Some (alter (fun m => Node.set_children (Node.children m ++ [length h]) m) this
            (h ++ [Node.construct host h k content (Some this)
                     (Node.explorationWeight n) (Node.confidenceBias n)
                     (Node.perseveranceFactor n)]),
          k + 6, length h).
Proof. intros Hn. unfold Node.addChild. rewrite Hn. reflexivity. Qed.

Lemma addChild_grows host h k (this : addr) content h' k' child :
  Node.addChild host h k this content = Some (h', k', child) ->
  Growth.heap_grows h h' /\ k <= k'.
Proof.
  intros Hadd. destruct (h !! this) as [n |] eqn:Hn;
    [| unfold Node.addChild in Hadd; rewrite Hn in Hadd; discriminate].
  rewrite (addChild_heap host h k this content n Hn) in Hadd.
  injection Hadd as <- <- <-. split; [| lia].
  intros a m Hm. pose proof (lookup_lt_Some _ _ _ Hm) as Hlt.
  destruct (decide (this = a)) as [-> | Hne].
  - rewrite list_lookup_alter_eq, lookup_app_l, Hm by assumption. simpl.
    eexists. split; [reflexivity |]. unfold Growth.node_grows. simpl.
    repeat split; try reflexivity. apply prefix_app_r. reflexivity.
  - rewrite list_lookup_alter_ne, lookup_app_l by assumption.
    exists m. split; [exact Hm | apply node_grows_refl].
Qed.

Lemma addChild_linked host h k (this : addr) content h' k' child :
  Shape.wf_heap h -> Growth.linked h ->
  Node.addChild host h k this content = Some (h', k', child) ->
  Growth.linked h'.
Proof.
  intros Hwf Hl Hadd.
  destruct (addChild_grows _ _ _ _ _ _ _ _ Hadd) as [Hg _].
  destruct (h !! this) as [n |] eqn:Hn;
    [| unfold Node.addChild in Hadd; rewrite Hn in Hadd; discriminate].
  rewrite (addChild_heap host h k this content n Hn) in Hadd.
  injection Hadd as <- _ _.
  pose proof (lookup_lt_Some _ _ _ Hn) as Hthis.
  set (fresh := Node.construct host h k content (Some this) (Node.explorationWeight n)
                  (Node.confidenceBias n) (Node.perseveranceFactor n)) in *.
  set (h' := alter _ this (h ++ [fresh])) in *.
  assert (Hnew : h' !! length h = Some fresh).
  { unfold h'. rewrite list_lookup_alter_ne by lia.
    rewrite lookup_app_r, Nat.sub_diag by lia. reflexivity. }
  assert (Hpar : h' !! this = Some (Node.set_children (Node.children n ++ [length h]) n)).
  { unfold h'. rewrite list_lookup_alter_eq, lookup_app_l, Hn by assumption. reflexivity. }
  assert (Hfresh : Node.parent fresh = Some this /\ Node.children fresh = []
                   /\ Node.depth fresh = Node.depth n + 1
                   /\ Node.path fresh = Node.path n ++ [Node.id n]).
  { unfold fresh, Node.construct. simpl. rewrite Hn. repeat split; reflexivity. }
  destruct Hfresh as (Hfp & Hfc & Hfd & Hfpath).
  (* what an old node has become *)
  assert (Hold : forall (x : addr) m', x < length h -> h' !! x = Some m' ->
            exists m, h !! x = Some m /\ Node.parent m' = Node.parent m
              /\ Node.depth m' = Node.depth m /\ Node.path m' = Node.path m
              /\ (forall c, c ∈ Node.children m' -> c ∈ Node.children m \/ (x = this /\ c = length h))).
  { intros x m' Hx Hm'. destruct (lookup_lt_is_Some_2 h x Hx) as [m Hm].
    exists m. split; [exact Hm |].
    destruct (decide (this = x)) as [<- | Hne].
    - rewrite Hpar in Hm'. injection Hm' as <-. rewrite Hn in Hm. injection Hm as <-.
      simpl. repeat split; try reflexivity.
      intros c Hc. apply elem_of_app in Hc as [Hc | Hc]; [left; exact Hc |].
      apply list_elem_of_singleton in Hc. right. split; [reflexivity | exact Hc].
    - unfold h' in Hm'. rewrite list_lookup_alter_ne, lookup_app_l in Hm' by assumption.
      rewrite Hm in Hm'. injection Hm' as <-. repeat split; try reflexivity.
      intros c Hc. left. exact Hc. }
  intros a m' Hm'.
  assert (Hbound : a < length h \/ a = length h).
  { apply lookup_lt_Some in Hm'. unfold h' in Hm'.
    rewrite length_alter, length_app in Hm'. simpl in Hm'. lia. }
  destruct Hbound as [Ha | ->].
  - destruct (Hold a m' Ha Hm') as (m & Hm & Hp & Hd & Hpa & Hch).
    destruct (Hl a m Hm) as [Hlc Hlp]. split.
    + intros c Hc. destruct (Hch c Hc) as [Hc' | [-> ->]].
      * destruct (Hlc c Hc') as (mc & Hmc & Hmcp).
        destruct (Hg c mc Hmc) as (mc' & Hmc' & (_ & _ & Hpar' & _)).
        exists mc'. split; [exact Hmc' | congruence].
      * exists fresh. split; [exact Hnew | exact Hfp].
    + rewrite Hp. destruct (Node.parent m) as [p |].
      * destruct Hlp as (pn & Hpn & Hin & Hdp & Hpp).
        destruct (Hg p pn Hpn) as (pn' & Hpn' & (Hid & _ & _ & Hd' & Hpa' & _ & _ & _ & Hpre & _)).
        exists pn'. split; [exact Hpn' |].
        split; [destruct Hpre as [l ->]; apply elem_of_app; left; exact Hin |].
        split; congruence.
      * destruct Hlp. split; congruence.
  - rewrite Hnew in Hm'. injection Hm' as <-. split.
    + rewrite Hfc. intros c Hc. inversion Hc.
    + rewrite Hfp. eexists. split; [exact Hpar |]. simpl.
      split; [apply elem_of_app; right; apply list_elem_of_here |].
      split; assumption.
Qed.

(** The heap after [new Node(...)] without a parent. *)
Lemma new_root_grows host h k content ew cb pf :
  let h' := h ++ [Node.construct host h k content None ew cb pf] in
  Growth.heap_grows h h' /\ (Shape.wf_heap h -> Shape.wf_heap h')
  /\ (Growth.linked h -> Growth.linked h').
Proof.
  intros h'. split; [| split].
  - intros a n Hn. exists n. split; [| apply node_grows_refl].
    unfold h'. rewrite lookup_app_l by (eapply lookup_lt_Some; eassumption). exact Hn.
  - intros Hwf a n Hn. unfold h' in *. rewrite length_app. simpl length.
    destruct (decide (a < length h)) as [Ha | Ha].
    + rewrite lookup_app_l in Hn by assumption.
      apply (wf_node_longer (length h)); [lia | apply Hwf; exact Hn].
    + apply lookup_lt_Some in Hn as Hb. rewrite length_app in Hb. simpl in Hb.
      assert (a = length h) as -> by lia.
      rewrite lookup_app_r, Nat.sub_diag in Hn by lia. injection Hn as <-.
      split; [constructor | intros p Hp; discriminate].
  - intros Hl a n Hn. unfold h' in *.
    destruct (decide (a < length h)) as [Ha | Ha].
    + rewrite lookup_app_l in Hn by assumption.
      destruct (Hl a n Hn) as [Hc Hp]. split.
      * intros c Hin. destruct (Hc c Hin) as (m & Hm & Hmp). exists m.
        split; [| exact Hmp].
        rewrite lookup_app_l by (eapply lookup_lt_Some; eassumption). exact Hm.
      * destruct (Node.parent n) as [p |]; [| exact Hp].
        destruct Hp as (pn & Hpn & Hrest). exists pn. split; [| exact Hrest].
        rewrite lookup_app_l by (eapply lookup_lt_Some; eassumption). exact Hpn.
    + apply lookup_lt_Some in Hn as Hb. rewrite length_app in Hb. simpl in Hb.
      assert (a = length h) as -> by lia.
      rewrite lookup_app_r, Nat.sub_diag in Hn by lia. injection Hn as <-.
      split; [intros c Hc; inversion Hc | split; reflexivity].
Qed.

Section Keeps.
Context (host : Host) {Client : Type} (llm : LLM Client).
Implicit Types e : InstinctMCTS.t Client.

Lemma evolves_refl e : Growth.evolves e e.
Proof.
  unfold Growth.evolves. split; [apply heap_grows_refl |].
  do 10 (split; [reflexivity |]). split; [intros r Hr; exact Hr | intros H; exact H].
Qed.

Lemma evolves_trans e1 e2 e3 :
  Growth.evolves e1 e2 -> Growth.evolves e2 e3 -> Growth.evolves e1 e3.
Proof.
  intros (Hh1 & Ht1 & Hu1 & Hd1 & ? & ? & ? & ? & ? & ? & ? & Hr1 & Hc1)
         (Hh2 & Ht2 & Hu2 & Hd2 & ? & ? & ? & ? & ? & ? & ? & Hr2 & Hc2).
  split; [exact (heap_grows_trans _ _ _ Hh1 Hh2) |].
  split; [etrans; eassumption |]. split; [etrans; eassumption |].
  split; [lia |]. repeat (split; [congruence |]).
  split; [intros r Hr; apply Hr2, Hr1, Hr | tauto].
Qed.

(** An engine with the same tree and the same root. *)
Lemma evolves_fields e e' :
  InstinctMCTS.heap e' = InstinctMCTS.heap e ->
  InstinctMCTS.root e' = InstinctMCTS.root e ->
  InstinctMCTS.treeHistory e `prefix_of` InstinctMCTS.treeHistory e' ->
  InstinctMCTS.updates e `prefix_of` InstinctMCTS.updates e' ->
  InstinctMCTS.draws e <= InstinctMCTS.draws e' ->
  InstinctMCTS.problem e' = InstinctMCTS.problem e ->
  InstinctMCTS.context e' = InstinctMCTS.context e ->
  InstinctMCTS.explorationWeight e' = InstinctMCTS.explorationWeight e ->
  InstinctMCTS.instinctRatio e' = InstinctMCTS.instinctRatio e ->
  InstinctMCTS.confidenceBias e' = InstinctMCTS.confidenceBias e ->
  InstinctMCTS.perseveranceFactor e' = InstinctMCTS.perseveranceFactor e ->
  InstinctMCTS.onUpdate e' = InstinctMCTS.onUpdate e ->
  Growth.evolves e e'.
Proof.
  intros Hh Hr. intros. unfold Growth.evolves, Growth.consistent.
  rewrite Hh, Hr. split; [apply heap_grows_refl |].
  repeat (split; [assumption |]). split; [tauto | tauto].
Qed.

Ltac same_tree_fields :=
  apply evolves_fields; simpl; solve [reflexivity | lia | apply prefix_app_r; reflexivity].

Lemma evolves_set_llmClient c e : Growth.evolves e (InstinctMCTS.set_llmClient c e).
Proof. same_tree_fields. Qed.

Lemma evolves_set_selectedNode a e : Growth.evolves e (InstinctMCTS.set_selectedNode a e).
Proof. same_tree_fields. Qed.

Lemma evolves_set_draws k e :
  InstinctMCTS.draws e <= k -> Growth.evolves e (InstinctMCTS.set_draws k e).
Proof. intros Hk. apply evolves_fields; simpl; solve [reflexivity | lia]. Qed.

Lemma evolves_record s e :
  Growth.evolves e (InstinctMCTS.set_treeHistory (InstinctMCTS.treeHistory e ++ [s]) e).
Proof. same_tree_fields. Qed.

Lemma evolves_update s e :
  Growth.evolves e (InstinctMCTS.set_updates (InstinctMCTS.updates e ++ [s]) e).
Proof. same_tree_fields. Qed.

(** An engine with a later heap. *)
Lemma evolves_set_heap e h' :
  Growth.heap_grows (InstinctMCTS.heap e) h' ->
  (Shape.wf_heap (InstinctMCTS.heap e) -> Growth.linked (InstinctMCTS.heap e) ->
   Shape.wf_heap h' /\ Growth.linked h') ->
  Growth.evolves e (InstinctMCTS.set_heap h' e).
Proof.
  intros Hg Hkeep. unfold Growth.evolves, Growth.consistent. simpl.
  split; [exact Hg |]. do 10 (split; [reflexivity |]).
  split; [intros r Hr; exact Hr |]. intros (Hwf & Hl & Hroot).
  destruct (Hkeep Hwf Hl) as [Hwf' Hl']. split; [exact Hwf' |]. split; [exact Hl' |].
  intros r Hr. pose proof (heap_grows_length _ _ Hg). specialize (Hroot r Hr). lia.
Qed.

Lemma evolves_same_tree e h' :
  Growth.same_tree (InstinctMCTS.heap e) h' -> Growth.evolves e (InstinctMCTS.set_heap h' e).
Proof.
  intros Hs. apply evolves_set_heap; [apply same_tree_grows; exact Hs |].
  intros Hwf Hl. split; [eapply same_tree_wf | eapply same_tree_linked]; eassumption.
Qed.

(** *** The operations of the monad *)

Lemma keeps_ret {A} (a : A) : Growth.keeps (InstinctMCTS.ret (Client := Client) a).
Proof. intros e e' r H. injection H as <- _. apply evolves_refl. Qed.

Lemma keeps_throw {A} msg : Growth.keeps (InstinctMCTS.throw (Client := Client) (A := A) msg).
Proof. intros e e' r H. injection H as <- _. apply evolves_refl. Qed.

Lemma keeps_out_of_fuel {A} : Growth.keeps (InstinctMCTS.out_of_fuel (Client := Client) (A := A)).
Proof. intros e e' r H. discriminate. Qed.

Lemma keeps_get : Growth.keeps (InstinctMCTS.get (Client := Client)).
Proof. intros e e' r H. injection H as <- _. apply evolves_refl. Qed.

Lemma keeps_modify (f : InstinctMCTS.t Client -> InstinctMCTS.t Client) :
  (forall e, Growth.evolves e (f e)) -> Growth.keeps (InstinctMCTS.modify f).
Proof. intros Hf e e' r H. injection H as <- _. apply Hf. Qed.

Lemma keeps_bind {A B} (m : InstinctMCTS.M (Client := Client) A) (k : A -> InstinctMCTS.M B) :
  Growth.keeps m -> (forall a, Growth.keeps (k a)) -> Growth.keeps (InstinctMCTS.bind m k).
Proof.
  intros Hm Hk e e' r H. unfold InstinctMCTS.bind in H.
  destruct (m e) as [[e1 [a | msg]] |] eqn:E; [| | discriminate].
  - eapply evolves_trans; [exact (Hm _ _ _ E) | exact (Hk a _ _ _ H)].
  - injection H as <- _. exact (Hm _ _ _ E).
Qed.

(** [let e = this; ...]: what follows is run on the engine it reads. *)
Lemma keeps_get_bind {B} (k : InstinctMCTS.t Client -> InstinctMCTS.M B) :
  (forall e e' r, k e e = Some (e', r) -> Growth.evolves e e') ->
  Growth.keeps (InstinctMCTS.bind InstinctMCTS.get k).
Proof. intros Hk e e' r H. exact (Hk e e' r H). Qed.

Lemma keeps_catch {A} (m : InstinctMCTS.M (Client := Client) A) (handler : string -> InstinctMCTS.M A) :
  Growth.keeps m -> (forall msg, Growth.keeps (handler msg)) ->
  Growth.keeps (InstinctMCTS.catch m handler).
Proof.
  intros Hm Hh e e' r H. unfold InstinctMCTS.catch in H.
  destruct (m e) as [[e1 [a | msg]] |] eqn:E; [| | discriminate].
  - injection H as <- _. exact (Hm _ _ _ E).
  - eapply evolves_trans; [exact (Hm _ _ _ E) | exact (Hh msg _ _ _ H)].
Qed.

Lemma keeps_deref a : Growth.keeps (InstinctMCTS.deref (Client := Client) a).
Proof.
  intros e e' r H. unfold InstinctMCTS.deref in H.
  destruct (InstinctMCTS.heap e !! a); injection H as <- _; apply evolves_refl.
Qed.

Lemma keeps_update_node a (f : Node.t -> Node.t) :
  (forall n, Growth.node_grows n (f n) /\ Node.children (f n) = Node.children n) ->
  Growth.keeps (InstinctMCTS.update_node (Client := Client) a f).
Proof.
  intros Hf. apply keeps_modify. intros e.
  apply evolves_same_tree, alter_same_tree, Hf.
Qed.

Lemma keeps_call_generateCompletion prompt o :
  Growth.keeps (InstinctMCTS.call_generateCompletion llm prompt o).
Proof.
  intros e e' r H. unfold InstinctMCTS.call_generateCompletion in H.
  destruct (generateCompletion llm _ _ _) as [c r0]. injection H as <- _.
  apply evolves_set_llmClient.
Qed.

Lemma keeps_call_analyzeContent text :
  Growth.keeps (InstinctMCTS.call_analyzeContent llm text).
Proof.
  intros e e' r H. unfold InstinctMCTS.call_analyzeContent in H.
  destruct (analyzeContent llm _ _) as [c r0]. injection H as <- _.
  apply evolves_set_llmClient.
Qed.

Lemma keeps_Promise_all {A} (ms : list (InstinctMCTS.M (Client := Client) A)) :
  Forall Growth.keeps ms -> Growth.keeps (InstinctMCTS.Promise_all ms).
Proof.
  induction 1 as [| m ms Hm _ IH]; [apply keeps_ret |].
  intros e e' r H. simpl in H.
  destruct (m e) as [[e1 r1] |] eqn:E1; [| discriminate].
  destruct (InstinctMCTS.Promise_all ms e1) as [[e2 rs] |] eqn:E2; [| discriminate].
  injection H as <- _.
  eapply evolves_trans; [exact (Hm _ _ _ E1) | exact (IH _ _ _ E2)].
Qed.

Lemma keeps_getCurrentTreeState :
  Growth.keeps (InstinctMCTS._getCurrentTreeState (Client := Client)).
Proof.
  intros e e' r H. unfold InstinctMCTS._getCurrentTreeState in H.
  destruct (InstinctMCTS.root e); [| injection H as <- _; apply evolves_refl].
  destruct (Tree.nodeToObject _ _ _); injection H as <- _; apply evolves_refl.
Qed.

Lemma keeps_recordTreeState :
  Growth.keeps (InstinctMCTS._recordTreeState (Client := Client)).
Proof.
  apply keeps_bind; [apply keeps_getCurrentTreeState |].
  intros s. apply keeps_modify. intros e. apply evolves_record.
Qed.

Lemma keeps_notify : Growth.keeps (InstinctMCTS.notify (Client := Client)).
Proof.
  apply keeps_bind; [apply keeps_get |]. intros e0.
  destruct (InstinctMCTS.onUpdate e0); [| apply keeps_ret].
  apply keeps_bind; [apply keeps_getCurrentTreeState |].
  intros s. apply keeps_modify. intros e. apply evolves_update.
Qed.

(** *** The methods *)

Lemma keeps_select fuel : Growth.keeps (InstinctMCTS.select (Client := Client) host fuel).
Proof.
  intros e e' r H. unfold InstinctMCTS.select in H.
  destruct (InstinctMCTS.root e); [| injection H as <- _; apply evolves_refl].
  destruct (Tree.select_loop _ _ _ _ _ _) as [[node k] |] eqn:E; [| discriminate].
  injection H as <- _.
  destruct (select_loop_returns_leaf _ _ _ _ _ _ _ _ E) as (_ & Hk & _).
  eapply evolves_trans; [apply (evolves_set_draws k); exact Hk |].
  apply evolves_set_selectedNode.
Qed.

Lemma keeps_addChild node content :
  Growth.keeps (InstinctMCTS.addChild (Client := Client) host node content).
Proof.
  intros e e' r H. unfold InstinctMCTS.addChild in H.
  destruct (Node.addChild host _ _ node content) as [[[h k] child] |] eqn:E;
    [| injection H as <- _; apply evolves_refl].
  injection H as <- _.
  destruct (addChild_grows _ _ _ _ _ _ _ _ E) as [Hg Hk].
  eapply evolves_trans; [apply (evolves_set_heap e h); [exact Hg |] |].
  - intros Hwf Hl. split.
    + exact (proj1 (addChild_keeps_shape _ _ _ _ _ _ _ _ Hwf E)).
    + exact (addChild_linked _ _ _ _ _ _ _ _ Hwf Hl E).
  - apply evolves_set_draws. simpl. exact Hk.
Qed.

Lemma keeps_attach node : forall thoughts acc,
  Growth.keeps (InstinctMCTS.attach host llm node thoughts acc).
Proof.
  induction thoughts as [| t rest IH]; intros acc; [apply keeps_ret |].
  simpl. apply keeps_bind; [apply keeps_addChild |]. intros child.
  apply keeps_bind; [apply keeps_call_analyzeContent |]. intros analysis.
  apply keeps_bind; [apply keeps_update_node; intros n; apply set_metrics_grows |].
  intros _. apply IH.
Qed.

Lemma keeps_expand node numChildren :
  Growth.keeps (InstinctMCTS.expand host llm node numChildren).
Proof.
  unfold InstinctMCTS.expand.
  apply keeps_bind; [apply keeps_get |]. intros e0.
  apply keeps_bind; [apply keeps_deref |]. intros n.
  apply keeps_bind.
  { apply keeps_Promise_all. apply Forall_map, Forall_forall.
    intros prompt _. apply keeps_call_generateCompletion. }
  intros thoughts. apply keeps_bind; [apply keeps_attach |]. intros childNodes.
  apply keeps_bind; [apply keeps_get |]. intros e1.
  apply keeps_bind; [apply keeps_notify |]. intros _. apply keeps_ret.
Qed.

Lemma keeps_evaluate content pf : Growth.keeps (InstinctMCTS.evaluate llm content pf).
Proof.
  unfold InstinctMCTS.evaluate.
  apply keeps_bind; [apply keeps_get |]. intros e0.
  apply keeps_bind; [apply keeps_call_generateCompletion |]. intros evaluation.
  apply keeps_ret.
Qed.

Lemma keeps_simulate_189 node : Growth.keeps (InstinctMCTS.simulate_189 llm node).
Proof.
  unfold InstinctMCTS.simulate_189.
  apply keeps_catch; [| intros msg; apply keeps_ret].
  destruct node; try apply keeps_throw.
  - apply keeps_bind; [apply keeps_get |]. intros e0.
    apply keeps_bind; [apply keeps_call_generateCompletion |]. intros _. apply keeps_throw.
  - apply keeps_bind; [apply keeps_get |]. intros e0.
    apply keeps_bind; [apply keeps_call_generateCompletion |]. intros _. apply keeps_throw.
  - apply keeps_bind; [apply keeps_deref |]. intros n.
    apply keeps_bind; [apply keeps_evaluate |]. intros score. apply keeps_ret.
  - apply keeps_bind; [apply keeps_get |]. intros e0.
    apply keeps_bind; [apply keeps_call_generateCompletion |]. intros _. apply keeps_throw.
Qed.

Lemma keeps_backpropagate fuel node score :
  Growth.keeps (InstinctMCTS.backpropagate (Client := Client) fuel node score).
Proof.
  intros e e' r H. unfold InstinctMCTS.backpropagate in H.
  destruct (Tree.backpropagate_loop _ _ _ _) as [h |] eqn:E; [| discriminate].
  injection H as <- _. apply evolves_same_tree.
  exact (backpropagate_loop_same_tree _ _ _ _ _ E).
Qed.

Lemma keeps_getBestNode fuel : Growth.keeps (InstinctMCTS.getBestNode (Client := Client) fuel).
Proof.
  intros e e' r H. unfold InstinctMCTS.getBestNode in H.
  destruct (InstinctMCTS.root e); [| injection H as <- _; apply evolves_refl].
  destruct (Tree.getBestNode_loop _ _ _); [| discriminate].
  injection H as <- _. apply evolves_refl.
Qed.

(** What a sequence has done when it returns or throws. *)
Lemma bind_inv {A B} (m : InstinctMCTS.M (Client := Client) A) (k : A -> InstinctMCTS.M B)
    e e' r :
  InstinctMCTS.bind m k e = Some (e', r) ->
  (exists e1 a, m e = Some (e1, Ok a) /\ k a e1 = Some (e', r))
  \/ (exists msg, m e = Some (e', Error msg) /\ r = Error msg).
Proof.
  unfold InstinctMCTS.bind. destruct (m e) as [[e1 [a | msg]] |]; intros H.
  - left. eauto.
  - right. injection H as <- <-. eauto.
  - discriminate.
Qed.

Lemma evolves_set_root e (r : addr) :
  InstinctMCTS.root e = None -> r < length (InstinctMCTS.heap e) ->
  Growth.evolves e (InstinctMCTS.set_root (Some r) e).
Proof.
  intros Hnone Hr. unfold Growth.evolves, Growth.consistent. simpl.
  split; [apply heap_grows_refl |]. do 10 (split; [reflexivity |]).
  split; [intros r0 Hr0; congruence |].
  intros (Hwf & Hl & _). split; [exact Hwf |]. split; [exact Hl |].
  intros r0 Hr0. injection Hr0 as <-. exact Hr.
Qed.

(** [initialize()] on an engine that has no root. *)
Lemma initialize_evolves e e' r :
  InstinctMCTS.root e = None ->
  InstinctMCTS.initialize host llm e = Some (e', r) -> Growth.evolves e e'.
Proof.
  intros Hnone H. unfold InstinctMCTS.initialize in H.
  change (InstinctMCTS.bind InstinctMCTS.get ?k e) with (k e e) in H.
  apply bind_inv in H as [(e1 & response & Hgen & H) | (msg & Hgen & _)];
    [| exact (keeps_call_generateCompletion _ _ _ _ _ Hgen)].
  assert (Hroot1 : InstinctMCTS.root e1 = None).
  { unfold InstinctMCTS.call_generateCompletion in Hgen.
    destruct (generateCompletion llm _ _ _) as [c r0]. injection Hgen as <- _. exact Hnone. }
  eapply evolves_trans; [exact (keeps_call_generateCompletion _ _ _ _ _ Hgen) |].
  apply bind_inv in H as [(e2 & a & Halloc & H) | (msg & Halloc & _)];
    [| discriminate].
  unfold InstinctMCTS.alloc, Node.new in Halloc. injection Halloc as <- <-.
  destruct (new_root_grows host (InstinctMCTS.heap e1) (InstinctMCTS.draws e1) response
              (InstinctMCTS.explorationWeight e) (InstinctMCTS.confidenceBias e)
              (InstinctMCTS.perseveranceFactor e)) as (Hg & Hwf & Hl).
  eapply evolves_trans; [apply evolves_set_heap; [exact Hg | tauto] |].
  eapply evolves_trans; [apply (evolves_set_draws (InstinctMCTS.draws e1 + 6)); simpl; lia |].
  apply bind_inv in H as [(e3 & ? & Hset & H) | (msg & Hset & _)]; [| discriminate].
  injection Hset as <- _.
  eapply evolves_trans.
  { apply (evolves_set_root _ (length (InstinctMCTS.heap e1))); simpl;
      [exact Hroot1 | rewrite length_app; simpl; lia]. }
  revert H. generalize (InstinctMCTS.set_root (Some (length (InstinctMCTS.heap e1)))
    (InstinctMCTS.set_draws (InstinctMCTS.draws e1 + 6)
       (InstinctMCTS.set_heap
          (InstinctMCTS.heap e1 ++
           [Node.construct host (InstinctMCTS.heap e1) (InstinctMCTS.draws e1) response None
              (InstinctMCTS.explorationWeight e) (InstinctMCTS.confidenceBias e)
              (InstinctMCTS.perseveranceFactor e)]) e1))).
  intros e3 H. revert e3 e' r H.
  change (Growth.keeps
    (InstinctMCTS.bind (InstinctMCTS.call_analyzeContent llm response) (fun analysis =>
       InstinctMCTS.bind
         (InstinctMCTS.update_node (length (InstinctMCTS.heap e1)) (fun n =>
            Node.set_metrics
              (num_div (a_emotionalState analysis) (Fin 10))
              (num_div (a_instinctVsAnalysis analysis) (Fin 10))
              (Node.confidence n) (Node.perseverance n) n))
         (fun _ => InstinctMCTS.bind InstinctMCTS._recordTreeState
                     (fun _ => InstinctMCTS.ret (length (InstinctMCTS.heap e1))))))).
  apply keeps_bind; [apply keeps_call_analyzeContent |]. intros analysis.
  apply keeps_bind; [apply keeps_update_node; intros n; apply set_metrics_grows |].
  intros _. apply keeps_bind; [apply keeps_recordTreeState |]. intros _. apply keeps_ret.
Qed.

Section Methods.
Context (this_simulate : jsval -> jsval -> InstinctMCTS.M (Client := Client) jsval).
Context (Hthis : forall a1 a2, Growth.keeps (this_simulate a1 a2)).

Lemma keeps_search_step fuel :
  Growth.keeps (InstinctMCTS.search_step host llm this_simulate fuel).
Proof.
  unfold InstinctMCTS.search_step.
  apply keeps_bind; [apply keeps_select |]. intros selected.
  apply keeps_bind; [apply keeps_deref |]. intros n.
  apply keeps_bind.
  { destruct (length (Node.children n) <? 2)%nat; [apply keeps_expand | apply keeps_ret]. }
  intros leaf. apply keeps_bind; [apply Hthis |]. intros score.
  apply keeps_bind; [apply keeps_backpropagate |]. intros _.
  apply keeps_bind; [apply keeps_recordTreeState |]. intros _. apply keeps_notify.
Qed.

Lemma keeps_search_loop : forall fuel i numSimulations,
  Growth.keeps (InstinctMCTS.search_loop host llm this_simulate fuel i numSimulations).
Proof.
  induction fuel as [| f IH]; intros i numSimulations; [apply keeps_out_of_fuel |].
  simpl. destruct (js_lt _ _); [| apply keeps_ret].
  apply keeps_bind; [apply keeps_search_step |]. intros _. apply IH.
Qed.

Lemma keeps_search fuel numSimulations :
  Growth.keeps (InstinctMCTS.search host llm this_simulate fuel numSimulations).
Proof.
  unfold InstinctMCTS.search.
  apply keeps_bind; [apply keeps_search_loop |]. intros _. apply keeps_getBestNode.
Qed.

Lemma keeps_simulate_loop : forall fuel i iterations sims bestNode bestScore,
  Growth.keeps (InstinctMCTS.simulate_loop host llm this_simulate fuel i iterations sims
                  bestNode bestScore).
Proof.
  induction fuel as [| f IH]; intros i iterations sims bestNode bestScore;
    [apply keeps_out_of_fuel |].
  simpl. destruct (js_lt _ _); [| apply keeps_ret].
  apply keeps_bind; [apply keeps_search |]. intros _.
  apply keeps_bind; [apply keeps_getBestNode |]. intros currentBest.
  apply keeps_bind; [apply Hthis |]. intros score.
  destruct (js_gt _ _); apply IH.
Qed.

Lemma keeps_simulate_305 fuel a1 a2 :
  Growth.keeps (InstinctMCTS.simulate_305 host llm this_simulate fuel a1 a2).
Proof.
  unfold InstinctMCTS.simulate_305. apply keeps_get_bind. intros e e' r H.
  apply bind_inv in H as [(e1 & ? & Hinit & H) | (msg & Hinit & _)].
  - eapply evolves_trans.
    + destruct (InstinctMCTS.root e) eqn:Hroot.
      * exact (keeps_ret _ _ _ _ Hinit).
      * apply bind_inv in Hinit as [(e0 & a & Hi & Hret) | (msg & Hi & _)].
        -- injection Hret as <- _. exact (initialize_evolves _ _ _ Hroot Hi).
        -- exact (initialize_evolves _ _ _ Hroot Hi).
    + clear Hinit. revert e1 e' r H.
      apply keeps_bind; [apply keeps_get |]. intros e0.
      apply keeps_bind; [apply keeps_simulate_loop |]. intros best.
      destruct (fst best); [| apply keeps_throw].
      apply keeps_bind; [apply keeps_deref |]. intros nd.
      apply keeps_bind; [apply keeps_get |]. intros e2.
      apply keeps_bind; [apply keeps_getCurrentTreeState |]. intros final.
      apply keeps_ret.
  - destruct (InstinctMCTS.root e) eqn:Hroot; [discriminate |].
    apply bind_inv in Hinit as [(e0 & a & Hi & Hret) | (msg' & Hi & _)].
    + discriminate.
    + exact (initialize_evolves _ _ _ Hroot Hi).
Qed.
End Methods.

Lemma keeps_simulate : forall fuel a1 a2,
  Growth.keeps (InstinctMCTS.simulate host llm fuel a1 a2).
Proof.
  induction fuel as [| f IH]; intros a1 a2; [apply keeps_out_of_fuel |].
  rewrite simulate_S. apply keeps_simulate_305. exact IH.
Qed.

Lemma keeps_run_search fuel numSimulations :
  Growth.keeps (InstinctMCTS.run_search host llm fuel numSimulations).
Proof. apply keeps_search, keeps_simulate. Qed.
End Keeps.

(** X12: the methods keep the tree in order and only add to it.  An
    engine just made has a tree in order.  Whether they return or throw,
    [select], [expand], [backpropagate], [getBestNode], [search] and
    [simulate] leave a later engine, and so does [initialize] on an
    engine without a root: every node is still at its place with the
    same identifier, content, parent, depth, path and coefficients, its
    children extended at the end and its visits not decreased; the
    history and the updates are extended at the end; the root, once
    set, and the options of the engine are the same; and the tree is in
    order if it was: parents are allocated before their children, the
    links between parents and children agree, [depth] and [path] are
    those of the parent plus one level, and the root is in the heap. *)
Theorem engine_keeps_its_tree :
  forall (host : Host) (Client : Type) (llm : LLM Client),
    (forall c problem context ew ir cb pf,
       Growth.consistent (InstinctMCTS.new (Client := Client) c problem context ew ir cb pf)) /\
    (forall e e' r,
       InstinctMCTS.root e = None ->
       InstinctMCTS.initialize host llm e = Some (e', r) -> Growth.evolves e e') /\
    (forall fuel, Growth.keeps (InstinctMCTS.select (Client := Client) host fuel)) /\
    (forall node k, Growth.keeps (InstinctMCTS.expand host llm node k)) /\
    (forall fuel node score,
       Growth.keeps (InstinctMCTS.backpropagate (Client := Client) fuel node score)) /\
    (forall fuel, Growth.keeps (InstinctMCTS.getBestNode (Client := Client) fuel)) /\
    (forall fuel numSimulations,
       Growth.keeps (InstinctMCTS.run_search host llm fuel numSimulations)) /\
    (forall fuel a1 a2, Growth.keeps (InstinctMCTS.simulate host llm fuel a1 a2)).
Proof.
  intros host Client llm. split.
  { intros. split; [apply wf_heap_nil |]. split; [| intros r Hr; discriminate].
    intros a n Hn. discriminate. }
  split; [intros e e' r; apply initialize_evolves |].
  split; [apply keeps_select |]. split; [apply keeps_expand |].
  split; [apply keeps_backpropagate |]. split; [apply keeps_getBestNode |].
  split; [apply keeps_run_search | apply keeps_simulate].
Qed.

Lemma engine_keeps_its_tree_witness :
  exists e' r,
    InstinctMCTS.simulate Runs.host Examples.scripted 10 (VNum (Fin 1)) (VNum (Fin 1))
      (Runs.fresh Runs.scoring (Fin (7#10))) = Some (e', r) /\
    Growth.consistent e' /\ length (InstinctMCTS.heap e') = 3.
Proof.
  destruct (InstinctMCTS.simulate Runs.host Examples.scripted 10 (VNum (Fin 1)) (VNum (Fin 1))
              (Runs.fresh Runs.scoring (Fin (7#10)))) as [[e' r] |] eqn:E;
    [| vm_compute in E; discriminate].
  exists e', r. split; [reflexivity |].
  destruct (engine_keeps_its_tree Runs.host Examples.Script Examples.scripted)
    as (Hnew & _ & _ & _ & _ & _ & _ & Hsim).
  split.
  - destruct (Hsim 10 _ _ _ _ _ E) as (_ & _ & _ & _ & _ & _ & _ & _ & _ & _ & _ & _ & Hkeep).
    apply Hkeep. apply Hnew.
  - vm_compute in E. injection E as <- _. reflexivity.
Defined.

(** ** [initialize] and [expand], when the collaborator answers *)

Lemma alter_last {A : Type} (f : A -> A) (l : list A) (x : A) :
  alter f (length l) (l ++ [x]) = l ++ [f x].
Proof. induction l as [| a l IH]; [reflexivity |]. cbn. f_equal. exact IH. Qed.

Lemma lookup_last {A : Type} (l : list A) (x : A) : (l ++ [x]) !! length l = Some x.
Proof. rewrite lookup_app_r, Nat.sub_diag by lia. reflexivity. Qed.

Ltac engine_fields :=
  cbn [InstinctMCTS.llmClient InstinctMCTS.problem InstinctMCTS.context
       InstinctMCTS.explorationWeight InstinctMCTS.instinctRatio
       InstinctMCTS.confidenceBias InstinctMCTS.perseveranceFactor InstinctMCTS.root
       InstinctMCTS.selectedNode InstinctMCTS.treeHistory InstinctMCTS.onUpdate
       InstinctMCTS.updates InstinctMCTS.heap InstinctMCTS.draws
       InstinctMCTS.set_llmClient InstinctMCTS.set_root InstinctMCTS.set_selectedNode
       InstinctMCTS.set_treeHistory InstinctMCTS.set_onUpdate InstinctMCTS.set_updates
       InstinctMCTS.set_heap InstinctMCTS.set_draws].

Section Answers.
Context (host : Host) {Client : Type} (llm : LLM Client).

(** The engine [initialize] leaves when both requests succeed. *)
Lemma initialize_success (e : InstinctMCTS.t Client) c1 response c2 a :
  generateCompletion llm (InstinctMCTS.llmClient e)
    (InstinctMCTS.initialPrompt (InstinctMCTS.problem e) (InstinctMCTS.context e))
    {| temperature := Some (Fin (7#10)); maxTokens := None |} = (c1, Ok response) ->
  analyzeContent llm c1 response = (c2, Ok a) ->
  let n := Node.set_metrics
             (num_div (a_emotionalState a) (Fin 10))
             (num_div (a_instinctVsAnalysis a) (Fin 10))
             (Fin (1#2)) (Fin (1#2))
             (Node.construct host (InstinctMCTS.heap e) (InstinctMCTS.draws e) response None
                (InstinctMCTS.explorationWeight e) (InstinctMCTS.confidenceBias e)
                (InstinctMCTS.perseveranceFactor e)) in
  let h' := InstinctMCTS.heap e ++ [n] in
  let s := {| tree := TreeNode (Node.id n) response 0 (SNum (Fin 0))
                        (num_div (a_emotionalState a) (Fin 10))
                        (num_div (a_instinctVsAnalysis a) (Fin 10))
                        (Fin (1#2)) (Fin (1#2)) [];
              selectedNodeId :=
                InstinctMCTS.selectedNode e ≫= (fun x => Node.id <$> h' !! x) |} in
  InstinctMCTS.initialize host llm e
  = Some (InstinctMCTS.mk c2 (InstinctMCTS.problem e) (InstinctMCTS.context e)
            (InstinctMCTS.explorationWeight e) (InstinctMCTS.instinctRatio e)
            (InstinctMCTS.confidenceBias e) (InstinctMCTS.perseveranceFactor e)
            (Some (length (InstinctMCTS.heap e))) (InstinctMCTS.selectedNode e)
            (InstinctMCTS.treeHistory e ++ [s]) (InstinctMCTS.onUpdate e)
            (InstinctMCTS.updates e) h' (InstinctMCTS.draws e + 6),
          Ok (length (InstinctMCTS.heap e))).
Proof.
  intros Hgen Hana n h' s.
  unfold InstinctMCTS.initialize.
  unfold InstinctMCTS.bind at 1, InstinctMCTS.get at 1.
  unfold InstinctMCTS.bind at 1, InstinctMCTS.call_generateCompletion at 1. rewrite Hgen.
  unfold InstinctMCTS.bind at 1, InstinctMCTS.alloc at 1, Node.new. engine_fields.
  unfold InstinctMCTS.bind at 1, InstinctMCTS.modify at 1.
  unfold InstinctMCTS.bind at 1, InstinctMCTS.call_analyzeContent at 1. engine_fields.
  rewrite Hana.
  unfold InstinctMCTS.bind at 1, InstinctMCTS.update_node at 1, InstinctMCTS.modify at 1.
  engine_fields. rewrite alter_last.
  unfold InstinctMCTS.bind at 1, InstinctMCTS._recordTreeState.
  unfold InstinctMCTS.bind at 1, InstinctMCTS._getCurrentTreeState. engine_fields.
  rewrite length_app. cbn [length]. rewrite Nat.add_1_r.
  rewrite nodeToObject_unfold, lookup_last. reflexivity.
Qed.

(** The engine [initialize] leaves when the analysis fails: the root is
    set and has the metrics of a new node. *)
Lemma initialize_analysis_failure (e : InstinctMCTS.t Client) c1 response c2 msg :
  generateCompletion llm (InstinctMCTS.llmClient e)
    (InstinctMCTS.initialPrompt (InstinctMCTS.problem e) (InstinctMCTS.context e))
    {| temperature := Some (Fin (7#10)); maxTokens := None |} = (c1, Ok response) ->
  analyzeContent llm c1 response = (c2, Error msg) ->
  InstinctMCTS.initialize host llm e
  = Some (InstinctMCTS.mk c2 (InstinctMCTS.problem e) (InstinctMCTS.context e)
            (InstinctMCTS.explorationWeight e) (InstinctMCTS.instinctRatio e)
            (InstinctMCTS.confidenceBias e) (InstinctMCTS.perseveranceFactor e)
            (Some (length (InstinctMCTS.heap e))) (InstinctMCTS.selectedNode e)
            (InstinctMCTS.treeHistory e) (InstinctMCTS.onUpdate e)
            (InstinctMCTS.updates e)
            (InstinctMCTS.heap e ++
             [Node.construct host (InstinctMCTS.heap e) (InstinctMCTS.draws e) response None
                (InstinctMCTS.explorationWeight e) (InstinctMCTS.confidenceBias e)
                (InstinctMCTS.perseveranceFactor e)])
            (InstinctMCTS.draws e + 6),
          Error msg).
Proof.
  intros Hgen Hana.
  unfold InstinctMCTS.initialize.
  unfold InstinctMCTS.bind at 1, InstinctMCTS.get at 1.
  unfold InstinctMCTS.bind at 1, InstinctMCTS.call_generateCompletion at 1. rewrite Hgen.
  unfold InstinctMCTS.bind at 1, InstinctMCTS.alloc at 1, Node.new. engine_fields.
  unfold InstinctMCTS.bind at 1, InstinctMCTS.modify at 1.
  unfold InstinctMCTS.bind at 1, InstinctMCTS.call_analyzeContent at 1. engine_fields.
  rewrite Hana. reflexivity.
Qed.

Lemma initialize_generation_failure (e : InstinctMCTS.t Client) c1 msg :
  generateCompletion llm (InstinctMCTS.llmClient e)
    (InstinctMCTS.initialPrompt (InstinctMCTS.problem e) (InstinctMCTS.context e))
    {| temperature := Some (Fin (7#10)); maxTokens := None |} = (c1, Error msg) ->
  InstinctMCTS.initialize host llm e = Some (InstinctMCTS.set_llmClient c1 e, Error msg).
Proof.
  intros Hgen. unfold InstinctMCTS.initialize.
  unfold InstinctMCTS.bind at 1, InstinctMCTS.get at 1.
  unfold InstinctMCTS.bind at 1, InstinctMCTS.call_generateCompletion at 1. rewrite Hgen.
  reflexivity.
Qed.
End Answers.

(** X13: what [initialize()] leaves, [gen] being the answer to its
    request for an initial approach.  If that request fails,
    [initialize] fails with its error and the engine has no new node and
    the root it had.  Otherwise a node without parent or children, with
    the answer for content, is added to the heap and is the root, even
    when the analysis of the answer then fails: in that case [initialize]
    fails with the error of the analysis, the root keeps the metrics of
    a new node and no snapshot is recorded.  When the analysis succeeds,
    the root's [emotionalState] and [instinctWeight] are a tenth of its
    [emotionalState] and [instinctVsAnalysis], the root is returned, and
    one snapshot, of the root alone, is added to the history. *)
Theorem initialize_outcomes :
  forall (host : Host) (Client : Type) (llm : LLM Client) (e : InstinctMCTS.t Client)
         (c1 : Client) (gen : result string),
    generateCompletion llm (InstinctMCTS.llmClient e)
      (InstinctMCTS.initialPrompt (InstinctMCTS.problem e) (InstinctMCTS.context e))
      {| temperature := Some (Fin (7#10)); maxTokens := None |} = (c1, gen) ->
    exists e' r,
      InstinctMCTS.initialize host llm e = Some (e', r) /\
      match gen with
      | Error msg =>
          r = Error msg /\ InstinctMCTS.heap e' = InstinctMCTS.heap e /\
          InstinctMCTS.root e' = InstinctMCTS.root e /\
          InstinctMCTS.treeHistory e' = InstinctMCTS.treeHistory e
      | Ok response =>
          exists n,
            InstinctMCTS.heap e' = InstinctMCTS.heap e ++ [n] /\
            InstinctMCTS.root e' = Some (length (InstinctMCTS.heap e)) /\
            Node.content n = response /\ Node.parent n = None /\ Node.children n = [] /\
            Node.visits n = 0 /\ Node.depth n = 0 /\
            Node.confidence n = Fin (1#2) /\ Node.perseverance n = Fin (1#2) /\
            match snd (analyzeContent llm c1 response) with
            | Error msg =>
                r = Error msg /\
                InstinctMCTS.treeHistory e' = InstinctMCTS.treeHistory e /\
                Node.emotionalState n = Fin (1#2) /\ Node.instinctWeight n = Fin (1#2)
            | Ok a =>
                r = Ok (length (InstinctMCTS.heap e)) /\
                Node.emotionalState n = num_div (a_emotionalState a) (Fin 10) /\
                Node.instinctWeight n = num_div (a_instinctVsAnalysis a) (Fin 10) /\
                exists s,
                  InstinctMCTS.treeHistory e' = InstinctMCTS.treeHistory e ++ [s] /\
                  tree s = TreeNode (Node.id n) response 0 (SNum (Fin 0))
                             (Node.emotionalState n) (Node.instinctWeight n)
                             (Fin (1#2)) (Fin (1#2)) []
            end
      end.
Proof.
  intros host Client llm e c1 [response | msg] Hgen.
  - destruct (analyzeContent llm c1 response) as [c2 [a | msg]] eqn:Hana.
    + do 2 eexists. split; [exact (initialize_success host llm e c1 response c2 a Hgen Hana) |].
      eexists. split; [reflexivity |]. simpl.
      do 8 (split; [reflexivity |]). do 3 (split; [reflexivity |]).
      eexists. split; reflexivity.
    + do 2 eexists.
      split; [exact (initialize_analysis_failure host llm e c1 response c2 msg Hgen Hana) |].
      eexists. split; [reflexivity |]. simpl. repeat split; reflexivity.
  - do 2 eexists. split; [exact (initialize_generation_failure host llm e c1 msg Hgen) |].
    repeat split; reflexivity.
Qed.

Lemma initialize_outcomes_witness :
  exists e' n,
    InstinctMCTS.initialize Runs.host Examples.scripted (Runs.fresh Runs.scoring (Fin (7#10)))
    = Some (e', Ok 0) /\
    InstinctMCTS.heap e' = [n] /\ InstinctMCTS.root e' = Some 0 /\
    Node.content n = "root approach" /\
    Node.emotionalState n = Fin (1#2) /\ Node.instinctWeight n = Fin (3#5) /\
    length (InstinctMCTS.treeHistory e') = 1.
Proof.
  destruct (initialize_outcomes Runs.host Examples.Script Examples.scripted
              (Runs.fresh Runs.scoring (Fin (7#10)))
              {| Examples.completions := [Ok "keep going"; Ok "stop now"; Ok "8"; Ok "8"];
                 Examples.analyses := [Runs.in_range; Runs.in_range; Runs.in_range] |}
              (Ok "root approach") eq_refl)
    as (e' & r & Hrun & n & Hheap & Hroot & Hcontent & _ & _ & _ & _ & _ & _ & Hana).
  simpl in Hana. destruct Hana as (-> & Hes & Hiw & s & Hhist & _).
  exists e', n. split; [exact Hrun |]. split; [exact Hheap |]. split; [exact Hroot |].
  split; [exact Hcontent |]. split; [exact Hes |]. split; [exact Hiw |].
  rewrite Hhist. reflexivity.
Defined.

(** ** The children [expand] makes *)



Section Children.
Context (host : Host) {Client : Type} (llm : LLM Client).

End Children.

Lemma sort_insert_elem h (a : addr) l x :
  x ∈ Tree.sort_insert h a l <-> x = a \/ x ∈ l.
Proof.
  induction l as [| b l IH]; simpl.
  - rewrite list_elem_of_singleton. split; [intros ->; left; reflexivity |].
    intros [-> | H]; [reflexivity | inversion H].
  - destruct (Tree.sorts_after h a b).
    + rewrite !elem_of_cons, IH. tauto.
    + rewrite !elem_of_cons. tauto.
Qed.

Lemma sort_by_instinct_elem h l x : x ∈ Tree.sort_by_instinct h l <-> x ∈ l.
Proof.
  induction l as [| a l IH]; [reflexivity |].
  change (Tree.sort_by_instinct h (a :: l))
    with (Tree.sort_insert h a (Tree.sort_by_instinct h l)).
  rewrite sort_insert_elem, IH, elem_of_cons. reflexivity.
Qed.




Section Expansion.
Context (host : Host) {Client : Type} (llm : LLM Client).



End Expansion.



(** ** The engine with [OpenRouterClient] for collaborator *)





(** ** One snapshot for each step of [search] *)

Section Quiet.
Context (host : Host) {Client : Type} (llm : LLM Client).
Implicit Types e : InstinctMCTS.t Client.

Lemma quiet_ret {A} (a : A) : Growth.quiet (InstinctMCTS.ret (Client := Client) a).
Proof. intros e e' r H. injection H as <- _. split; reflexivity. Qed.

Lemma quiet_throw {A} msg : Growth.quiet (InstinctMCTS.throw (Client := Client) (A := A) msg).
Proof. intros e e' r H. injection H as <- _. split; reflexivity. Qed.

Lemma quiet_get : Growth.quiet (InstinctMCTS.get (Client := Client)).
Proof. intros e e' r H. injection H as <- _. split; reflexivity. Qed.

Lemma quiet_modify (f : InstinctMCTS.t Client -> InstinctMCTS.t Client) :
  (forall e, InstinctMCTS.treeHistory (f e) = InstinctMCTS.treeHistory e
             /\ InstinctMCTS.root (f e) = InstinctMCTS.root e) ->
  Growth.quiet (InstinctMCTS.modify f).
Proof. intros Hf e e' r H. injection H as <- _. apply Hf. Qed.

Lemma quiet_bind {A B} (m : InstinctMCTS.M (Client := Client) A) (k : A -> InstinctMCTS.M B) :
  Growth.quiet m -> (forall a, Growth.quiet (k a)) -> Growth.quiet (InstinctMCTS.bind m k).
Proof.
  intros Hm Hk e e' r H. unfold InstinctMCTS.bind in H.
  destruct (m e) as [[e1 [a | msg]] |] eqn:E; [| | discriminate].
  - destruct (Hm _ _ _ E) as [Ht1 Hr1]. destruct (Hk a _ _ _ H) as [Ht2 Hr2].
    split; congruence.
  - injection H as <- _. exact (Hm _ _ _ E).
Qed.

Lemma quiet_deref a : Growth.quiet (InstinctMCTS.deref (Client := Client) a).
Proof.
  intros e e' r H. unfold InstinctMCTS.deref in H.
  destruct (InstinctMCTS.heap e !! a); injection H as <- _; split; reflexivity.
Qed.

Lemma quiet_update_node a (f : Node.t -> Node.t) :
  Growth.quiet (InstinctMCTS.update_node (Client := Client) a f).
Proof. apply quiet_modify. intros e. split; reflexivity. Qed.

Lemma quiet_call_generateCompletion prompt o :
  Growth.quiet (InstinctMCTS.call_generateCompletion llm prompt o).
Proof.
  intros e e' r H. unfold InstinctMCTS.call_generateCompletion in H.
  destruct (generateCompletion llm _ _ _) as [c r0]. injection H as <- _. split; reflexivity.
Qed.

Lemma quiet_call_analyzeContent text :
  Growth.quiet (InstinctMCTS.call_analyzeContent llm text).
Proof.
  intros e e' r H. unfold InstinctMCTS.call_analyzeContent in H.
  destruct (analyzeContent llm _ _) as [c r0]. injection H as <- _. split; reflexivity.
Qed.

Lemma quiet_Promise_all {A} (ms : list (InstinctMCTS.M (Client := Client) A)) :
  Forall Growth.quiet ms -> Growth.quiet (InstinctMCTS.Promise_all ms).
Proof.
  induction 1 as [| m ms Hm _ IH]; [apply quiet_ret |].
  intros e e' r H. simpl in H.
  destruct (m e) as [[e1 r1] |] eqn:E1; [| discriminate].
  destruct (InstinctMCTS.Promise_all ms e1) as [[e2 rs] |] eqn:E2; [| discriminate].
  injection H as <- _.
  destruct (Hm _ _ _ E1) as [Ht1 Hr1]. destruct (IH _ _ _ E2) as [Ht2 Hr2].
  split; congruence.
Qed.

Lemma quiet_getCurrentTreeState :
  Growth.quiet (InstinctMCTS._getCurrentTreeState (Client := Client)).
Proof.
  intros e e' r H. unfold InstinctMCTS._getCurrentTreeState in H.
  destruct (InstinctMCTS.root e) eqn:Hroot;
    [| injection H as <- _; split; [reflexivity | congruence]].
  destruct (Tree.nodeToObject _ _ _); injection H as <- _; split; reflexivity || congruence.
Qed.

Lemma quiet_notify : Growth.quiet (InstinctMCTS.notify (Client := Client)).
Proof.
  apply quiet_bind; [apply quiet_get |]. intros e0.
  destruct (InstinctMCTS.onUpdate e0); [| apply quiet_ret].
  apply quiet_bind; [apply quiet_getCurrentTreeState |].
  intros s. apply quiet_modify. intros e. split; reflexivity.
Qed.

Lemma quiet_select fuel : Growth.quiet (InstinctMCTS.select (Client := Client) host fuel).
Proof.
  intros e e' r H. unfold InstinctMCTS.select in H.
  destruct (InstinctMCTS.root e) eqn:Hroot;
    [| injection H as <- _; split; [reflexivity | congruence]].
  destruct (Tree.select_loop _ _ _ _ _ _) as [[node k] |]; [| discriminate].
  injection H as <- _. split; [reflexivity | simpl; congruence].
Qed.

Lemma quiet_addChild node content :
  Growth.quiet (InstinctMCTS.addChild (Client := Client) host node content).
Proof.
  intros e e' r H. unfold InstinctMCTS.addChild in H.
  destruct (Node.addChild host _ _ node content) as [[[h k] child] |];
    injection H as <- _; split; reflexivity.
Qed.

Lemma quiet_attach node : forall thoughts acc,
  Growth.quiet (InstinctMCTS.attach host llm node thoughts acc).
Proof.
  induction thoughts as [| t rest IH]; intros acc; [apply quiet_ret |].
  simpl. apply quiet_bind; [apply quiet_addChild |]. intros child.
  apply quiet_bind; [apply quiet_call_analyzeContent |]. intros analysis.
  apply quiet_bind; [apply quiet_update_node |]. intros _. apply IH.
Qed.

Lemma quiet_expand node numChildren :
  Growth.quiet (InstinctMCTS.expand host llm node numChildren).
Proof.
  unfold InstinctMCTS.expand.
  apply quiet_bind; [apply quiet_get |]. intros e0.
  apply quiet_bind; [apply quiet_deref |]. intros n.
  apply quiet_bind.
  { apply quiet_Promise_all. apply Forall_map, Forall_forall.
    intros prompt _. apply quiet_call_generateCompletion. }
  intros thoughts. apply quiet_bind; [apply quiet_attach |]. intros childNodes.
  apply quiet_bind; [apply quiet_get |]. intros e1.
  apply quiet_bind; [apply quiet_notify |]. intros _. apply quiet_ret.
Qed.

Lemma quiet_backpropagate fuel node score :
  Growth.quiet (InstinctMCTS.backpropagate (Client := Client) fuel node score).
Proof.
  intros e e' r H. unfold InstinctMCTS.backpropagate in H.
  destruct (Tree.backpropagate_loop _ _ _ _) as [h |]; [| discriminate].
  injection H as <- _. split; reflexivity.
Qed.

Lemma quiet_getBestNode fuel : Growth.quiet (InstinctMCTS.getBestNode (Client := Client) fuel).
Proof.
  intros e e' r H. unfold InstinctMCTS.getBestNode in H.
  destruct (InstinctMCTS.root e) eqn:Hroot;
    [| injection H as <- _; split; [reflexivity | congruence]].
  destruct (Tree.getBestNode_loop _ _ _); [| discriminate].
  injection H as <- _. split; [reflexivity | congruence].
Qed.

(** *** [expand(node, 2)] returns a node *)

Lemma Promise_all_length {A} (ms : list (InstinctMCTS.M (Client := Client) A)) :
  forall e e' l, InstinctMCTS.Promise_all ms e = Some (e', Ok l) -> length l = length ms.
Proof.
  induction ms as [| m ms IH]; intros e e' l H; simpl in H.
  - injection H as _ <-. reflexivity.
  - destruct (m e) as [[e1 r1] |]; [| discriminate].
    destruct (InstinctMCTS.Promise_all ms e1) as [[e2 rs] |] eqn:E2; [| discriminate].
    destruct r1 as [a | msg]; [| discriminate].
    destruct rs as [l' | msg]; [| discriminate].
    injection H as _ <-. simpl. rewrite (IH _ _ _ E2). reflexivity.
Qed.

Lemma attach_length node : forall thoughts acc e e' l,
  InstinctMCTS.attach host llm node thoughts acc e = Some (e', Ok l) ->
  length l = length acc + length thoughts.
Proof.
  induction thoughts as [| t rest IH]; intros acc e e' l H.
  - injection H as _ <-. simpl. lia.
  - simpl in H.
    apply bind_ok_inv in H as (e1 & child & _ & H).
    apply bind_ok_inv in H as (e2 & analysis & _ & H).
    apply bind_ok_inv in H as (e3 & ? & _ & H).
    apply IH in H. rewrite H, length_app. simpl. lia.
Qed.

Lemma expand_returns_a_node node k e e' best :
  InstinctMCTS.expand host llm node (S k) e = Some (e', Ok best) -> is_Some best.
Proof.
  intros H. unfold InstinctMCTS.expand in H.
  apply bind_ok_inv in H as (e0 & ? & _ & H).
  apply bind_ok_inv in H as (e1 & n & _ & H).
  apply bind_ok_inv in H as (e2 & thoughts & Hall & H).
  apply bind_ok_inv in H as (e3 & childNodes & Hattach & H).
  apply bind_ok_inv in H as (e4 & ? & _ & H).
  apply bind_ok_inv in H as (e5 & ? & _ & H).
  injection H as _ <-.
  apply Promise_all_length in Hall. rewrite length_map, repeat_length in Hall.
  apply attach_length in Hattach. rewrite Hall in Hattach. simpl in Hattach.
  destruct childNodes as [| c cs]; [discriminate |].
  match goal with
  | |- is_Some (head (Tree.sort_by_instinct ?h ?l)) =>
      assert (Hin : c ∈ Tree.sort_by_instinct h l) by (apply sort_by_instinct_elem; left);
      destruct (Tree.sort_by_instinct h l); [inversion Hin | simpl; eauto]
  end.
Qed.

(** *** [this.simulate(node)] in [search] *)

Lemma js_lt_number_node x a : js_lt (VNum x) (VNode a) = false.
Proof. unfold js_lt. simpl. destruct x; reflexivity. Qed.

Lemma simulate_loop_done this_simulate f i iterations sims
    (bestNode : option addr) (bestScore : jsval) :
  js_lt (VNum (of_nat i)) iterations = false ->
  InstinctMCTS.simulate_loop host llm this_simulate (S f) i iterations sims bestNode bestScore
  = InstinctMCTS.ret (bestNode, bestScore).
Proof. intros H. simpl. rewrite H. reflexivity. Qed.

(** Called with a node on an engine that has a root, [this.simulate]
    runs no round and leaves the engine as it is. *)
Lemma simulate_of_node_changes_nothing : forall fuel a a2 e e' r,
  is_Some (InstinctMCTS.root e) ->
  InstinctMCTS.simulate host llm fuel (VNode a) a2 e = Some (e', r) -> e' = e.
Proof.
  intros [| f] a a2 e e' r [r0 Hroot] H; [discriminate |].
  rewrite simulate_S in H. unfold InstinctMCTS.simulate_305 in H.
  unfold InstinctMCTS.bind at 1, InstinctMCTS.get at 1 in H. rewrite Hroot in H.
  unfold InstinctMCTS.bind at 1, InstinctMCTS.ret at 1 in H.
  unfold InstinctMCTS.bind at 1, InstinctMCTS.get at 1 in H.
  unfold InstinctMCTS.bind at 1 in H.
  destruct f as [| f']; [discriminate |].
  cbn [default_arg] in H.
  rewrite simulate_loop_done in H by apply js_lt_number_node.
  unfold InstinctMCTS.ret at 1 in H. rewrite Hroot in H. cbn [fst snd] in H.
  unfold InstinctMCTS.bind at 1, InstinctMCTS.deref at 1 in H.
  destruct (InstinctMCTS.heap e !! r0) as [n |]; [| injection H as <- _; reflexivity].
  unfold InstinctMCTS.bind at 1, InstinctMCTS.get at 1 in H.
  unfold InstinctMCTS.bind at 1 in H.
  destruct (InstinctMCTS._getCurrentTreeState e) as [[e1 [s | msg]] |] eqn:Hs; [| | discriminate].
  - pose proof Hs as Hq. unfold InstinctMCTS._getCurrentTreeState in Hq. rewrite Hroot in Hq.
    destruct (Tree.nodeToObject _ _ _); injection Hq as <- _; injection H as <- _; reflexivity.
  - pose proof Hs as Hq. unfold InstinctMCTS._getCurrentTreeState in Hq. rewrite Hroot in Hq.
    destruct (Tree.nodeToObject _ _ _); injection Hq as <- _; injection H as <- _; reflexivity.
Qed.

(** *** The history along [search] *)

Lemma select_ok_root fuel e e' a :
  InstinctMCTS.select host fuel e = Some (e', Ok a) -> is_Some (InstinctMCTS.root e).
Proof.
  unfold InstinctMCTS.select. destruct (InstinctMCTS.root e); [eauto | discriminate].
Qed.

Lemma recordTreeState_appends e e' r :
  InstinctMCTS._recordTreeState e = Some (e', r) ->
  InstinctMCTS.root e' = InstinctMCTS.root e /\
  match r with
  | Ok _ => exists s, InstinctMCTS.treeHistory e' = InstinctMCTS.treeHistory e ++ [s]
  | Error _ => InstinctMCTS.treeHistory e' = InstinctMCTS.treeHistory e
  end.
Proof.
  intros H. unfold InstinctMCTS._recordTreeState in H.
  apply bind_inv in H as [(e1 & s & Hs & H) | (msg & Hs & ->)].
  - destruct (quiet_getCurrentTreeState _ _ _ Hs) as [Ht Hr].
    injection H as <- <-. simpl. split; [exact Hr |]. exists s. rewrite Ht. reflexivity.
  - destruct (quiet_getCurrentTreeState _ _ _ Hs) as [Ht Hr]. split; assumption.
Qed.

Section Search.
Context (this_simulate : jsval -> jsval -> InstinctMCTS.M (Client := Client) jsval).
Context (Hthis : forall a a2 e e' r,
           is_Some (InstinctMCTS.root e) ->
           this_simulate (VNode a) a2 e = Some (e', r) -> e' = e).

(** A step of [search] adds one snapshot when it returns, and at most
    one when it throws. *)
Lemma search_step_records fuel e e' r :
  InstinctMCTS.search_step host llm this_simulate fuel e = Some (e', r) ->
  exists l,
    InstinctMCTS.treeHistory e' = InstinctMCTS.treeHistory e ++ l /\
    length l <= 1 /\
    (forall u, r = Ok u ->
       length l = 1 /\ InstinctMCTS.root e' = InstinctMCTS.root e /\
       is_Some (InstinctMCTS.root e)).
Proof.
  intros H. unfold InstinctMCTS.search_step in H.
  assert (Hnone : forall e1,
            InstinctMCTS.treeHistory e1 = InstinctMCTS.treeHistory e ->
            forall msg : string, r = Error msg -> e1 = e' ->
            exists l,
              InstinctMCTS.treeHistory e' = InstinctMCTS.treeHistory e ++ l /\
              length l <= 1 /\
              (forall u, r = Ok u ->
                 length l = 1 /\ InstinctMCTS.root e' = InstinctMCTS.root e /\
                 is_Some (InstinctMCTS.root e))).
  { intros e1 Ht msg -> <-. exists []. rewrite app_nil_r.
    split; [exact Ht |]. split; [simpl; lia | intros u Hu; discriminate]. }
  apply bind_inv in H as [(e1 & selected & Hsel & H) | (msg & Hsel & Hr)];
    [| exact (Hnone e' (proj1 (quiet_select _ _ _ _ Hsel)) msg Hr eq_refl)].
  pose proof (select_ok_root _ _ _ _ Hsel) as Hroot.
  destruct (quiet_select _ _ _ _ Hsel) as [Ht1 Hr1].
  apply bind_inv in H as [(e2 & n & Hn & H) | (msg & Hn & Hr)].
  2:{ destruct (quiet_deref _ _ _ _ Hn) as [Ht2 _].
      apply (Hnone e' (eq_trans Ht2 Ht1) msg Hr eq_refl). }
  destruct (quiet_deref _ _ _ _ Hn) as [Ht2 Hr2].
  assert (Hleaf : forall e3 res,
            (if (length (Node.children n) <? 2)%nat
             then InstinctMCTS.expand host llm selected 2
             else InstinctMCTS.ret (Some selected)) e2 = Some (e3, res) ->
            InstinctMCTS.treeHistory e3 = InstinctMCTS.treeHistory e2 /\
            InstinctMCTS.root e3 = InstinctMCTS.root e2 /\
            forall leaf, res = Ok leaf -> is_Some leaf).
  { intros e3 res Hrun. destruct (length (Node.children n) <? 2)%nat.
    - destruct (quiet_expand _ _ _ _ _ Hrun) as [Ht Hr].
      split; [exact Ht |]. split; [exact Hr |]. intros leaf ->.
      exact (expand_returns_a_node _ _ _ _ _ Hrun).
    - injection Hrun as <- <-. split; [reflexivity |]. split; [reflexivity |].
      intros leaf Hl. injection Hl as <-. eauto. }
  apply bind_inv in H as [(e3 & leaf & Hexp & H) | (msg & Hexp & Hr)].
  2:{ destruct (Hleaf _ _ Hexp) as (Ht3 & _).
      apply (Hnone e' (eq_trans Ht3 (eq_trans Ht2 Ht1)) msg Hr eq_refl). }
  destruct (Hleaf _ _ Hexp) as (Ht3 & Hr3 & Hsome).
  destruct (Hsome leaf eq_refl) as [a ->]. cbn [InstinctMCTS.node_or] in H.
  assert (Hroot3 : is_Some (InstinctMCTS.root e3)) by (rewrite Hr3, Hr2, Hr1; exact Hroot).
  apply bind_inv in H as [(e4 & score & Hsim & H) | (msg & Hsim & Hr)].
  2:{ apply (Hnone e3 (eq_trans Ht3 (eq_trans Ht2 Ht1)) msg Hr).
      symmetry. exact (Hthis _ _ _ _ _ Hroot3 Hsim). }
  pose proof (Hthis _ _ _ _ _ Hroot3 Hsim) as ->.
  apply bind_inv in H as [(e5 & ? & Hback & H) | (msg & Hback & Hr)].
  2:{ destruct (quiet_backpropagate _ _ _ _ _ _ Hback) as [Ht5 _].
      apply (Hnone e' (eq_trans Ht5 (eq_trans Ht3 (eq_trans Ht2 Ht1))) msg Hr eq_refl). }
  destruct (quiet_backpropagate _ _ _ _ _ _ Hback) as [Ht5 Hr5].
  apply bind_inv in H as [(e6 & ? & Hrec & H) | (msg & Hrec & Hr)].
  2:{ destruct (recordTreeState_appends _ _ _ Hrec) as [_ Ht6].
      apply (Hnone e' (eq_trans Ht6 (eq_trans Ht5 (eq_trans Ht3 (eq_trans Ht2 Ht1))))
               msg Hr eq_refl). }
  destruct (recordTreeState_appends _ _ _ Hrec) as [Hr6 [s Ht6]].
  destruct (quiet_notify _ _ _ H) as [Ht7 Hr7].
  exists [s]. rewrite Ht7, Ht6, Ht5, Ht3, Ht2, Ht1.
  split; [reflexivity |]. split; [simpl; lia |].
  intros u _. split; [reflexivity |]. split; [congruence | exact Hroot].
Qed.

Lemma js_lt_of_nat i k : js_lt (VNum (of_nat i)) (VNum (of_nat k)) = (i <? k)%nat.
Proof.
  unfold js_lt, of_nat, fin. simpl.
  destruct (i <? k)%nat eqn:E.
  - apply Nat.ltb_lt in E. apply Qltb_lt. rewrite !Qred_correct.
    unfold Qlt. simpl. lia.
  - apply Nat.ltb_ge in E. apply Qltb_ge. rewrite !Qred_correct.
    unfold Qle. simpl. lia.
Qed.

Lemma search_loop_records k : forall fuel i e e' r,
  InstinctMCTS.search_loop host llm this_simulate fuel i (VNum (of_nat k)) e = Some (e', r) ->
  exists l,
    InstinctMCTS.treeHistory e' = InstinctMCTS.treeHistory e ++ l /\
    length l <= k - i /\
    (forall u, r = Ok u ->
       length l = k - i /\ InstinctMCTS.root e' = InstinctMCTS.root e).
Proof.
  induction fuel as [| f IH]; intros i e e' r H; [discriminate |].
  simpl in H. rewrite js_lt_of_nat in H.
  destruct (i <? k)%nat eqn:E.
  - apply Nat.ltb_lt in E.
    apply bind_inv in H as [(e1 & ? & Hstep & H) | (msg & Hstep & ->)].
    + destruct (search_step_records _ _ _ _ Hstep) as (l1 & Ht1 & _ & Hl1).
      destruct (Hl1 _ eq_refl) as (Hlen1 & Hroot1 & _).
      destruct (IH _ _ _ _ H) as (l2 & Ht2 & Hle2 & Hl2).
      exists (l1 ++ l2). rewrite Ht2, Ht1, app_assoc, length_app, Hlen1.
      split; [reflexivity |]. split; [lia |].
      intros u Hu. destruct (Hl2 u Hu) as [Hlen2 Hroot2].
      split; [lia | congruence].
    + destruct (search_step_records _ _ _ _ Hstep) as (l1 & Ht1 & Hle1 & _).
      exists l1. split; [exact Ht1 |]. split; [lia | intros u Hu; discriminate].
  - apply Nat.ltb_ge in E. injection H as <- <-. exists []. rewrite app_nil_r.
    split; [reflexivity |]. split; [simpl; lia |].
    intros u _. split; [simpl; lia | reflexivity].
Qed.

Lemma search_records k fuel e e' r :
  InstinctMCTS.search host llm this_simulate fuel (VNum (of_nat k)) e = Some (e', r) ->
  exists l,
    InstinctMCTS.treeHistory e' = InstinctMCTS.treeHistory e ++ l /\
    length l <= k /\
    (forall best, r = Ok best ->
       length l = k /\ InstinctMCTS.root e' = InstinctMCTS.root e).
Proof.
  intros H. unfold InstinctMCTS.search in H. cbn [default_arg] in H.
  apply bind_inv in H as [(e1 & ? & Hloop & H) | (msg & Hloop & ->)].
  - destruct (search_loop_records k _ _ _ _ _ Hloop) as (l & Ht & _ & Hl).
    destruct (Hl _ eq_refl) as [Hlen Hroot].
    destruct (quiet_getBestNode _ _ _ _ H) as [Ht' Hroot'].
    exists l. rewrite Ht', Ht, Hlen. split; [reflexivity |]. split; [lia |].
    intros best _. split; [lia | congruence].
  - destruct (search_loop_records k _ _ _ _ _ Hloop) as (l & Ht & Hle & _).
    exists l. split; [exact Ht |]. split; [lia | intros best Hb; discriminate].
Qed.

(** The rounds of the two-argument [simulate]: each adds the snapshots
    of its [search]. *)
Lemma simulate_loop_records i k : forall fuel j e e' bestNode bestScore best,
  is_Some (InstinctMCTS.root e) ->
  InstinctMCTS.simulate_loop host llm this_simulate fuel j (VNum (of_nat i)) (VNum (of_nat k))
    bestNode bestScore e = Some (e', Ok best) ->
  exists l,
    InstinctMCTS.treeHistory e' = InstinctMCTS.treeHistory e ++ l /\
    length l = (i - j) * k /\ InstinctMCTS.root e' = InstinctMCTS.root e.
Proof.
  induction fuel as [| f IH]; intros j e e' bestNode bestScore best Hroot H; [discriminate |].
  simpl in H. rewrite js_lt_of_nat in H.
  destruct (j <? i)%nat eqn:E.
  - apply Nat.ltb_lt in E.
    apply bind_ok_inv in H as (e1 & ? & Hsearch & H).
    destruct (search_records k _ _ _ _ Hsearch) as (l1 & Ht1 & _ & Hl1).
    destruct (Hl1 _ eq_refl) as [Hlen1 Hroot1].
    apply bind_ok_inv in H as (e2 & currentBest & Hbest & H).
    destruct (quiet_getBestNode _ _ _ _ Hbest) as [Ht2 Hroot2].
    assert (Hsome : is_Some currentBest).
    { unfold InstinctMCTS.getBestNode in Hbest.
      destruct (InstinctMCTS.root e1) eqn:Hr1;
        [| rewrite Hroot1 in Hr1; destruct Hroot as [? Hroot]; congruence].
      destruct (Tree.getBestNode_loop _ _ _); [| discriminate].
      injection Hbest as _ <-. eauto. }
    destruct Hsome as [b ->]. cbn [InstinctMCTS.node_or] in H.
    apply bind_ok_inv in H as (e3 & score & Hsim & H).
    assert (Hroot2' : is_Some (InstinctMCTS.root e2)) by (rewrite Hroot2, Hroot1; exact Hroot).
    pose proof (Hthis _ _ _ _ _ Hroot2' Hsim) as ->.
    assert (Hrest : exists l2,
              InstinctMCTS.treeHistory e' = InstinctMCTS.treeHistory e2 ++ l2 /\
              length l2 = (i - S j) * k /\ InstinctMCTS.root e' = InstinctMCTS.root e2).
    { destruct (js_gt score bestScore); exact (IH _ _ _ _ _ _ Hroot2' H). }
    destruct Hrest as (l2 & Ht3 & Hlen2 & Hroot3).
    exists (l1 ++ l2). rewrite Ht3, Ht2, Ht1, app_assoc, length_app, Hlen1, Hlen2.
    split; [reflexivity |]. split; [| congruence].
    replace (i - j) with (S (i - S j)) by lia. simpl. lia.
  - apply Nat.ltb_ge in E. injection H as <- _. exists []. rewrite app_nil_r.
    split; [reflexivity |]. split; [| reflexivity].
    replace (i - j) with 0 by lia. reflexivity.
Qed.
End Search.

(** [initialize] that returns has set the root and added one snapshot. *)
Lemma initialize_records e e' (a : addr) :
  InstinctMCTS.initialize host llm e = Some (e', Ok a) ->
  is_Some (InstinctMCTS.root e') /\
  exists s, InstinctMCTS.treeHistory e' = InstinctMCTS.treeHistory e ++ [s].
Proof.
  intros H.
  destruct (generateCompletion llm (InstinctMCTS.llmClient e)
              (InstinctMCTS.initialPrompt (InstinctMCTS.problem e) (InstinctMCTS.context e))
              {| temperature := Some (Fin (7#10)); maxTokens := None |})
    as [c1 [response | msg]] eqn:Hgen.
  - destruct (analyzeContent llm c1 response) as [c2 [an | msg]] eqn:Hana.
    + rewrite (initialize_success host llm e c1 response c2 an Hgen Hana) in H.
      injection H as <- _. simpl. split; eauto.
    + rewrite (initialize_analysis_failure host llm e c1 response c2 msg Hgen Hana) in H.
      discriminate.
  - rewrite (initialize_generation_failure host llm e c1 msg Hgen) in H. discriminate.
Qed.

(** What the two-argument [simulate] has recorded when it returns. *)
Lemma simulate_records i k : forall fuel e e' v,
  InstinctMCTS.simulate host llm fuel (VNum (of_nat i)) (VNum (of_nat k)) e = Some (e', Ok v) ->
  exists r l,
    v = VResult r /\
    InstinctMCTS.treeHistory e' = InstinctMCTS.treeHistory e ++ l /\
    length l = (match InstinctMCTS.root e with Some _ => 0 | None => 1 end) + i * k /\
    treeHistory_of r = InstinctMCTS.treeHistory e' /\
    InstinctMCTS._getCurrentTreeState e' = Some (e', Ok (finalTree r)).
Proof.
  intros [| f] e e' v H; [discriminate |].
  rewrite simulate_S in H. unfold InstinctMCTS.simulate_305 in H. cbn [default_arg] in H.
  unfold InstinctMCTS.bind at 1, InstinctMCTS.get at 1 in H.
  apply bind_ok_inv in H as (e1 & ? & Hinit & H).
  assert (Hstart : is_Some (InstinctMCTS.root e1) /\
            exists l0, InstinctMCTS.treeHistory e1 = InstinctMCTS.treeHistory e ++ l0 /\
                       length l0 = match InstinctMCTS.root e with
                                   | Some _ => 0
                                   | None => 1
                                   end).
  { destruct (InstinctMCTS.root e) as [r0 |] eqn:Hroot.
    - injection Hinit as <- _. rewrite Hroot. split; [eauto |].
      exists []. rewrite app_nil_r. split; reflexivity.
    - apply bind_ok_inv in Hinit as (e0 & a & Hi & Hret). injection Hret as <- _.
      destruct (initialize_records _ _ _ Hi) as [Hsome [s Hs]].
      split; [exact Hsome |]. exists [s]. split; [exact Hs | reflexivity]. }
  destruct Hstart as (Hroot1 & l0 & Ht0 & Hlen0).
  unfold InstinctMCTS.bind at 1, InstinctMCTS.get at 1 in H.
  apply bind_ok_inv in H as (e2 & best & Hloop & H).
  destruct (simulate_loop_records (InstinctMCTS.simulate host llm f)
              (simulate_of_node_changes_nothing f) i k _ _ _ _ _ _ _ Hroot1 Hloop)
    as (l & Ht & Hlen & Hroot2).
  destruct (fst best) as [b |]; [| discriminate].
  apply bind_ok_inv in H as (e3 & n & Hn & H).
  unfold InstinctMCTS.deref in Hn.
  destruct (InstinctMCTS.heap e2 !! b); [| discriminate]. injection Hn as <- _.
  unfold InstinctMCTS.bind at 1, InstinctMCTS.get at 1 in H.
  apply bind_ok_inv in H as (e4 & final & Hfinal & H).
  assert (e4 = e2) as ->.
  { unfold InstinctMCTS._getCurrentTreeState in Hfinal.
    destruct (InstinctMCTS.root e2); [| discriminate].
    destruct (Tree.nodeToObject _ _ _); injection Hfinal as <- _; reflexivity. }
  injection H as <- <-.
  eexists _, (l0 ++ l). split; [reflexivity |].
  rewrite Ht, Ht0, app_assoc, length_app, Hlen, Hlen0, Nat.sub_0_r.
  split; [reflexivity |]. split; [reflexivity |]. split; [reflexivity | exact Hfinal].
Qed.
End Quiet.

(** X16: [search(k)] adds one snapshot of the tree to the history at the
    end of each of its steps and none elsewhere: when it returns, the
    history is longer by [k] snapshots, by 10 when [numSimulations] is
    left out; when it throws, by at most [k]. *)
Theorem search_records_each_step :
  forall (host : Host) (Client : Type) (llm : LLM Client) (fuel k : nat)
         (numSimulations : jsval) (e e' : InstinctMCTS.t Client) (r : result (option addr)),
    numSimulations = VNum (of_nat k) \/ (numSimulations = VUndefined /\ k = 10) ->
    InstinctMCTS.run_search host llm fuel numSimulations e = Some (e', r) ->
    exists l,
      InstinctMCTS.treeHistory e' = InstinctMCTS.treeHistory e ++ l /\
      length l <= k /\ (forall best, r = Ok best -> length l = k).
Proof.
  intros host Client llm fuel k numSimulations e e' r Hk H.
  destruct (search_records host llm (InstinctMCTS.simulate host llm fuel)
              (simulate_of_node_changes_nothing host llm fuel) k fuel e e' r)
    as (l & Ht & Hle & Hl).
  { destruct Hk as [-> | [-> ->]]; exact H. }
  exists l. split; [exact Ht |]. split; [exact Hle |].
  intros best Hbest. exact (proj1 (Hl best Hbest)).
Qed.

Lemma search_records_each_step_witness :
  exists e' best,
    InstinctMCTS.run_search Runs.host Examples.scripted 10 (VNum (of_nat 1))
      (Runs.initialized Runs.scoring (Fin (7#10))) = Some (e', Ok best) /\
    length (InstinctMCTS.treeHistory e') = 2.
Proof.
  destruct (InstinctMCTS.run_search Runs.host Examples.scripted 10 (VNum (of_nat 1))
              (Runs.initialized Runs.scoring (Fin (7#10)))) as [[e' r] |] eqn:E;
    [| vm_compute in E; discriminate].
  assert (exists best, r = Ok best) as [best ->].
  { vm_compute in E. injection E as _ <-. eauto. }
  exists e', best. split; [reflexivity |].
  destruct (search_records_each_step Runs.host Examples.Script Examples.scripted 10 1
              (VNum (of_nat 1)) _ e' (Ok best) (or_introl eq_refl) E) as (l & Ht & _ & Hl).
  rewrite Ht, length_app, (Hl best eq_refl). reflexivity.
Defined.

(** X17: the two-argument [simulate(i, k)], when it returns.  Its result
    is the object whose [treeHistory] is the engine's history and whose
    [finalTree] is the snapshot of the tree as [simulate] leaves it.
    The history has grown by [i * k] snapshots, one for each step of
    each round, and by one more, the first, when the engine had no root
    and [simulate] had to initialize it. *)
Theorem simulate_returns_the_history :
  forall (host : Host) (Client : Type) (llm : LLM Client) (fuel i k : nat)
         (e e' : InstinctMCTS.t Client) (v : jsval),
    InstinctMCTS.simulate host llm fuel (VNum (of_nat i)) (VNum (of_nat k)) e
    = Some (e', Ok v) ->
    exists r l,
      v = VResult r /\
      InstinctMCTS.treeHistory e' = InstinctMCTS.treeHistory e ++ l /\
      length l = (match InstinctMCTS.root e with Some _ => 0 | None => 1 end) + i * k /\
      treeHistory_of r = InstinctMCTS.treeHistory e' /\
      InstinctMCTS._getCurrentTreeState e' = Some (e', Ok (finalTree r)).
Proof.
  intros host Client llm fuel i k e e' v H.
  exact (simulate_records host llm i k fuel e e' v H).
Qed.

Lemma simulate_returns_the_history_witness :
  exists e' r,
    InstinctMCTS.simulate Runs.host Examples.scripted 10 (VNum (of_nat 1)) (VNum (of_nat 1))
      (Runs.fresh Runs.scoring (Fin (7#10))) = Some (e', Ok (VResult r)) /\
    length (InstinctMCTS.treeHistory e') = 2 /\
    treeHistory_of r = InstinctMCTS.treeHistory e'.
Proof.
  destruct (InstinctMCTS.simulate Runs.host Examples.scripted 10 (VNum (of_nat 1))
              (VNum (of_nat 1)) (Runs.fresh Runs.scoring (Fin (7#10))))
    as [[e' res] |] eqn:E; [| vm_compute in E; discriminate].
  assert (exists v, res = Ok v) as [v ->].
  { vm_compute in E. injection E as _ <-. eauto. }
  destruct (simulate_returns_the_history Runs.host Examples.Script Examples.scripted 10 1 1
              _ e' v E) as (r & l & -> & Ht & Hlen & Hr & _).
  exists e', r. split; [reflexivity |]. split; [| exact Hr].
  rewrite Ht, length_app, Hlen. reflexivity.
Defined.

(** ** The one-argument [simulate] *)


